(** * EchoVerse game engine: a shallow embedding of [GameEngine.tsx]

    The engine of [src/components/GameEngine.tsx] is a class with one mutable
    [gameState] record, a level catalog, and calls to three collaborators
    (audio manager, voice controller, UI callbacks).  It is embedded here by
    explicit state passing: every method is a function on [Engine], the calls
    to the collaborators are appended to a trace of [Event]s, and the single
    [setTimeout] of the class is a counter of pending callbacks that a
    separate transition fires.

    Numbers.  Every coordinate the engine handles is an integer: positions
    start at the origin, move by one unit and are reset to the origin, and the
    catalog places objectives and hazards on integer points.  Coordinates,
    [score], [lives] and [currentLevel] are therefore [Z]; the fractional
    constants of the source (0.5, 1.5, the volumes) are kept as rationals.

    The collaborators.  After the engine come the parts of the other files
    that the engine meets: the phrase and key mapping and the speech memory
    of [VoiceController.tsx], the sound names of [AudioManager.tsx], and the
    log of [pages/Index.tsx].  What the audio manager, the voice controller
    and the page have been told at any time is read off the trace. *)

From Stdlib Require Import ZArith QArith Lia.
From stdpp Require Import base list strings pretty.

Local Open Scope Z_scope.

(** ** Strings of the narration *)

Definition dq : string := String (Ascii.ascii_of_nat 34) EmptyString.
Definition nl : string := String (Ascii.ascii_of_nat 10) EmptyString.

(** [quoted s] is [s] between double quotes, as in the template literals. *)
Definition quoted (s : string) : string := dq +:+ s +:+ dq.

(** ** Data model *)

Module THREE.

Record Vector3 : Type := mkVector3 { x : Z; y : Z; z : Z }.

(** [a.distanceTo(b)] is the square root of this integer. *)
Definition distanceToSquared (a b : Vector3) : Z :=
  (x a - x b) * (x a - x b) + (y a - y b) * (y a - y b) + (z a - z b) * (z a - z b).

(** [a.distanceTo(b) <= r] for a non-negative rational [r]: the square root
    is monotone, so the test is made on the squares. *)
Definition distanceTo_le (a b : Vector3) (r : Q) : bool :=
  Qle_bool (inject_Z (distanceToSquared a b)) (r * r).

Definition set_x (v : Z) (p : Vector3) : Vector3 := mkVector3 v (y p) (z p).
Definition set_z (v : Z) (p : Vector3) : Vector3 := mkVector3 (x p) (y p) v.

End THREE.

Definition origin : THREE.Vector3 := THREE.mkVector3 0 0 0.
Definition forwardHeading : THREE.Vector3 := THREE.mkVector3 0 0 1.
Definition upVector : THREE.Vector3 := THREE.mkVector3 0 1 0.

Inductive Mode : Type := practice | adventure.

Definition mode_name (m : Mode) : string :=
  match m with practice => "practice" | adventure => "adventure" end.

Record Objective : Type := mkObjective {
  objective_type : string;
  objective_target : string;
  objective_position : THREE.Vector3;
  objective_description : string
}.

Record Hazard : Type := mkHazard {
  hazard_type : string;
  hazard_position : THREE.Vector3;
  hazard_description : string
}.

(** An environment object.  The practice room is built without [id],
    [soundscape], [objectives] and [hazards]: the first, second and last are
    [None] there ([undefined] in the source), and its objective list, which
    the engine never reads, is empty. *)
Record Environment : Type := mkEnvironment {
  env_id : option Z;
  env_name : string;
  env_description : string;
  env_size : THREE.Vector3;
  env_soundscape : option string;
  env_objectives : list Objective;
  env_hazards : option (list Hazard)
}.

(** [interface GameState].  [environment] is [None] for both [null] and
    [undefined]: the source only tests it for truthiness or through [?.]. *)
Record GameState : Type := mkGameState {
  mode : Mode;
  isPlaying : bool;
  score : Z;
  lives : Z;
  currentLevel : Z;
  playerPosition : THREE.Vector3;
  playerDirection : THREE.Vector3;
  environment : option Environment;
  objectives : list Objective;
  inventory : list string
}.

(** What [onStateChange] and [onVisualUpdate] receive, as it is at the time
    of the call. *)
Record StatusSnapshot : Type := mkStatus {
  st_mode : Mode;
  st_isPlaying : bool;
  st_score : Z;
  st_lives : Z;
  st_currentLevel : Z
}.

Record VisualSnapshot : Type := mkVisual {
  vis_playerPosition : Z * Z;
  vis_environment : option Environment;
  vis_objectives : list Objective;
  vis_hazards : list Hazard
}.

(** Calls made to the collaborators, in the order they are made. *)
Inductive Event : Type :=
  | Speak (text : string)
  | PlaySound (name : string) (volume : Q)
  | CreatePositionalSound (name : string) (position : THREE.Vector3)
  | PlayPositionalSound (name : string) (volume : Q)
  | SetListenerPosition (position forward up : THREE.Vector3)
  | StartBackgroundMusic
  | StopBackgroundMusic
  | RepeatLastSpeech
  | Log (message : string)
  | StateChange (state : StatusSnapshot)
  | VisualUpdate (visualData : VisualSnapshot).

(** The object: the private fields of the class, whether the optional
    [onVisualUpdate] callback was given, the number of [setTimeout] callbacks
    not yet fired, and the calls made so far (most recent first). *)
Record Engine : Type := mkEngine {
  gameState : GameState;
  environments : list Environment;
  currentObjective : option Objective;
  lastCommand : string;
  onVisualUpdate : bool;
  timers : nat;
  trace : list Event
}.

(** A method either returns or throws (the only exception of the class is the
    [TypeError] of a property read on [undefined]). *)
Inductive Completion : Type := Returned | Threw.

(** ** Field updates *)

Definition with_gameState (f : GameState -> GameState) (e : Engine) : Engine :=
  mkEngine (f (gameState e)) (environments e) (currentObjective e) (lastCommand e)
           (onVisualUpdate e) (timers e) (trace e).

Definition set_gameState (g : GameState) : Engine -> Engine := with_gameState (fun _ => g).

Definition set_currentObjective (o : option Objective) (e : Engine) : Engine :=
  mkEngine (gameState e) (environments e) o (lastCommand e)
           (onVisualUpdate e) (timers e) (trace e).

Definition set_lastCommand (c : string) (e : Engine) : Engine :=
  mkEngine (gameState e) (environments e) (currentObjective e) c
           (onVisualUpdate e) (timers e) (trace e).

Definition set_timers (n : nat) (e : Engine) : Engine :=
  mkEngine (gameState e) (environments e) (currentObjective e) (lastCommand e)
           (onVisualUpdate e) n (trace e).

Definition emit (ev : Event) (e : Engine) : Engine :=
  mkEngine (gameState e) (environments e) (currentObjective e) (lastCommand e)
           (onVisualUpdate e) (timers e) (ev :: trace e).

Definition set_mode (v : Mode) (g : GameState) : GameState :=
  mkGameState v (isPlaying g) (score g) (lives g) (currentLevel g) (playerPosition g)
              (playerDirection g) (environment g) (objectives g) (inventory g).

Definition set_isPlaying (v : bool) (g : GameState) : GameState :=
  mkGameState (mode g) v (score g) (lives g) (currentLevel g) (playerPosition g)
              (playerDirection g) (environment g) (objectives g) (inventory g).

Definition set_score (v : Z) (g : GameState) : GameState :=
  mkGameState (mode g) (isPlaying g) v (lives g) (currentLevel g) (playerPosition g)
              (playerDirection g) (environment g) (objectives g) (inventory g).

Definition set_lives (v : Z) (g : GameState) : GameState :=
  mkGameState (mode g) (isPlaying g) (score g) v (currentLevel g) (playerPosition g)
              (playerDirection g) (environment g) (objectives g) (inventory g).

Definition set_currentLevel (v : Z) (g : GameState) : GameState :=
  mkGameState (mode g) (isPlaying g) (score g) (lives g) v (playerPosition g)
              (playerDirection g) (environment g) (objectives g) (inventory g).

Definition set_playerPosition (v : THREE.Vector3) (g : GameState) : GameState :=
  mkGameState (mode g) (isPlaying g) (score g) (lives g) (currentLevel g) v
              (playerDirection g) (environment g) (objectives g) (inventory g).

Definition set_playerDirection (v : THREE.Vector3) (g : GameState) : GameState :=
  mkGameState (mode g) (isPlaying g) (score g) (lives g) (currentLevel g) (playerPosition g)
              v (environment g) (objectives g) (inventory g).

Definition set_environment (v : option Environment) (g : GameState) : GameState :=
  mkGameState (mode g) (isPlaying g) (score g) (lives g) (currentLevel g) (playerPosition g)
              (playerDirection g) v (objectives g) (inventory g).

Definition set_objectives (v : list Objective) (g : GameState) : GameState :=
  mkGameState (mode g) (isPlaying g) (score g) (lives g) (currentLevel g) (playerPosition g)
              (playerDirection g) (environment g) v (inventory g).

(** ** The collaborators

    [audioManager], [voiceController], [onLog], [onStateChange] and
    [onVisualUpdate] are outside the engine: a call to one of them is recorded
    and changes nothing in the engine. *)

Definition speak (text : string) : Engine -> Engine := emit (Speak text).
Definition playSound (name : string) (volume : Q) : Engine -> Engine :=
  emit (PlaySound name volume).
Definition createPositionalSound (name : string) (position : THREE.Vector3) : Engine -> Engine :=
  emit (CreatePositionalSound name position).
Definition playPositionalSound (name : string) (volume : Q) : Engine -> Engine :=
  emit (PlayPositionalSound name volume).
Definition setListenerPosition (position forward up : THREE.Vector3) : Engine -> Engine :=
  emit (SetListenerPosition position forward up).
Definition startBackgroundMusic : Engine -> Engine := emit StartBackgroundMusic.
Definition stopBackgroundMusic : Engine -> Engine := emit StopBackgroundMusic.
Definition repeatLastSpeech : Engine -> Engine := emit RepeatLastSpeech.
Definition onLog (message : string) : Engine -> Engine := emit (Log message).

Definition updateState (e : Engine) : Engine :=
  let g := gameState e in
  emit (StateChange (mkStatus (mode g) (isPlaying g) (score g) (lives g) (currentLevel g))) e.

Definition updateVisualState (e : Engine) : Engine :=
  if onVisualUpdate e then
    let g := gameState e in
    emit (VisualUpdate
            (mkVisual (THREE.x (playerPosition g), THREE.z (playerPosition g))
                      (environment g)
                      (objectives g)
                      (match environment g with
                       | Some env => default [] (env_hazards env)
                       | None => []
                       end))) e
  else e.

(** ** The catalog and the constructor *)

Definition crystal : Objective :=
  mkObjective "find" "crystal" (THREE.mkVector3 3 0 4) "A magical crystal that hums with energy".

Definition pit : Hazard :=
  mkHazard "pit" (THREE.mkVector3 (-2) 0 2) "A deep pit with echoing depths".

Definition caveExit : Objective :=
  mkObjective "escape" "exit" (THREE.mkVector3 0 0 6) "The cave exit with fresh air flowing through".

Definition rockfall : Hazard :=
  mkHazard "rockfall" (THREE.mkVector3 2 0 (-3)) "Unstable rocks that could fall".

Definition echoingForest : Environment :=
  mkEnvironment (Some 1) "The Echoing Forest"
    "You find yourself in a mysterious forest where sounds bounce off ancient trees. The ground crunches softly beneath your feet."
    (THREE.mkVector3 10 0 10) (Some "forest") [crystal] (Some [pit]).

Definition whisperingCaves : Environment :=
  mkEnvironment (Some 2) "The Whispering Caves"
    "Deep underground caverns where every sound creates haunting echoes. Water drips steadily in the distance."
    (THREE.mkVector3 8 0 12) (Some "cave") [caveExit] (Some [rockfall]).

Definition initializeEnvironments : list Environment := [echoingForest; whisperingCaves].

Definition practiceRoom : Environment :=
  mkEnvironment None "Practice Room" "A simple room for learning"
    (THREE.mkVector3 4 0 4) None [] None.

Definition initialGameState (m : Mode) : GameState :=
  mkGameState m false 0 3 1 origin forwardHeading None [] [].

(** [new GameEngine(options)]; the argument says whether [options] carries
    [onVisualUpdate]. *)
Definition new_GameEngine (visual : bool) : Engine :=
  mkEngine (initialGameState practice) initializeEnvironments None "" visual 0 [].

(** ** Iteration

    [forEach] on an array that the callback leaves alone. *)
Fixpoint forEach {A : Type} (callback : A -> nat -> Engine -> Engine)
    (array : list A) (index : nat) (e : Engine) : Engine :=
  match array with
  | [] => e
  | a :: rest => forEach callback rest (S index) (callback a index e)
  end.

(** [this.gameState.objectives.forEach] when the callback may [splice] the
    array it runs over.  [Array.prototype.forEach] reads the length once,
    before the first call, then visits the indices below it in order and
    skips an index that is no longer in the array when its turn comes.
    [remaining] counts the indices still to visit. *)
Fixpoint forEachObjective (callback : Objective -> nat -> Engine -> Engine)
    (remaining index : nat) (e : Engine) : Engine :=
  match remaining with
  | O => e
  | S remaining' =>
      forEachObjective callback remaining' (S index)
        (match objectives (gameState e) !! index with
         | Some objective => callback objective index e
         | None => e
         end)
  end.

(** [array[i]] for a number [i]: [undefined] outside the array. *)
Definition at_index {A : Type} (array : list A) (i : Z) : option A :=
  if i <? 0 then None else array !! Z.to_nat i.

Definition Qgt_bool (a b : Q) : bool := negb (Qle_bool a b).

(** ** End of a session *)

Definition stopGame (e : Engine) : Engine :=
  let e := with_gameState (set_isPlaying false) e in
  let e := stopBackgroundMusic e in
  updateState e.

Definition gameOverMessage (finalScore : Z) : string :=
  "Game Over! Your final score was " +:+ pretty finalScore +:+ ". Better luck next time!".

Definition gameOver (e : Engine) : Engine :=
  let e := speak (gameOverMessage (score (gameState e))) e in
  stopGame e.

Definition gameWonMessage (finalScore : Z) : string :=
  "Congratulations! You've completed all levels! Your final score is " +:+ pretty finalScore
  +:+ ". You are a true EchoVerse champion!".

Definition gameWon (e : Engine) : Engine :=
  let e := speak (gameWonMessage (score (gameState e))) e in
  stopGame e.

(** ** Level completion *)

Definition levelCompletedMessage (level : Z) : string :=
  "Level " +:+ pretty level +:+ " completed! Well done!".

(** [setTimeout(() => this.startAdventureMode(), 3000)] adds one pending
    callback; [fireTimer] below runs it. *)
Definition completeLevel (e : Engine) : Engine :=
  let e := playSound "success" 1 e in
  let e := speak (levelCompletedMessage (currentLevel (gameState e))) e in
  let e := with_gameState (fun g => set_score (score g + 500) g) e in
  let e := with_gameState (fun g => set_currentLevel (currentLevel g + 1) g) e in
  let e :=
    if currentLevel (gameState e) <=? Z.of_nat (length (environments e))
    then set_timers (S (timers e)) e
    else gameWon e in
  updateState e.

(** ** Interactions *)

Definition foundMessage (objective : Objective) : string :=
  "Congratulations! You found " +:+ objective_description objective +:+ "!".

Definition interactWithObjective (objective : Objective) (index : nat) (e : Engine) : Engine :=
  let e := playSound "success" 1 e in
  let e := speak (foundMessage objective) e in
  let e := with_gameState (fun g => set_score (score g + 100) g) e in
  let e := with_gameState (fun g => set_objectives (delete index (objectives g)) g) e in
  let e :=
    if Nat.eqb (length (objectives (gameState e))) 0
    then completeLevel e
    else set_currentObjective (objectives (gameState e) !! 0%nat) e in
  let e := onLog ("Found: " +:+ objective_description objective) e in
  updateState e.

Definition hazardMessage (hazard : Hazard) : string :=
  "Oh no! You encountered " +:+ hazard_description hazard +:+ ". You lost a life!".

Definition livesRemainingMessage (n : Z) : string :=
  "You have " +:+ pretty n +:+ " lives remaining. You've been returned to the starting position.".

Definition interactWithHazard (hazard : Hazard) (e : Engine) : Engine :=
  let e := playSound "danger" 1 e in
  let e := speak (hazardMessage hazard) e in
  let e := with_gameState (fun g => set_lives (lives g - 1) g) e in
  let e :=
    if lives (gameState e) <=? 0
    then gameOver e
    else
      let e := with_gameState (set_playerPosition origin) e in
      speak (livesRemainingMessage (lives (gameState e))) e in
  let e := onLog ("Hazard encountered: " +:+ hazard_description hazard) e in
  updateState e.

Definition interactionDistance : Q := 1.5.

(** The callbacks read [playerPos], the vector object of the state, when they
    run: a hazard that has sent the player back to the origin is seen by the
    hazards after it. *)
Definition checkObjective (objective : Objective) (index : nat) (e : Engine) : Engine :=
  let playerPos := playerPosition (gameState e) in
  if THREE.distanceTo_le playerPos (objective_position objective) interactionDistance
  then interactWithObjective objective index e
  else if THREE.distanceTo_le playerPos (objective_position objective) 3
  then playPositionalSound ("objective_" +:+ pretty index) 0.3 e
  else e.

Definition checkHazard (hazard : Hazard) (index : nat) (e : Engine) : Engine :=
  let playerPos := playerPosition (gameState e) in
  if THREE.distanceTo_le playerPos (hazard_position hazard) interactionDistance
  then interactWithHazard hazard e
  else if THREE.distanceTo_le playerPos (hazard_position hazard) 2
  then playPositionalSound ("hazard_" +:+ pretty index) 0.4 e
  else e.

Definition checkForInteractions (e : Engine) : Engine :=
  let e := forEachObjective checkObjective (length (objectives (gameState e))) 0 e in
  match environment (gameState e) with
  | Some env =>
      match env_hazards env with
      | Some hazards => forEach checkHazard hazards 0 e
      | None => e
      end
  | None => e
  end.

(** ** Movement *)

(** [Math.abs(p.x) > halfSize.x || Math.abs(p.z) > halfSize.z] with
    [halfSize = size.clone().multiplyScalar(0.5)]. *)
Definition beyondHalfSize (p size : THREE.Vector3) : bool :=
  Qgt_bool (inject_Z (Z.abs (THREE.x p))) (inject_Z (THREE.x size) * 0.5)
  || Qgt_bool (inject_Z (Z.abs (THREE.z p))) (inject_Z (THREE.z size) * 0.5).

(** The [switch (direction)] of [movePlayer]: one unit along one axis, and no
    change for any other string. *)
Definition stepTo (direction : string) (p : THREE.Vector3) : THREE.Vector3 :=
  let moveDistance := 1 in
  if String.eqb direction "left" then THREE.set_x (THREE.x p - moveDistance) p
  else if String.eqb direction "right" then THREE.set_x (THREE.x p + moveDistance) p
  else if String.eqb direction "forward" then THREE.set_z (THREE.z p + moveDistance) p
  else if String.eqb direction "back" then THREE.set_z (THREE.z p - moveDistance) p
  else p.

Definition edgeMessage : string :=
  "You've reached the edge. You cannot go further in this direction.".

(** [env.soundscape === tag] *)
Definition soundscape_is (env : Environment) (tag : string) : bool :=
  match env_soundscape env with
  | Some s => String.eqb s tag
  | None => false
  end.

(** The coordinates are integers, so [Math.round] returns its argument. *)
Definition getMovementFeedback (direction : string) (e : Engine) : string :=
  let pos := playerPosition (gameState e) in
  match environment (gameState e) with
  | None =>
      "You moved " +:+ direction +:+ ". You are now at position "
      +:+ pretty (THREE.x pos) +:+ ", " +:+ pretty (THREE.z pos) +:+ "."
  | Some env =>
      let feedback := "You moved " +:+ direction +:+ ". " in
      if soundscape_is env "forest" then
        let feedback :=
          if (3 <? Z.abs (THREE.x pos)) || (3 <? Z.abs (THREE.z pos))
          then feedback +:+ "The trees seem denser here. " else feedback in
        feedback +:+ "Leaves rustle in the wind around you."
      else if soundscape_is env "cave" then
        let feedback :=
          if (2 <? Z.abs (THREE.x pos)) || (4 <? Z.abs (THREE.z pos))
          then feedback +:+ "Your footsteps echo more dramatically here. " else feedback in
        feedback +:+ "Water drips steadily somewhere in the darkness."
      else feedback
  end.

(** The bound test of [movePlayer] on the stepped position. *)
Definition hitsBoundary (e : Engine) : bool :=
  match environment (gameState e) with
  | Some env => beyondHalfSize (playerPosition (gameState e)) (env_size env)
  | None => false
  end.

Definition movePlayer (direction : string) (e : Engine) : Engine :=
  if negb (isPlaying (gameState e)) then e
  else
    let oldPosition := playerPosition (gameState e) in
    let e := with_gameState (set_playerPosition (stepTo direction oldPosition)) e in
    if hitsBoundary e then
      let e := with_gameState (set_playerPosition oldPosition) e in
      let e := speak edgeMessage e in
      playSound "danger" 0.5 e
    else
      let e := playSound "step" 0.7 e in
      let e := setListenerPosition (playerPosition (gameState e))
                 (playerDirection (gameState e)) upVector e in
      let e := checkForInteractions e in
      let feedback := getMovementFeedback direction e in
      let e := match feedback with EmptyString => e | _ => speak feedback e end in
      let e := updateState e in
      updateVisualState e.

(** ** Starting a session *)

Definition setupSpatialAudio (e : Engine) : Engine :=
  match environment (gameState e) with
  | None => e
  | Some env =>
      let e := forEach (fun objective index =>
                          createPositionalSound ("objective_" +:+ pretty index)
                                                (objective_position objective))
                       (objectives (gameState e)) 0 e in
      match env_hazards env with
      | Some hazards =>
          forEach (fun hazard index =>
                     createPositionalSound ("hazard_" +:+ pretty index)
                                           (hazard_position hazard))
                  hazards 0 e
      | None => e
      end
  end.

Definition practiceWelcomeMessage : string :=
  nl +:+ "      Welcome to Practice Mode! This is a safe space to learn the controls."
  +:+ nl +:+ "      You are standing in the center of a small room."
  +:+ nl +:+ "      Try saying " +:+ quoted "go left" +:+ ", " +:+ quoted "go right" +:+ ", "
  +:+ quoted "go forward" +:+ ", or " +:+ quoted "go back" +:+ " to move around."
  +:+ nl +:+ "      Say " +:+ quoted "look around" +:+ " to examine your surroundings."
  +:+ nl +:+ "      Say " +:+ quoted "help" +:+ " if you need assistance."
  +:+ nl +:+ "    ".

Definition startPracticeMode (e : Engine) : Engine :=
  let e := speak practiceWelcomeMessage e in
  let e := onLog "Started Practice Mode" e in
  with_gameState (set_environment (Some practiceRoom)) e.

Definition adventureWelcomeMessage (env : Environment) (objective : Objective) : string :=
  nl +:+ "      Welcome to Adventure Mode! "
  +:+ nl +:+ "      " +:+ env_description env
  +:+ nl +:+ "      Your objective: " +:+ objective_description objective
  +:+ nl +:+ "      Listen carefully to the sounds around you. Good luck!"
  +:+ nl +:+ "    ".

(** [environment.objectives] throws when the catalog has no entry at
    [currentLevel - 1], and [this.currentObjective.description] throws when
    that entry lists no objective; the assignments made before the throw
    stay. *)
Definition startAdventureMode (e : Engine) : Completion * Engine :=
  let found := at_index (environments e) (currentLevel (gameState e) - 1) in
  let e := with_gameState (set_environment found) e in
  match found with
  | None => (Threw, e)
  | Some env =>
      let e := with_gameState (set_objectives (env_objectives env)) e in
      let e := set_currentObjective (objectives (gameState e) !! 0%nat) e in
      match currentObjective e with
      | None => (Threw, e)
      | Some objective =>
          let e := speak (adventureWelcomeMessage env objective) e in
          let e := onLog ("Started Adventure Mode - " +:+ env_name env) e in
          (Returned, setupSpatialAudio e)
      end
  end.

Definition startGame (m : Mode) (e : Engine) : Completion * Engine :=
  let e := with_gameState (set_mode m) e in
  let e := with_gameState (set_isPlaying true) e in
  let e := with_gameState (set_playerPosition origin) e in
  let e := with_gameState (set_playerDirection forwardHeading) e in
  let '(completion, e) :=
    match m with
    | practice => (Returned, startPracticeMode e)
    | adventure => startAdventureMode e
    end in
  match completion with
  | Threw => (Threw, e)
  | Returned =>
      let e := updateState e in
      let e := updateVisualState e in
      (Returned, startBackgroundMusic e)
  end.

(** ** The other commands *)

Definition lookAround (e : Engine) : Engine :=
  if negb (isPlaying (gameState e)) then e
  else
    let description := "You listen carefully to your surroundings. " in
    let '(description, e) :=
      match environment (gameState e) with
      | Some env =>
          let description := description +:+ env_description env +:+ " " in
          let nearbyObjectives :=
            filter (fun obj => Is_true (THREE.distanceTo_le (playerPosition (gameState e))
                                                            (objective_position obj) 4))
                   (objectives (gameState e)) in
          if (0 <? length nearbyObjectives)%nat
          then (description +:+ "You sense something important nearby. ",
                playSound "echo" 0.5 e)
          else (description, e)
      | None =>
          (description +:+ "You are in a practice room. The walls seem close on all sides.", e)
      end in
    let e := speak description e in
    onLog "Examined surroundings" e.

Definition helpMessage (pos : THREE.Vector3) : string :=
  nl +:+ "      Available commands: "
  +:+ nl +:+ "      Say " +:+ quoted "go left" +:+ ", " +:+ quoted "go right" +:+ ", "
  +:+ quoted "go forward" +:+ ", or " +:+ quoted "go back" +:+ " to move."
  +:+ nl +:+ "      Say " +:+ quoted "look around" +:+ " to examine your surroundings."
  +:+ nl +:+ "      Say " +:+ quoted "repeat" +:+ " to hear the last message again."
  +:+ nl +:+ "      You can also use arrow keys for movement and spacebar to look around."
  +:+ nl +:+ "      Your current position is " +:+ pretty (THREE.x pos) +:+ ", "
  +:+ pretty (THREE.z pos) +:+ "."
  +:+ nl +:+ "    ".

Definition provideHelp (e : Engine) : Engine :=
  let e := speak (helpMessage (playerPosition (gameState e))) e in
  onLog "Provided help information" e.

Definition toggleRefusal : string := "Please stop the current game before changing modes.".

Definition toggleMode (e : Engine) : Engine :=
  if isPlaying (gameState e) then speak toggleRefusal e
  else
    let e := with_gameState
               (fun g => set_mode (match mode g with practice => adventure | adventure => practice end) g)
               e in
    let e := speak ("Switched to " +:+ mode_name (mode (gameState e)) +:+ " mode.") e in
    updateState e.

Definition unknownMessage (command : string) : string :=
  "I didn't understand " +:+ quoted command +:+ ". Say " +:+ quoted "help"
  +:+ " for available commands.".

Definition handleUnknownCommand (command : string) (e : Engine) : Engine :=
  let e := speak (unknownMessage command) e in
  onLog ("Unknown command: " +:+ command) e.

Definition resetMessage : string := "Game reset. Ready for a new adventure!".

(** [resetGame] builds a fresh state object and keeps only [mode]; the
    pending callbacks of [setTimeout] are not touched. *)
Definition resetGame (e : Engine) : Engine :=
  let e := set_gameState (initialGameState (mode (gameState e))) e in
  let e := stopBackgroundMusic e in
  let e := speak resetMessage e in
  let e := onLog "Game reset" e in
  let e := updateState e in
  updateVisualState e.

(** ** Command dispatch *)

Definition alwaysAllowed : list string := ["start game"; "help"; "toggle mode"; "reset game"].

Definition vocabulary : list string :=
  ["start game"; "go left"; "go right"; "go forward"; "go back"; "look around";
   "help"; "repeat"; "toggle mode"; "reset game"; "stop game"].

(** [array.includes(command)] *)
Definition includes (array : list string) (command : string) : bool :=
  existsb (String.eqb command) array.

Definition startFirstMessage : string := "Please start a game first.".

Definition processCommand (command : string) (e : Engine) : Completion * Engine :=
  let e := set_lastCommand command e in
  let e := onLog ("Processing: " +:+ command) e in
  if negb (isPlaying (gameState e)) && negb (includes alwaysAllowed command)
  then (Returned, speak startFirstMessage e)
  else if String.eqb command "start game" then startGame (mode (gameState e)) e
  else if String.eqb command "go left" then (Returned, movePlayer "left" e)
  else if String.eqb command "go right" then (Returned, movePlayer "right" e)
  else if String.eqb command "go forward" then (Returned, movePlayer "forward" e)
  else if String.eqb command "go back" then (Returned, movePlayer "back" e)
  else if String.eqb command "look around" then (Returned, lookAround e)
  else if String.eqb command "help" then (Returned, provideHelp e)
  else if String.eqb command "repeat" then (Returned, repeatLastSpeech e)
  else if String.eqb command "toggle mode" then (Returned, toggleMode e)
  else if String.eqb command "reset game" then (Returned, resetGame e)
  else if String.eqb command "stop game" then (Returned, stopGame e)
  else (Returned, handleUnknownCommand command e).

(** ** The scheduled transition

    A pending callback of [completeLevel] runs between two commands, never
    inside one.  It calls [startAdventureMode] and nothing else: it has no
    guard, and no method of the class cancels it. *)
Definition fireTimer (e : Engine) : Completion * Engine :=
  match timers e with
  | O => (Returned, e)
  | S n => startAdventureMode (set_timers n e)
  end.

(** ** Runs

    What can happen to an engine: a command, the Start and Reset buttons of
    the page (which call the two public methods directly), and a pending
    callback firing.  An exception ends the call that raised it and leaves
    the object as it was at the throw. *)
Inductive Action : Type :=
  | Command (command : string)
  | StartButton (m : Mode)
  | ResetButton
  | TimerFires.

Definition perform (a : Action) (e : Engine) : Engine :=
  match a with
  | Command command => snd (processCommand command e)
  | StartButton m => snd (startGame m e)
  | ResetButton => resetGame e
  | TimerFires => snd (fireTimer e)
  end.

Definition run (actions : list Action) (e : Engine) : Engine :=
  fold_left (fun e a => perform a e) actions e.

Definition commands (cs : list string) : list Action := map Command cs.

Definition Reachable (e : Engine) : Prop :=
  exists (visual : bool) (actions : list Action), e = run actions (new_GameEngine visual).

(** * The voice controller ([VoiceController.tsx])

    The controller turns a key press or a recognised phrase into a command
    for [onCommand], and holds the text that [repeatLastSpeech] replays. *)

Module VoiceController.

(** [hay.includes(needle)] on strings: [needle] occurs somewhere in [hay]. *)
Fixpoint includes (needle hay : string) : bool :=
  String.prefix needle hay
  || match hay with
     | EmptyString => false
     | String _ rest => includes needle rest
     end.

(** The object literal [commandMap], in the order its keys are written,
    which is the order [Object.entries] lists them in. *)
Definition commandMap : list (string * string) :=
  [("start", "start game"); ("begin", "start game"); ("play", "start game");
   ("left", "go left"); ("right", "go right");
   ("forward", "go forward"); ("ahead", "go forward");
   ("back", "go back"); ("backward", "go back"); ("behind", "go back");
   ("look", "look around"); ("examine", "look around"); ("check", "look around");
   ("help", "help"); ("assist", "help");
   ("repeat", "repeat"); ("again", "repeat");
   ("stop", "stop game"); ("quit", "stop game");
   ("reset", "reset game"); ("restart", "reset game")].

(** [commandMap] is a plain object: a read [commandMap[name]] that finds no
    key of its own goes on to [Object.prototype], whose properties are
    functions or objects, all truthy. *)
Definition objectPrototype : list string :=
  ["constructor"; "__defineGetter__"; "__defineSetter__"; "hasOwnProperty";
   "__lookupGetter__"; "__lookupSetter__"; "isPrototypeOf"; "propertyIsEnumerable";
   "toString"; "valueOf"; "__proto__"; "toLocaleString"].

(** What a recognised phrase makes the controller hand to [onCommand]: a
    command string, the inherited property that the direct lookup found
    instead of a string, or nothing when the method returns without a
    call. *)
Inductive Passed : Type :=
  | PassCommand (command : string)
  | PassInherited (property : string)
  | PassNothing.

(** The own properties of [commandMap]. *)
Fixpoint ownEntry (name : string) (entries : list (string * string)) : option string :=
  match entries with
  | [] => None
  | (key, value) :: rest => if String.eqb name key then Some value else ownEntry name rest
  end.

(** The [for ... of Object.entries(commandMap)] loop: the value of the first
    key that occurs in the phrase. *)
Fixpoint firstPartial (command : string) (entries : list (string * string)) : option string :=
  match entries with
  | [] => None
  | (key, value) :: rest =>
      if includes key command then Some value else firstPartial command rest
  end.

(** The branch for phrases with "go", "move" or "walk". *)
Definition compound (command : string) : Passed :=
  if includes "left" command then PassCommand "go left"
  else if includes "right" command then PassCommand "go right"
  else if includes "forward" command || includes "ahead" command then PassCommand "go forward"
  else if includes "back" command || includes "backward" command then PassCommand "go back"
  else PassNothing.

Definition processVoiceCommand (command : string) : Passed :=
  match ownEntry command commandMap with
  | Some value => PassCommand value
  | None =>
      if existsb (String.eqb command) objectPrototype then PassInherited command
      else
        match firstPartial command commandMap with
        | Some value => PassCommand value
        | None =>
            if includes "go" command || includes "move" command || includes "walk" command
            then compound command
            else PassCommand command
        end
  end.

(** The [keydown] listener: the command of a key code, if the key has one. *)
Definition keyCommand (code : string) : option string :=
  if String.eqb code "KeyS" then Some "start game"
  else if String.eqb code "KeyM" then Some "toggle mode"
  else if String.eqb code "KeyV" then Some "toggle voice"
  else if String.eqb code "KeyR" then Some "reset game"
  else if String.eqb code "ArrowLeft" then Some "go left"
  else if String.eqb code "ArrowRight" then Some "go right"
  else if String.eqb code "ArrowUp" then Some "go forward"
  else if String.eqb code "ArrowDown" then Some "go back"
  else if String.eqb code "KeyH" then Some "help"
  else if String.eqb code "Space" then Some "look around"
  else None.

(** The keys whose default action the listener prevents. *)
Definition preventsDefault (code : string) : bool :=
  existsb (String.eqb code) ["ArrowLeft"; "ArrowRight"; "ArrowUp"; "ArrowDown"]
  || String.eqb code "Space".

(** The speech side: the text kept for [repeatLastSpeech], and the
    utterances handed to the synthesiser with their [interrupt] flag, most
    recent first. *)
Record Speech : Type := mkSpeech {
  lastSpeech : string;
  utterances : list (string * bool)
}.

Definition silent : Speech := mkSpeech "" [].

Definition speak (text : string) (interrupt : bool) (s : Speech) : Speech :=
  mkSpeech text ((text, interrupt) :: utterances s).

(** [if (this.lastSpeech)]: the empty string is falsy. *)
Definition repeatLastSpeech (s : Speech) : Speech :=
  match lastSpeech s with
  | EmptyString => s
  | text => speak text true s
  end.

End VoiceController.

(** * The audio manager ([AudioManager.tsx])

    [createDefaultSounds] fills the map [sounds] with six named sounds, and
    [playSound] plays a sound only if the map has its name. *)

Module AudioManager.

Definition defaultSounds : list string :=
  ["step"; "success"; "danger"; "pickup"; "echo"; "ambient"].

(** [this.sounds.get(name)] finds a sound. *)
Definition hasSound (name : string) : bool :=
  existsb (String.eqb name) defaultSounds.

End AudioManager.

(** * The page ([Index.tsx]) *)

(** [prev.slice(-n)]: the last [n] elements. *)
Definition sliceLast {A : Type} (n : nat) (array : list A) : list A :=
  drop (length array - n) array.

(** [addLog]: the log keeps its last nine lines and appends the new one,
    stamped with the time of day that the clock gives. *)
Definition addLog (time message : string) (prev : list string) : list string :=
  sliceLast 9 prev ++ [time +:+ ": " +:+ message].

(** The log after a series of stamped messages, oldest first, from the empty
    log of the first render. *)
Definition logAfter (entries : list (string * string)) : list string :=
  fold_left (fun logs entry => addLog entry.1 entry.2 logs) entries [].

(** * Vocabulary of the properties

    Relations between engine states, the branches of the dispatch, and the
    play-throughs that the statements below refer to. *)

(** A call that only talks to the collaborators. *)
Definition OnlyTrace (e e' : Engine) : Prop :=
  gameState e' = gameState e /\ environments e' = environments e
  /\ currentObjective e' = currentObjective e /\ lastCommand e' = lastCommand e
  /\ onVisualUpdate e' = onVisualUpdate e /\ timers e' = timers e.

(** [Progress e0 e]: from [e0] to [e] objectives were only removed, each
    removal paid 100, at most one level was completed and paid 500, and lives
    were only lost.  Mode, heading, environment and catalog are the same. *)
Record Progress (e0 e : Engine) : Prop := mkProgress {
  pg_mode : mode (gameState e) = mode (gameState e0);
  pg_direction : playerDirection (gameState e) = playerDirection (gameState e0);
  pg_environment : environment (gameState e) = environment (gameState e0);
  pg_environments : environments e = environments e0;
  pg_visual : onVisualUpdate e = onVisualUpdate e0;
  pg_lives : lives (gameState e) <= lives (gameState e0);
  pg_objectives : sublist (objectives (gameState e)) (objectives (gameState e0));
  pg_balance :
    score (gameState e) - score (gameState e0)
    = 100 * (Z.of_nat (length (objectives (gameState e0)))
             - Z.of_nat (length (objectives (gameState e))))
      + 500 * (currentLevel (gameState e) - currentLevel (gameState e0));
  pg_level :
    currentLevel (gameState e) = currentLevel (gameState e0)
    \/ (currentLevel (gameState e) = currentLevel (gameState e0) + 1
        /\ objectives (gameState e) = [] /\ objectives (gameState e0) <> [])
}.

(** The state of [interactWithObjective] after its [splice]. *)
Definition afterRemoval (o : Objective) (k : nat) (e : Engine) : Engine :=
  with_gameState (fun g => set_objectives (delete k (objectives g)) g)
    (with_gameState (fun g => set_score (score g + 100) g)
       (speak (foundMessage o) (playSound "success" 1 e))).

(** The state of [movePlayer] after its [switch], before the bound test. *)
Definition stepped (direction : string) (e : Engine) : Engine :=
  with_gameState (set_playerPosition (stepTo direction (playerPosition (gameState e)))) e.

(** [processCommand] first records and logs the command. *)
Definition received (command : string) (e : Engine) : Engine :=
  onLog ("Processing: " +:+ command) (set_lastCommand command e).

(** The direction a move command passes to [movePlayer]. *)
Definition directionOf (command : string) : option string :=
  if String.eqb command "go left" then Some "left"
  else if String.eqb command "go right" then Some "right"
  else if String.eqb command "go forward" then Some "forward"
  else if String.eqb command "go back" then Some "back"
  else None.

(** The branch [processCommand] takes, from the state [e] it has after
    [received]. *)
Inductive Dispatched (command : string) (e : Engine) : Completion * Engine -> Prop :=
  | dispatch_refused :
      isPlaying (gameState e) = false -> includes alwaysAllowed command = false ->
      Dispatched command e (Returned, speak startFirstMessage e)
  | dispatch_start :
      command = "start game" ->
      Dispatched command e (startGame (mode (gameState e)) e)
  | dispatch_move direction :
      isPlaying (gameState e) = true -> directionOf command = Some direction ->
      Dispatched command e (Returned, movePlayer direction e)
  | dispatch_look :
      isPlaying (gameState e) = true -> command = "look around" ->
      Dispatched command e (Returned, lookAround e)
  | dispatch_help :
      command = "help" -> Dispatched command e (Returned, provideHelp e)
  | dispatch_repeat :
      isPlaying (gameState e) = true -> command = "repeat" ->
      Dispatched command e (Returned, repeatLastSpeech e)
  | dispatch_toggle :
      command = "toggle mode" -> Dispatched command e (Returned, toggleMode e)
  | dispatch_reset :
      command = "reset game" -> Dispatched command e (Returned, resetGame e)
  | dispatch_stop :
      isPlaying (gameState e) = true -> command = "stop game" ->
      Dispatched command e (Returned, stopGame e)
  | dispatch_unknown :
      isPlaying (gameState e) = true -> includes vocabulary command = false ->
      Dispatched command e (Returned, handleUnknownCommand command e).

(** The calls [setupSpatialAudio] makes. *)
Definition isCreatePositionalSound (ev : Event) : Prop :=
  match ev with CreatePositionalSound _ _ => True | _ => False end.

(** The four assignments at the head of [startGame]. *)
Definition restarted (m : Mode) (g : GameState) : GameState :=
  set_playerDirection forwardHeading
    (set_playerPosition origin (set_isPlaying true (set_mode m g))).

(** A play-through that clears level 1 and leaves its transition pending:
    Adventure mode, three steps right and three forward reach (3, 3), one
    unit from the crystal. *)
Definition levelOneCleared : Engine :=
  run (commands ["toggle mode"; "start game"; "go right"; "go right"; "go right";
                 "go forward"; "go forward"; "go forward"])
      (new_GameEngine false).

(** Score, lives and level are the same in both states. *)
Definition SameCounters (e e' : Engine) : Prop :=
  score (gameState e') = score (gameState e)
  /\ lives (gameState e') = lives (gameState e)
  /\ currentLevel (gameState e') = currentLevel (gameState e).

(** The reset command and the Reset button. *)
Definition isReset (a : Action) : bool :=
  match a with
  | ResetButton => true
  | Command command => String.eqb command "reset game"
  | _ => false
  end.

(** A move command given while a session is playing. *)
Definition isMove (a : Action) (e : Engine) : Prop :=
  exists command direction,
    a = Command command /\ directionOf command = Some direction
    /\ isPlaying (gameState e) = true.

(** A run in which nothing resets the game. *)
Definition noReset (actions : list Action) : bool :=
  forallb (fun a => negb (isReset a)) actions.

(** After a penalty the session is stopped if no life is left, and the
    player is at the origin otherwise. *)
Definition Penalised (e : Engine) : Prop :=
  (lives (gameState e) <= 0 -> isPlaying (gameState e) = false)
  /\ (0 < lives (gameState e) -> playerPosition (gameState e) = origin).

(** The hazard is within the interaction distance of [p]. *)
Definition inRange (p : THREE.Vector3) (h : Hazard) : bool :=
  THREE.distanceTo_le p (hazard_position h) interactionDistance.

(** What the claims call the world: everything in the game state but the
    mode. *)
Definition world (g : GameState) :=
  (isPlaying g, score g, lives g, currentLevel g, playerPosition g, playerDirection g,
   environment g, objectives g, inventory g).

(** From the origin of level 1, the walk into the pit at (-2, 2). *)
Definition leftLeftForward : list string := ["go left"; "go left"; "go forward"].

(** Three walks into the pit of level 1 end the session with no life left. *)
Definition gameOverInForest : Engine :=
  run (commands (["toggle mode"; "start game"]
                 ++ leftLeftForward ++ leftLeftForward ++ leftLeftForward))
      (new_GameEngine false).

(** After that game over the game is started again, which leaves the lives
    at 0, and the player walks two steps towards the pit. *)
Definition restartedWithoutLives : Engine :=
  run (commands ["start game"; "go left"; "go left"]) gameOverInForest.

(** [p] does not exceed the half-extents of [env] on either axis. *)
Definition within (p : THREE.Vector3) (env : Environment) : Prop :=
  beyondHalfSize p (env_size env) = false.

(** Level 1 is cleared from (4, 3); one more step right, still in the forest
    (half-extent 5), puts the player at x = 5 before the transition fires. *)
Definition atForestEdge : Engine :=
  run (commands ["toggle mode"; "start game"; "go right"; "go right"; "go right"; "go right";
                 "go forward"; "go forward"; "go forward"; "go right"])
      (new_GameEngine false).

(** The objective is within the interaction distance of [p]. *)
Definition objectiveInRange (p : THREE.Vector3) (o : Objective) : bool :=
  THREE.distanceTo_le p (objective_position o) interactionDistance.

(** The objective list is a sublist of the objectives of the active
    environment. *)
Definition ObjectivesFromEnvironment (e : Engine) : Prop :=
  exists env,
    environment (gameState e) = Some env
    /\ sublist (objectives (gameState e)) (env_objectives env).

(** ** Vocabulary of the properties of whole runs

    What the collaborators have been told, read off the recorded calls, and
    the relations between states that the properties of runs refer to. *)

(** The calls of the engine other than the proximity cues, the placing of
    the listener, the snapshots handed to the page and the start and stop of
    the ambient loop; a [PlaySound] counts only if the audio manager has a
    sound of that name. *)
Definition narration (ev : Event) : bool :=
  match ev with
  | PlaySound name _ => AudioManager.hasSound name
  | PlayPositionalSound _ _ | SetListenerPosition _ _ _
  | StartBackgroundMusic | StopBackgroundMusic | StateChange _ | VisualUpdate _ => false
  | _ => true
  end.

(** Whether an action returns or ends in an exception. *)
Definition completion (a : Action) (e : Engine) : Completion :=
  match a with
  | Command command => fst (processCommand command e)
  | StartButton m => fst (startGame m e)
  | ResetButton => Returned
  | TimerFires => fst (fireTimer e)
  end.

(** Every action of the run completes in a way that [ok] accepts. *)
Fixpoint Completes (ok : Completion -> Prop) (actions : list Action) (e : Engine) : Prop :=
  match actions with
  | [] => True
  | a :: rest => ok (completion a e) /\ Completes ok rest (perform a e)
  end.

(** No action of the run ends in an exception. *)
Definition Returns : list Action -> Engine -> Prop := Completes (fun c => c = Returned).

(** A run in which no scheduled transition fires. *)
Definition noTimer (actions : list Action) : bool :=
  forallb (fun a => match a with TimerFires => false | _ => true end) actions.

(** The snapshot that [updateState] hands to [onStateChange]. *)
Definition statusOf (g : GameState) : StatusSnapshot :=
  mkStatus (mode g) (isPlaying g) (score g) (lives g) (currentLevel g).

(** The last snapshot that [onStateChange] received. *)
Fixpoint lastStatus (calls : list Event) : option StatusSnapshot :=
  match calls with
  | [] => None
  | StateChange state :: _ => Some state
  | _ :: earlier => lastStatus earlier
  end.

(** The page has been told the mode, phase, score, lives and level that the
    engine has; before the first snapshot, they are the ones both start
    with. *)
Definition StatusReported (e : Engine) : Prop :=
  match lastStatus (trace e) with
  | Some state => state = statusOf (gameState e)
  | None => statusOf (gameState e) = statusOf (initialGameState practice)
  end.

(** The snapshot that [updateVisualState] hands to [onVisualUpdate]. *)
Definition visualOf (g : GameState) : VisualSnapshot :=
  mkVisual (THREE.x (playerPosition g), THREE.z (playerPosition g))
           (environment g)
           (objectives g)
           (match environment g with
            | Some env => default [] (env_hazards env)
            | None => []
            end).

(** The last snapshot that [onVisualUpdate] received. *)
Fixpoint lastVisual (calls : list Event) : option VisualSnapshot :=
  match calls with
  | [] => None
  | VisualUpdate visualData :: _ => Some visualData
  | _ :: earlier => lastVisual earlier
  end.

(** The map of the page shows the position, environment, objectives and
    hazards that the engine has. *)
Definition VisualReported (e : Engine) : Prop :=
  onVisualUpdate e = true ->
  match lastVisual (trace e) with
  | Some visualData => visualData = visualOf (gameState e)
  | None => visualOf (gameState e) = visualOf (initialGameState practice)
  end.

(** Whether the last request about the ambient loop was to start it. *)
Fixpoint musicRequested (calls : list Event) : bool :=
  match calls with
  | [] => false
  | StartBackgroundMusic :: _ => true
  | StopBackgroundMusic :: _ => false
  | _ :: earlier => musicRequested earlier
  end.

(** The ambient loop is requested exactly while a session is playing. *)
Definition MusicFollowsSession (e : Engine) : Prop :=
  musicRequested (trace e) = isPlaying (gameState e).

(** Neither an objective of the list nor a hazard of the active environment
    is within the interaction distance of [p]. *)
Definition quietAt (p : THREE.Vector3) (g : GameState) : bool :=
  forallb (fun o => negb (objectiveInRange p o)) (objectives g)
  && match environment g with
     | Some env => forallb (fun h => negb (inRange p h)) (default [] (env_hazards env))
     | None => true
     end.

(** The move command that undoes a move command. *)
Definition opposite (command : string) : string :=
  if String.eqb command "go left" then "go right"
  else if String.eqb command "go right" then "go left"
  else if String.eqb command "go forward" then "go back"
  else if String.eqb command "go back" then "go forward"
  else command.

(** The commands that can change the game state. *)
Definition changingCommands : list string :=
  ["start game"; "go left"; "go right"; "go forward"; "go back";
   "toggle mode"; "reset game"; "stop game"].

(** Both levels played through: level 1 cleared from (3, 3), the transition
    to the caves fired, and the exit at (0, 6) reached from (0, 5). *)
Definition bothLevelsCleared : Engine :=
  run (commands ["go left"; "go left"; "go left"; "go forward"; "go forward"])
      (perform TimerFires levelOneCleared).

(** Every [playSound] of the engine since [before] names a sound that the
    audio manager has. *)
Definition SoundsExist (before : list Event) (e : Engine) : Prop :=
  forall name volume,
    In (PlaySound name volume) (trace e) ->
    In (PlaySound name volume) before \/ AudioManager.hasSound name = true.

(** The game state, the catalog, the current objective and the pending
    transitions are the same in both states. *)
Definition SameGame (e e' : Engine) : Prop :=
  gameState e' = gameState e /\ environments e' = environments e
  /\ currentObjective e' = currentObjective e /\ timers e' = timers e.

(** The catalog of the engine. *)
Definition CatalogIs (catalog : list Environment) (e : Engine) : Prop :=
  environments e = catalog.

(** The engine has made calls since [before]. *)
Definition Extends (before : list Event) (e : Engine) : Prop :=
  exists events, trace e = events ++ before.

(** The engine has spoken since [before]. *)
Definition Answered (before : list Event) (e : Engine) : Prop :=
  exists events text, trace e = events ++ before /\ In (Speak text) events.

(** [positionalSounds.has(name)] after the recorded calls: the audio
    manager never removes a positional sound. *)
Fixpoint created (name : string) (calls : list Event) : bool :=
  match calls with
  | [] => false
  | CreatePositionalSound n _ :: earlier => String.eqb n name || created name earlier
  | _ :: earlier => created name earlier
  end.

(** Every [playPositionalSound] named a sound that had been created by
    then. *)
Fixpoint cuesExist (calls : list Event) : bool :=
  match calls with
  | [] => true
  | PlayPositionalSound n _ :: earlier => created n earlier && cuesExist earlier
  | _ :: earlier => cuesExist earlier
  end.

Definition isCue (ev : Event) : bool :=
  match ev with PlayPositionalSound _ _ => true | _ => false end.

(** No proximity cue has been dropped, and the audio manager has a
    positional sound for every index of the objective list and of the hazard
    list of the active environment. *)
Definition CuesReady (e : Engine) : Prop :=
  cuesExist (trace e) = true
  /\ (forall k, (k < length (objectives (gameState e)))%nat ->
                created ("objective_" +:+ pretty k) (trace e) = true)
  /\ (forall env hs k,
         environment (gameState e) = Some env -> env_hazards env = Some hs ->
         (k < length hs)%nat ->
         created ("hazard_" +:+ pretty k) (trace e) = true).

(** The player faces the default heading. *)
Definition FacesForward (e : Engine) : Prop :=
  playerDirection (gameState e) = forwardHeading.

(** A call that places the listener gives it the default heading and the
    vertical as its up vector. *)
Definition listenerForward (ev : Event) : Prop :=
  match ev with
  | SetListenerPosition _ forward up => forward = forwardHeading /\ up = upVector
  | _ => True
  end.

(** Every placing of the listener so far had the default heading. *)
Definition ListenerForward (e : Engine) : Prop := Forall listenerForward (trace e).

(** The player faces the default heading, and so did the listener whenever
    it was placed. *)
Definition HeadingKept (e : Engine) : Prop := FacesForward e /\ ListenerForward e.

(** At least [n] scheduled transitions are pending. *)
Definition StillPending (n : nat) (e : Engine) : Prop := (n <= timers e)%nat.




(** The mode that is not [m]. *)
Definition otherMode (m : Mode) : Mode :=
  match m with practice => adventure | adventure => practice end.

(** * Properties *)

(** The narration texts are kept folded in the proofs. *)
Arguments gameOverMessage : simpl never.
Arguments gameWonMessage : simpl never.
Arguments levelCompletedMessage : simpl never.
Arguments foundMessage : simpl never.
Arguments hazardMessage : simpl never.
Arguments livesRemainingMessage : simpl never.
Arguments adventureWelcomeMessage : simpl never.
Arguments unknownMessage : simpl never.
Arguments helpMessage : simpl never.
Arguments getMovementFeedback : simpl never.
Arguments String.append : simpl never.
Arguments pretty : simpl never.

(** ** Loops *)

Section Iteration.

Variable P : Engine -> Prop.

Lemma forEachObjective_invariant callback :
  (forall o k e, P e -> objectives (gameState e) !! k = Some o -> P (callback o k e)) ->
  forall n k e, P e -> P (forEachObjective callback n k e).
Proof.
  intros Hcb n. induction n as [|n IH]; intros k e He; simpl; [exact He|].
  apply IH. destruct (objectives (gameState e) !! k) eqn:Hk; eauto.
Qed.

Lemma forEach_invariant {A : Type} (callback : A -> nat -> Engine -> Engine) :
  (forall a k e, P e -> P (callback a k e)) ->
  forall l k e, P e -> P (forEach callback l k e).
Proof.
  intros Hcb l. induction l as [|a l IH]; intros k e He; simpl; auto.
Qed.

End Iteration.

Lemma OnlyTrace_refl e : OnlyTrace e e.
Proof. repeat split. Qed.

Lemma OnlyTrace_trans e1 e2 e3 : OnlyTrace e1 e2 -> OnlyTrace e2 e3 -> OnlyTrace e1 e3.
Proof. unfold OnlyTrace. intuition congruence. Qed.

Lemma OnlyTrace_emit ev e : OnlyTrace e (emit ev e).
Proof. repeat split. Qed.

Lemma OnlyTrace_updateVisualState e : OnlyTrace e (updateVisualState e).
Proof. unfold updateVisualState. destruct (onVisualUpdate e); repeat split. Qed.

Lemma OnlyTrace_finish_start e :
  OnlyTrace e (startBackgroundMusic (updateVisualState (updateState e))).
Proof.
  eapply OnlyTrace_trans; [|apply OnlyTrace_emit].
  eapply OnlyTrace_trans; [|apply OnlyTrace_updateVisualState].
  apply OnlyTrace_emit.
Qed.

Lemma OnlyTrace_setupSpatialAudio e : OnlyTrace e (setupSpatialAudio e).
Proof.
  unfold setupSpatialAudio. destruct (environment (gameState e)) as [env|]; [|apply OnlyTrace_refl].
  assert (H : forall {A} (f : A -> nat -> string * THREE.Vector3) l k e0,
             OnlyTrace e e0 ->
             OnlyTrace e (forEach (fun a i => createPositionalSound (f a i).1 (f a i).2) l k e0)).
  { intros A f l k e0 H0. apply (forEach_invariant (OnlyTrace e)); [|exact H0].
    intros a i e1 H1. eapply OnlyTrace_trans; [exact H1|apply OnlyTrace_emit]. }
  destruct (env_hazards env) as [hs|].
  - apply (H _ (fun h i => ("hazard_" +:+ pretty i, hazard_position h))).
    apply (H _ (fun o i => ("objective_" +:+ pretty i, objective_position o))).
    apply OnlyTrace_refl.
  - apply (H _ (fun o i => ("objective_" +:+ pretty i, objective_position o))).
    apply OnlyTrace_refl.
Qed.

(** ** What a move can change *)

Lemma Progress_refl e : Progress e e.
Proof. constructor; first [reflexivity | lia]. Qed.

Lemma Progress_trans e1 e2 e3 : Progress e1 e2 -> Progress e2 e3 -> Progress e1 e3.
Proof.
  intros [] []. constructor; try congruence; try lia.
  - etransitivity; eassumption.
  - destruct pg_level0 as [H0|(H0 & H0' & H0'')], pg_level1 as [H1|(H1 & H1' & H1'')].
    + left; congruence.
    + right. repeat split; [congruence|assumption|].
      intros Hnil. rewrite Hnil in pg_objectives0.
      apply sublist_nil_r in pg_objectives0. contradiction.
    + right. repeat split; [congruence| |assumption].
      rewrite H0' in pg_objectives1. apply sublist_nil_r in pg_objectives1. assumption.
    + contradiction.
Qed.

Lemma Progress_OnlyTrace e e' : OnlyTrace e e' -> Progress e e'.
Proof.
  intros (Hg & He & _ & _ & Hv & _).
  constructor; rewrite ?Hg; first [assumption | reflexivity | lia].
Qed.

Lemma Progress_emit ev e : Progress e (emit ev e).
Proof. apply Progress_OnlyTrace, OnlyTrace_emit. Qed.

Lemma Progress_completeLevel e :
  objectives (gameState e) = [] ->
  currentLevel (gameState (completeLevel e)) = currentLevel (gameState e) + 1
  /\ score (gameState (completeLevel e)) = score (gameState e) + 500
  /\ objectives (gameState (completeLevel e)) = []
  /\ mode (gameState (completeLevel e)) = mode (gameState e)
  /\ playerDirection (gameState (completeLevel e)) = playerDirection (gameState e)
  /\ playerPosition (gameState (completeLevel e)) = playerPosition (gameState e)
  /\ environment (gameState (completeLevel e)) = environment (gameState e)
  /\ lives (gameState (completeLevel e)) = lives (gameState e)
  /\ environments (completeLevel e) = environments e
  /\ onVisualUpdate (completeLevel e) = onVisualUpdate e.
Proof.
  intros Hnil. unfold completeLevel. simpl.
  destruct (currentLevel (gameState e) + 1 <=? Z.of_nat (length (environments e)));
    simpl; repeat split; assumption.
Qed.

Arguments completeLevel : simpl never.

Lemma interactWithObjective_eq o k e :
  interactWithObjective o k e
  = updateState
      (onLog ("Found: " +:+ objective_description o)
         (if Nat.eqb (length (delete k (objectives (gameState e)))) 0
          then completeLevel (afterRemoval o k e)
          else set_currentObjective (delete k (objectives (gameState e)) !! 0%nat)
                                    (afterRemoval o k e))).
Proof. reflexivity. Qed.

Lemma gameState_logged m e : gameState (updateState (onLog m e)) = gameState e.
Proof. reflexivity. Qed.

Lemma logged_fields m e :
  gameState (updateState (onLog m e)) = gameState e
  /\ environments (updateState (onLog m e)) = environments e
  /\ onVisualUpdate (updateState (onLog m e)) = onVisualUpdate e.
Proof. repeat split. Qed.

Lemma gameState_afterRemoval o k e :
  gameState (afterRemoval o k e)
  = set_objectives (delete k (objectives (gameState e)))
      (set_score (score (gameState e) + 100) (gameState e)).
Proof. reflexivity. Qed.

Lemma interactWithObjective_removes_one o k e :
  objectives (gameState e) !! k = Some o ->
  objectives (gameState (interactWithObjective o k e)) = delete k (objectives (gameState e))
  /\ length (objectives (gameState (interactWithObjective o k e)))
     = (length (objectives (gameState e)) - 1)%nat.
Proof.
  intros Hk.
  assert (Hdel : objectives (gameState (interactWithObjective o k e))
                 = delete k (objectives (gameState e))).
  { rewrite interactWithObjective_eq, gameState_logged.
    destruct (Nat.eqb_spec (length (delete k (objectives (gameState e)))) 0) as [H0|H0].
    - apply nil_length_inv in H0 as Hnil.
      destruct (Progress_completeLevel (afterRemoval o k e)) as (_ & _ & Ho & _);
        [rewrite gameState_afterRemoval; exact Hnil|].
      rewrite Ho, Hnil. reflexivity.
    - reflexivity. }
  split; [exact Hdel|]. rewrite Hdel. apply length_delete. eauto.
Qed.

Lemma Progress_interactWithObjective o k e :
  objectives (gameState e) !! k = Some o ->
  Progress e (interactWithObjective o k e)
  /\ playerPosition (gameState (interactWithObjective o k e)) = playerPosition (gameState e)
  /\ lives (gameState (interactWithObjective o k e)) = lives (gameState e).
Proof.
  intros Hk.
  destruct (interactWithObjective_removes_one o k e Hk) as (Hdel & Hlen).
  assert (Hpos : (0 < length (objectives (gameState e)))%nat)
    by (apply lookup_lt_Some in Hk; lia).
  assert (Hne : objectives (gameState e) <> [])
    by (intros Hnil; rewrite Hnil in Hpos; simpl in Hpos; lia).
  assert (Hrest :
    let g := gameState e in
    let g' := gameState (interactWithObjective o k e) in
    mode g' = mode g /\ playerDirection g' = playerDirection g
    /\ playerPosition g' = playerPosition g /\ environment g' = environment g
    /\ lives g' = lives g
    /\ environments (interactWithObjective o k e) = environments e
    /\ onVisualUpdate (interactWithObjective o k e) = onVisualUpdate e
    /\ ((delete k (objectives g) <> []
         /\ score g' = score g + 100 /\ currentLevel g' = currentLevel g)
        \/ (delete k (objectives g) = []
            /\ score g' = score g + 600 /\ currentLevel g' = currentLevel g + 1))).
  { cbv zeta. rewrite interactWithObjective_eq.
    match goal with
    | |- context [updateState (onLog ?m ?x)] =>
        destruct (logged_fields m x) as (Eg & Ee & Ev); rewrite Eg, Ee, Ev; clear Eg Ee Ev
    end.
    destruct (Nat.eqb_spec (length (delete k (objectives (gameState e)))) 0) as [H0|H0].
    - apply nil_length_inv in H0 as Hnil.
      destruct (Progress_completeLevel (afterRemoval o k e))
        as (Hl & Hs & _ & Hm & Hd & Hp & Hv & Hli & Hes & Hvi);
        [rewrite gameState_afterRemoval; exact Hnil|].
      rewrite gameState_afterRemoval in Hl, Hs, Hm, Hd, Hp, Hv, Hli.
      rewrite Hl, Hs, Hm, Hd, Hp, Hv, Hli, Hes, Hvi.
      repeat split. right. repeat split; [exact Hnil|cbn; lia].
    - repeat split. left. repeat split.
      intros Hnil. rewrite Hnil in H0. apply H0. reflexivity. }
  cbv zeta in Hrest.
  destruct Hrest as (Hm & Hd & Hp & Hv & Hli & Hes & Hvi & Hcount).
  split; [|split; assumption].
  constructor; try assumption.
  - lia.
  - rewrite Hdel. apply sublist_delete.
  - rewrite Hlen. destruct Hcount as [(_ & Hs & Hl)|(Hnil & Hs & Hl)]; rewrite Hs, Hl; [lia|].
    rewrite Hdel, Hnil in Hlen. cbn [length] in Hlen. lia.
  - destruct Hcount as [(_ & _ & Hl)|(Hnil & _ & Hl)]; [left; exact Hl|].
    right. rewrite Hdel. repeat split; assumption.
Qed.

Lemma Progress_interactWithHazard h e :
  Progress e (interactWithHazard h e).
Proof.
  unfold interactWithHazard. simpl.
  destruct (lives (gameState e) - 1 <=? 0); simpl;
    (constructor; simpl; first [reflexivity | lia]).
Qed.

Lemma Progress_checkObjective o k e :
  objectives (gameState e) !! k = Some o ->
  Progress e (checkObjective o k e)
  /\ playerPosition (gameState (checkObjective o k e)) = playerPosition (gameState e)
  /\ lives (gameState (checkObjective o k e)) = lives (gameState e).
Proof.
  intros Hk. unfold checkObjective.
  destruct (THREE.distanceTo_le _ _ interactionDistance).
  - destruct (Progress_interactWithObjective o k e Hk) as (H1 & H2 & H3). auto.
  - destruct (THREE.distanceTo_le _ _ 3);
      (split; [|split]); try reflexivity; [apply Progress_emit|apply Progress_refl].
Qed.

Lemma Progress_checkHazard h k e : Progress e (checkHazard h k e).
Proof.
  unfold checkHazard.
  destruct (THREE.distanceTo_le _ _ interactionDistance);
    [apply Progress_interactWithHazard|].
  destruct (THREE.distanceTo_le _ _ 2); [apply Progress_emit|apply Progress_refl].
Qed.

(** The pass over the objectives moves nobody and costs no life. *)
Lemma objectives_pass e0 n k :
  let e := forEachObjective checkObjective n k e0 in
  Progress e0 e
  /\ playerPosition (gameState e) = playerPosition (gameState e0)
  /\ lives (gameState e) = lives (gameState e0).
Proof.
  apply (forEachObjective_invariant
           (fun e => Progress e0 e
                     /\ playerPosition (gameState e) = playerPosition (gameState e0)
                     /\ lives (gameState e) = lives (gameState e0))).
  - intros o i e (Hp & Hpos & Hl) Hi.
    destruct (Progress_checkObjective o i e Hi) as (Hp' & Hpos' & Hl').
    split; [|split]; [eapply Progress_trans; eassumption|congruence|congruence].
  - split; [|split]; [apply Progress_refl|reflexivity|reflexivity].
Qed.

Lemma hazards_pass e0 hs k : Progress e0 (forEach checkHazard hs k e0).
Proof.
  apply (forEach_invariant (Progress e0)); [|apply Progress_refl].
  intros h i e Hp. eapply Progress_trans; [exact Hp|apply Progress_checkHazard].
Qed.

Lemma Progress_checkForInteractions e : Progress e (checkForInteractions e).
Proof.
  unfold checkForInteractions.
  destruct (objectives_pass e (length (objectives (gameState e))) 0) as (Hp & _).
  set (e1 := forEachObjective _ _ _ _) in *.
  destruct (environment (gameState e1)) as [env|]; [|exact Hp].
  destruct (env_hazards env) as [hs|]; [|exact Hp].
  eapply Progress_trans; [exact Hp|apply hazards_pass].
Qed.

(** ** Moves *)

Lemma set_playerPosition_back g p :
  set_playerPosition (playerPosition g) (set_playerPosition p g) = g.
Proof. destruct g; reflexivity. Qed.

Lemma movePlayer_notPlaying direction e :
  isPlaying (gameState e) = false -> movePlayer direction e = e.
Proof. intros H. unfold movePlayer. rewrite H. reflexivity. Qed.

Lemma movePlayer_rejected direction e :
  isPlaying (gameState e) = true ->
  hitsBoundary (stepped direction e) = true ->
  gameState (movePlayer direction e) = gameState e
  /\ trace (movePlayer direction e)
     = PlaySound "danger" 0.5 :: Speak edgeMessage :: trace e
  /\ OnlyTrace e (movePlayer direction e).
Proof.
  intros Hplay Hhit. unfold movePlayer. rewrite Hplay. simpl.
  fold (stepped direction e). rewrite Hhit.
  unfold playSound, speak, stepped, OnlyTrace. simpl.
  rewrite set_playerPosition_back. repeat split.
Qed.

Lemma movePlayer_accepted direction e :
  isPlaying (gameState e) = true ->
  hitsBoundary (stepped direction e) = false ->
  exists e',
    OnlyTrace (checkForInteractions
                 (setListenerPosition (playerPosition (gameState (stepped direction e)))
                    (playerDirection (gameState e)) upVector
                    (playSound "step" 0.7 (stepped direction e)))) e'
    /\ movePlayer direction e = e'.
Proof.
  intros Hplay Hhit. unfold movePlayer. rewrite Hplay. simpl.
  fold (stepped direction e). rewrite Hhit.
  eexists. split; [|reflexivity].
  set (e1 := checkForInteractions _).
  eapply OnlyTrace_trans; [|apply OnlyTrace_updateVisualState].
  eapply OnlyTrace_trans; [|apply OnlyTrace_emit].
  destruct (getMovementFeedback direction e1); [apply OnlyTrace_refl|apply OnlyTrace_emit].
Qed.

(** A move never changes the state in a way [Progress] excludes; the
    position is left out of [Progress] and is the one thing [stepped]
    changes. *)
Lemma Progress_stepped direction e : Progress e (stepped direction e).
Proof. constructor; simpl; first [reflexivity | lia]. Qed.

Lemma Progress_movePlayer direction e : Progress e (movePlayer direction e).
Proof.
  destruct (isPlaying (gameState e)) eqn:Hplay;
    [|rewrite movePlayer_notPlaying by assumption; apply Progress_refl].
  destruct (hitsBoundary (stepped direction e)) eqn:Hhit.
  - apply Progress_OnlyTrace. apply movePlayer_rejected; assumption.
  - destruct (movePlayer_accepted direction e Hplay Hhit) as (e' & Htr & ->).
    eapply Progress_trans; [|apply Progress_OnlyTrace; exact Htr].
    eapply Progress_trans; [|apply Progress_checkForInteractions].
    eapply Progress_trans; [apply Progress_stepped|].
    eapply Progress_trans; apply Progress_emit.
Qed.

(** ** Dispatch *)

Lemma processCommand_dispatched command e :
  Dispatched command (received command e) (processCommand command e).
Proof.
  unfold processCommand. fold (received command e).
  set (e0 := received command e).
  destruct (isPlaying (gameState e0)) eqn:Hplay.
  - simpl. destruct (String.eqb_spec command "start game") as [->|H1]; [now apply (dispatch_start _ e0)|].
    destruct (String.eqb_spec command "go left") as [->|H2]; [now apply (dispatch_move _ e0)|].
    destruct (String.eqb_spec command "go right") as [->|H3]; [now apply (dispatch_move _ e0)|].
    destruct (String.eqb_spec command "go forward") as [->|H4]; [now apply (dispatch_move _ e0)|].
    destruct (String.eqb_spec command "go back") as [->|H5]; [now apply (dispatch_move _ e0)|].
    destruct (String.eqb_spec command "look around") as [->|H6]; [now apply (dispatch_look _ e0)|].
    destruct (String.eqb_spec command "help") as [->|H7]; [now apply (dispatch_help _ e0)|].
    destruct (String.eqb_spec command "repeat") as [->|H8]; [now apply (dispatch_repeat _ e0)|].
    destruct (String.eqb_spec command "toggle mode") as [->|H9]; [now apply (dispatch_toggle _ e0)|].
    destruct (String.eqb_spec command "reset game") as [->|H10]; [now apply (dispatch_reset _ e0)|].
    destruct (String.eqb_spec command "stop game") as [->|H11]; [now apply (dispatch_stop _ e0)|].
    apply (dispatch_unknown _ e0); [assumption|].
    unfold includes, vocabulary. simpl.
    repeat match goal with
           | H : command <> ?s |- _ =>
               apply String.eqb_neq in H; rewrite H; clear H
           end.
    reflexivity.
  - cbv beta iota delta [negb andb].
    destruct (includes alwaysAllowed command) eqn:Hin.
    + unfold includes, alwaysAllowed in Hin. simpl in Hin.
      destruct (String.eqb_spec command "start game") as [->|H1]; [now apply (dispatch_start _ e0)|].
      destruct (String.eqb_spec command "help") as [->|H2]; [now apply (dispatch_help _ e0)|].
      destruct (String.eqb_spec command "toggle mode") as [->|H3]; [now apply (dispatch_toggle _ e0)|].
      destruct (String.eqb_spec command "reset game") as [->|H4]; [now apply (dispatch_reset _ e0)|].
      discriminate.
    + now apply (dispatch_refused _ e0).
Qed.

(** ** Starting a level *)

Lemma forEach_create_trace {A : Type} (name : A -> nat -> string)
    (position : A -> THREE.Vector3) l k e :
  exists sounds,
    trace (forEach (fun a i => createPositionalSound (name a i) (position a)) l k e)
    = sounds ++ trace e
    /\ Forall isCreatePositionalSound sounds.
Proof.
  revert k e. induction l as [|a l IH]; intros k e; simpl.
  - exists []. split; [reflexivity|constructor].
  - destruct (IH (S k) (createPositionalSound (name a k) (position a) e)) as (sounds & Ht & Hs).
    exists (sounds ++ [CreatePositionalSound (name a k) (position a)]). split.
    + rewrite Ht. simpl. rewrite <- app_assoc. reflexivity.
    + apply Forall_app. split; [assumption|]. repeat constructor.
Qed.

Lemma setupSpatialAudio_trace e :
  exists sounds,
    trace (setupSpatialAudio e) = sounds ++ trace e /\ Forall isCreatePositionalSound sounds.
Proof.
  unfold setupSpatialAudio.
  destruct (environment (gameState e)) as [env|]; [|exists []; split; [reflexivity|constructor]].
  destruct (forEach_create_trace (fun _ i => "objective_" +:+ pretty i) objective_position
              (objectives (gameState e)) 0%nat e) as (s1 & H1 & F1).
  destruct (env_hazards env) as [hs|]; [|exists s1; split; assumption].
  match goal with
  | |- context [forEach ?f hs 0%nat ?e1] =>
      destruct (forEach_create_trace (fun _ i => "hazard_" +:+ pretty i) hazard_position
                  hs 0%nat e1) as (s2 & H2 & F2)
  end.
  exists (s2 ++ s1). split.
  - rewrite H2, H1, app_assoc. reflexivity.
  - apply Forall_app. split; assumption.
Qed.

(** With a catalog entry for the current level that lists an objective,
    [startAdventureMode] returns: the entry becomes the environment, its
    objectives are copied, the welcome is spoken, and nothing else of the
    state changes. *)
Lemma startAdventureMode_returns e env objective :
  at_index (environments e) (currentLevel (gameState e) - 1) = Some env ->
  env_objectives env !! 0%nat = Some objective ->
  exists e' sounds,
    startAdventureMode e = (Returned, e')
    /\ gameState e' = set_objectives (env_objectives env)
                        (set_environment (Some env) (gameState e))
    /\ currentObjective e' = Some objective
    /\ environments e' = environments e
    /\ lastCommand e' = lastCommand e
    /\ onVisualUpdate e' = onVisualUpdate e
    /\ timers e' = timers e
    /\ trace e' = sounds ++ Log ("Started Adventure Mode - " +:+ env_name env)
                    :: Speak (adventureWelcomeMessage env objective) :: trace e
    /\ Forall isCreatePositionalSound sounds.
Proof.
  intros Henv Hobj. unfold startAdventureMode. rewrite Henv. simpl. rewrite Hobj.
  set (e1 := onLog _ _).
  destruct (setupSpatialAudio_trace e1) as (sounds & Ht & Hs).
  destruct (OnlyTrace_setupSpatialAudio e1) as (Hg & He & Hc & Hl & Hv & Hti).
  exists (setupSpatialAudio e1), sounds.
  repeat split; try assumption; rewrite ?Hg, ?He, ?Hc, ?Hl, ?Hv, ?Hti; reflexivity.
Qed.

(** Without an entry, or with an entry that lists no objective, it throws. *)
Lemma startAdventureMode_throws e :
  at_index (environments e) (currentLevel (gameState e) - 1) = None ->
  startAdventureMode e = (Threw, with_gameState (set_environment None) e).
Proof. intros H. unfold startAdventureMode. rewrite H. reflexivity. Qed.

(** In every case it leaves score, lives, level, position, heading, mode and
    [isPlaying] alone. *)
Lemma startAdventureMode_keeps e :
  let g := gameState e in
  let g' := gameState (snd (startAdventureMode e)) in
  mode g' = mode g /\ isPlaying g' = isPlaying g /\ score g' = score g
  /\ lives g' = lives g /\ currentLevel g' = currentLevel g
  /\ playerPosition g' = playerPosition g /\ playerDirection g' = playerDirection g
  /\ environments (snd (startAdventureMode e)) = environments e.
Proof.
  unfold startAdventureMode.
  destruct (at_index (environments e) (currentLevel (gameState e) - 1)) as [env|];
    simpl; [|repeat split].
  destruct (env_objectives env !! 0%nat) as [objective|]; simpl; [|repeat split].
  set (e1 := onLog _ _).
  destruct (OnlyTrace_setupSpatialAudio e1) as (Hg & He & _).
  rewrite Hg, He. repeat split.
Qed.

Lemma resetGame_state e :
  gameState (resetGame e) = initialGameState (mode (gameState e))
  /\ environments (resetGame e) = environments e
  /\ timers (resetGame e) = timers e.
Proof.
  unfold resetGame. simpl.
  destruct (OnlyTrace_updateVisualState
              (updateState (onLog "Game reset" (speak resetMessage
                 (stopBackgroundMusic
                    (set_gameState (initialGameState (mode (gameState e))) e))))))
    as (Hg & He & _ & _ & _ & Ht).
  rewrite Hg, He, Ht. repeat split.
Qed.

Lemma startGame_practice e :
  exists e' events,
    startGame practice e = (Returned, e')
    /\ gameState e' = set_environment (Some practiceRoom) (restarted practice (gameState e))
    /\ environments e' = environments e
    /\ timers e' = timers e
    /\ trace e' = StartBackgroundMusic :: events ++ trace e.
Proof.
  unfold startGame, startPracticeMode.
  set (e0 := with_gameState _ (onLog _ (speak _ _))).
  exists (startBackgroundMusic (updateVisualState (updateState e0))).
  destruct (OnlyTrace_updateVisualState (updateState e0)) as (Hg & He & _ & _ & _ & Ht).
  assert (Htr : exists evs, trace (updateVisualState (updateState e0))
                            = evs ++ [Log "Started Practice Mode"; Speak practiceWelcomeMessage]
                                  ++ trace e).
  { unfold updateVisualState. destruct (onVisualUpdate (updateState e0)).
    - eexists [_; _]. reflexivity.
    - eexists [_]. reflexivity. }
  destruct Htr as (evs & Htr).
  exists (evs ++ [Log "Started Practice Mode"; Speak practiceWelcomeMessage]).
  split; [reflexivity|]. cbn [startBackgroundMusic emit gameState environments timers trace].
  rewrite Hg, He, Ht, Htr, <- app_assoc. repeat split.
Qed.

Lemma startGame_adventure e env objective :
  at_index (environments e) (currentLevel (gameState e) - 1) = Some env ->
  env_objectives env !! 0%nat = Some objective ->
  exists e' events,
    startGame adventure e = (Returned, e')
    /\ gameState e' = set_objectives (env_objectives env)
                        (set_environment (Some env) (restarted adventure (gameState e)))
    /\ environments e' = environments e
    /\ timers e' = timers e
    /\ trace e' = StartBackgroundMusic :: events ++ trace e.
Proof.
  intros Henv Hobj. unfold startGame.
  set (e0 := with_gameState _ (with_gameState _ (with_gameState _ (with_gameState _ e)))).
  destruct (startAdventureMode_returns e0 env objective Henv Hobj)
    as (e1 & sounds & -> & Hg1 & _ & He1 & _ & _ & Ht1 & Htr1 & _).
  exists (startBackgroundMusic (updateVisualState (updateState e1))).
  destruct (OnlyTrace_updateVisualState (updateState e1)) as (Hg & He & _ & _ & _ & Ht).
  assert (Htr : exists evs, trace (updateVisualState (updateState e1)) = evs ++ trace e1).
  { unfold updateVisualState. destruct (onVisualUpdate (updateState e1)).
    - eexists [_; _]. reflexivity.
    - eexists [_]. reflexivity. }
  destruct Htr as (evs & Htr).
  exists (evs ++ sounds ++ [Log ("Started Adventure Mode - " +:+ env_name env);
                            Speak (adventureWelcomeMessage env objective)]).
  split; [reflexivity|]. cbn [startBackgroundMusic emit gameState environments timers trace].
  rewrite Hg, He, Ht, Htr, Htr1. cbn [updateState emit gameState environments timers trace].
  rewrite Hg1, He1, Ht1, <- !app_assoc. repeat split.
Qed.

(** ** Restarting while playing *)

Lemma processCommand_start_playing e :
  isPlaying (gameState e) = true ->
  processCommand "start game" e
  = startGame (mode (gameState e)) (received "start game" e).
Proof.
  intros Hplay. unfold processCommand. fold (received "start game" e).
  change (isPlaying (gameState (received "start game" e))) with (isPlaying (gameState e)).
  rewrite Hplay. reflexivity.
Qed.

(** Whatever the mode and whether or not [startAdventureMode] throws,
    [startGame] leaves a playing session at the origin with the default
    heading and with the score, lives and level it found. *)
Lemma startGame_restarts m e :
  let g := gameState e in
  let g' := gameState (snd (startGame m e)) in
  mode g' = m /\ isPlaying g' = true
  /\ playerPosition g' = origin /\ playerDirection g' = forwardHeading
  /\ score g' = score g /\ lives g' = lives g /\ currentLevel g' = currentLevel g.
Proof.
  cbv zeta. destruct m.
  - destruct (startGame_practice e) as (e' & events & -> & Hg & _).
    cbn [snd]. rewrite Hg. repeat split.
  - unfold startGame.
    set (e0 := with_gameState _ (with_gameState _ (with_gameState _ (with_gameState _ e)))).
    pose proof (startAdventureMode_keeps e0) as Hk. cbv zeta in Hk.
    destruct Hk as (Hm & Hp & Hs & Hl & Hc & Hpos & Hdir & _).
    destruct (startAdventureMode e0) as [[|] e1]; cbn [snd] in *.
    + destruct (OnlyTrace_finish_start e1) as (Hg & _).
      rewrite Hg, Hm, Hp, Hs, Hl, Hc, Hpos, Hdir. repeat split.
    + rewrite Hm, Hp, Hs, Hl, Hc, Hpos, Hdir. repeat split.
Qed.

(** Without a catalog entry for the current level (the level after the last
    one, once the game is won) the Adventure start throws before anything is
    announced. *)
Lemma startGame_adventure_throws e :
  at_index (environments e) (currentLevel (gameState e) - 1) = None ->
  fst (startGame adventure e) = Threw
  /\ environment (gameState (snd (startGame adventure e))) = None
  /\ objectives (gameState (snd (startGame adventure e))) = objectives (gameState e)
  /\ trace (snd (startGame adventure e)) = trace e.
Proof.
  intros Hnone. unfold startGame.
  set (e0 := with_gameState _ (with_gameState _ (with_gameState _ (with_gameState _ e)))).
  rewrite (startAdventureMode_throws e0 Hnone). repeat split.
Qed.

(** C10.  The start command given while a session is playing is not
    refused: it is dispatched to [startGame] with the mode of the session.
    The level restarts in place: the session is still playing, the player is
    back at the origin with the default heading, and score, lives, level and
    mode are as before.  In Practice mode the call returns, the practice
    room is set and the objective list is not touched.  In Adventure mode,
    when the catalog has an entry for the current level and the entry lists
    an objective, the call returns with that entry as environment and its
    objectives copied anew.  In both modes the start sequence then runs to
    its last call, the start of the background music. *)
Theorem C10_start_game_while_playing e env objective :
  isPlaying (gameState e) = true ->
  let g := gameState e in
  let e' := snd (processCommand "start game" e) in
  let g' := gameState e' in
  processCommand "start game" e = startGame (mode g) (received "start game" e)
  /\ isPlaying g' = true
  /\ playerPosition g' = origin
  /\ playerDirection g' = forwardHeading
  /\ score g' = score g
  /\ lives g' = lives g
  /\ currentLevel g' = currentLevel g
  /\ mode g' = mode g
  /\ (mode g = practice ->
      fst (processCommand "start game" e) = Returned
      /\ environment g' = Some practiceRoom
      /\ objectives g' = objectives g
      /\ exists events,
           trace e' = StartBackgroundMusic :: events
                        ++ Log "Processing: start game" :: trace e)
  /\ (mode g = adventure ->
      at_index (environments e) (currentLevel g - 1) = Some env ->
      env_objectives env !! 0%nat = Some objective ->
      fst (processCommand "start game" e) = Returned
      /\ environment g' = Some env
      /\ objectives g' = env_objectives env
      /\ exists events,
           trace e' = StartBackgroundMusic :: events
                        ++ Log "Processing: start game" :: trace e).
Proof.
  intros Hplay. cbv zeta. rewrite (processCommand_start_playing e Hplay).
  split; [reflexivity|].
  pose proof (startGame_restarts (mode (gameState e)) (received "start game" e)) as Hr.
  cbv zeta in Hr. destruct Hr as (Hm & Hp & Hpos & Hdir & Hs & Hl & Hc).
  repeat (split; [assumption|]).
  split.
  - intros Hmode. rewrite Hmode.
    destruct (startGame_practice (received "start game" e))
      as (e' & events & -> & Hg & _ & _ & Htr).
    cbn [fst snd]. rewrite Hg, Htr. repeat split. exists events. reflexivity.
  - intros Hmode Henv Hobj. rewrite Hmode.
    destruct (startGame_adventure (received "start game" e) env objective Henv Hobj)
      as (e' & events & -> & Hg & _ & _ & Htr).
    cbn [fst snd]. rewrite Hg, Htr. repeat split. exists events. reflexivity.
Qed.

Lemma C10_start_game_while_playing_witness :
  let e := run (commands ["toggle mode"; "start game"; "go right"; "go right"])
               (new_GameEngine false) in
  let g' := gameState (snd (processCommand "start game" e)) in
  playerPosition (gameState e) = THREE.mkVector3 2 0 0
  /\ fst (processCommand "start game" e) = Returned
  /\ isPlaying g' = true
  /\ playerPosition g' = origin
  /\ environment g' = Some echoingForest
  /\ objectives g' = [crystal].
Proof.
  intros e g'.
  pose proof (C10_start_game_while_playing e echoingForest crystal eq_refl) as H.
  cbv zeta in H. destruct H as (_ & H2 & H3 & _ & _ & _ & _ & _ & _ & Hadv).
  destruct (Hadv eq_refl eq_refl eq_refl) as (H1 & H11 & H12 & _).
  split; [vm_compute; reflexivity|]. repeat split; assumption.
Defined.

(** ** The scheduled transition after a reset *)

Lemma fireTimer_pending e :
  (0 < timers e)%nat ->
  fireTimer e = startAdventureMode (set_timers (Nat.pred (timers e)) e).
Proof. unfold fireTimer. destruct (timers e); [lia|reflexivity]. Qed.

(** C1, counterexample.  Level 1 is cleared, Reset is pressed before the
    transition fires, and the stale callback then changes the state that the
    reset had set (it installs the forest and its crystal and speaks the
    welcome). *)
Lemma C1_stale_callback_not_noop :
  objectives (gameState levelOneCleared) = []
  /\ currentLevel (gameState levelOneCleared) = 2
  /\ timers levelOneCleared = 1%nat
  /\ gameState (snd (fireTimer (resetGame levelOneCleared)))
     <> gameState (resetGame levelOneCleared)
  /\ trace (snd (fireTimer (resetGame levelOneCleared)))
     <> trace (resetGame levelOneCleared).
Proof.
  repeat split; try (vm_compute; reflexivity); vm_compute; discriminate.
Qed.

(** ** Refused and unknown commands *)

Lemma includes_In array command : includes array command = true <-> In command array.
Proof.
  unfold includes. rewrite existsb_exists. split.
  - intros (s & Hin & Heq). apply String.eqb_eq in Heq. subst. exact Hin.
  - intros Hin. exists command. split; [exact Hin|apply String.eqb_refl].
Qed.

Lemma not_In_eqb array command s :
  ~ In command array -> In s array -> String.eqb command s = false.
Proof.
  intros Hnot Hin. apply String.eqb_neq. intros ->. contradiction.
Qed.

(** C6, counterexample.  Outside a session an unknown word is refused like
    any other command, with the request to start a game, and is not echoed:
    the one narration is "Please start a game first.", and the narration
    that quotes the word is not made. *)
Lemma C6_unknown_not_echoed_when_not_playing :
  ~ In "dance" vocabulary
  /\ isPlaying (gameState (new_GameEngine false)) = false
  /\ trace (snd (processCommand "dance" (new_GameEngine false)))
     = [Speak "Please start a game first."; Log "Processing: dance"]
  /\ ~ In (Speak ("I didn't understand " +:+ (dq +:+ "dance" +:+ dq)
                  +:+ ". Say " +:+ (dq +:+ "help" +:+ dq) +:+ " for available commands."))
          (trace (snd (processCommand "dance" (new_GameEngine false)))).
Proof.
  split; [|split; [|split]].
  - intros H. apply includes_In in H. vm_compute in H. discriminate.
  - reflexivity.
  - vm_compute. reflexivity.
  - vm_compute. intros [H|[H|[]]]; discriminate.
Qed.

(** C6, amended.  Outside a session a command that is not one of the four
    always allowed is answered by the narration "Please start a game first.",
    whether or not it is in the vocabulary.  In a session a string outside
    the vocabulary is echoed: the narration is the text I didn't understand
    followed by the string between double quotes and by the hint to say
    "help", and the log gets "Unknown command: " followed by the string.  In
    both cases the game state, the current objective, the catalog and the
    pending callbacks are untouched; the engine only records the command in
    [lastCommand] and logs it. *)
Theorem C6_refused_or_unknown command e :
  let e' := snd (processCommand command e) in
  (isPlaying (gameState e) = false -> ~ In command alwaysAllowed ->
   fst (processCommand command e) = Returned
   /\ trace e' = Speak "Please start a game first."
                   :: Log ("Processing: " +:+ command) :: trace e
   /\ OnlyTrace (set_lastCommand command e) e')
  /\ (isPlaying (gameState e) = true -> ~ In command vocabulary ->
      fst (processCommand command e) = Returned
      /\ trace e' = Log ("Unknown command: " +:+ command)
                      :: Speak ("I didn't understand " +:+ (dq +:+ command +:+ dq)
                                +:+ ". Say " +:+ (dq +:+ "help" +:+ dq)
                                +:+ " for available commands.")
                      :: Log ("Processing: " +:+ command) :: trace e
      /\ OnlyTrace (set_lastCommand command e) e').
Proof.
  cbv zeta. split.
  - intros Hplay Hnot. unfold processCommand.
    change (isPlaying (gameState (onLog ("Processing: " +:+ command)
                                    (set_lastCommand command e))))
      with (isPlaying (gameState e)).
    rewrite Hplay.
    assert (Hinc : includes alwaysAllowed command = false).
    { destruct (includes alwaysAllowed command) eqn:Hinc; [|reflexivity].
      apply includes_In in Hinc. contradiction. }
    rewrite Hinc. cbn [negb andb fst snd]. repeat split.
  - intros Hplay Hnot. unfold processCommand.
    change (isPlaying (gameState (onLog ("Processing: " +:+ command)
                                    (set_lastCommand command e))))
      with (isPlaying (gameState e)).
    rewrite Hplay. cbn [negb andb].
    rewrite !(not_In_eqb vocabulary command) by (assumption || (cbn; tauto)).
    cbn [fst snd]. repeat split.
Qed.

Lemma C6_refused_or_unknown_witness :
  let playing := run (commands ["start game"]) (new_GameEngine false) in
  trace (snd (processCommand "dance" (new_GameEngine false)))
  = [Speak "Please start a game first."; Log "Processing: dance"]
  /\ gameState (snd (processCommand "dance" playing)) = gameState playing
  /\ exists rest,
       trace (snd (processCommand "dance" playing))
       = Log "Unknown command: dance"
           :: Speak ("I didn't understand " +:+ (dq +:+ "dance" +:+ dq)
                     +:+ ". Say " +:+ (dq +:+ "help" +:+ dq) +:+ " for available commands.")
           :: rest.
Proof.
  intros playing.
  assert (Hv : ~ In "dance" vocabulary)
    by (intros H; apply includes_In in H; vm_compute in H; discriminate).
  assert (Ha : ~ In "dance" alwaysAllowed)
    by (intros H; apply includes_In in H; vm_compute in H; discriminate).
  destruct (C6_refused_or_unknown "dance" (new_GameEngine false)) as (Hidle & _).
  destruct (C6_refused_or_unknown "dance" playing) as (_ & Hplaying).
  destruct (Hidle eq_refl Ha) as (_ & Ht & _).
  destruct (Hplaying eq_refl Hv) as (_ & Ht' & Hg & _).
  split; [exact Ht|]. split; [exact Hg|]. eexists. exact Ht'.
Defined.

(** ** What each action does to the counters *)

Lemma SameCounters_OnlyTrace e e' : OnlyTrace e e' -> SameCounters e e'.
Proof. intros (Hg & _). unfold SameCounters. rewrite Hg. repeat split. Qed.

Lemma SameCounters_startGame m e : SameCounters e (snd (startGame m e)).
Proof.
  destruct m.
  - destruct (startGame_practice e) as (e' & events & -> & Hg & _).
    unfold SameCounters. cbn [snd]. rewrite Hg. repeat split.
  - unfold startGame.
    set (e0 := with_gameState _ (with_gameState _ (with_gameState _ (with_gameState _ e)))).
    pose proof (startAdventureMode_keeps e0) as Hk. cbv zeta in Hk.
    destruct Hk as (_ & _ & Hs & Hl & Hc & _).
    destruct (startAdventureMode e0) as [[|] e1]; cbn [snd] in *.
    + destruct (OnlyTrace_finish_start e1) as (Hg & _).
      unfold SameCounters. rewrite Hg, Hs, Hl, Hc. repeat split.
    + unfold SameCounters. rewrite Hs, Hl, Hc. repeat split.
Qed.

Lemma SameCounters_fireTimer e : SameCounters e (snd (fireTimer e)).
Proof.
  unfold fireTimer. destruct (timers e) as [|n]; [repeat split|].
  pose proof (startAdventureMode_keeps (set_timers n e)) as Hk. cbv zeta in Hk.
  destruct Hk as (_ & _ & Hs & Hl & Hc & _). unfold SameCounters.
  rewrite Hs, Hl, Hc. repeat split.
Qed.

Lemma OnlyTrace_lookAround e : OnlyTrace e (lookAround e).
Proof.
  unfold lookAround. destruct (isPlaying (gameState e)); [|apply OnlyTrace_refl].
  cbn [negb]. destruct (environment (gameState e)) as [env|]; [|repeat split].
  destruct (0 <? length _)%nat; repeat split.
Qed.

Lemma SameCounters_toggleMode e : SameCounters e (toggleMode e).
Proof. unfold toggleMode. destruct (isPlaying (gameState e)); repeat split. Qed.

Lemma directionOf_not_reset command direction :
  directionOf command = Some direction -> String.eqb command "reset game" = false.
Proof.
  unfold directionOf. intros H. apply String.eqb_neq. intros ->. discriminate.
Qed.

(** Every action is a reset, a move of a playing session, or leaves score,
    lives and level as they are. *)
Lemma perform_cases a e :
  (isReset a = true
   /\ gameState (perform a e) = initialGameState (mode (gameState e)))
  \/ (isReset a = false /\ isMove a e /\ Progress e (perform a e))
  \/ (isReset a = false /\ SameCounters e (perform a e)).
Proof.
  destruct a as [command|m| |]; cbn [perform isReset].
  - pose proof (processCommand_dispatched command e) as Hd.
    assert (Hrec : OnlyTrace (set_lastCommand command e) (received command e))
      by apply OnlyTrace_emit.
    assert (Hg : gameState (received command e) = gameState e) by reflexivity.
    destruct Hd as [Hp Hi|Hc|d Hp Hdir|Hp Hc|Hc|Hp Hc|Hc|Hc|Hp Hc|Hp Hi]; cbn [snd].
    + right; right. split.
      * destruct (String.eqb_spec command "reset game") as [->|]; [discriminate|reflexivity].
      * repeat split.
    + right; right. subst command. split; [reflexivity|].
      pose proof (SameCounters_startGame (mode (gameState (received "start game" e)))
                    (received "start game" e)) as H.
      exact H.
    + right; left. split; [eapply directionOf_not_reset; eassumption|]. split.
      * exists command, d. repeat split; assumption.
      * eapply Progress_trans; [|apply Progress_movePlayer].
        constructor; cbn; first [reflexivity | lia].
    + right; right. subst command. split; [reflexivity|].
      destruct (OnlyTrace_lookAround (received "look around" e)) as (H & _).
      unfold SameCounters. rewrite H. repeat split.
    + right; right. subst command. split; [reflexivity|]. repeat split.
    + right; right. subst command. split; [reflexivity|]. repeat split.
    + right; right. subst command. split; [reflexivity|].
      apply (SameCounters_toggleMode (received "toggle mode" e)).
    + left. subst command. split; [reflexivity|].
      apply (resetGame_state (received "reset game" e)).
    + right; right. subst command. split; [reflexivity|]. repeat split.
    + right; right. split.
      * destruct (String.eqb_spec command "reset game") as [->|]; [discriminate|reflexivity].
      * repeat split.
  - right; right. split; [reflexivity|apply SameCounters_startGame].
  - left. split; [reflexivity|apply resetGame_state].
  - right; right. split; [reflexivity|apply SameCounters_fireTimer].
Qed.

(** ** Score *)

(** C4.  An action changes the score in one of three ways.  A reset (the
    command or the button) sets it to 0.  A move of a playing session adds
    100 for each objective it removes from the list and 500 for the level it
    completes, if it completes one.  Every other action (any other command,
    a refused or unknown command, the Start button, the scheduled callback)
    leaves it as it is.  So along any run without a reset the score never
    decreases. *)
Theorem C4_score_changes a e :
  (let g := gameState e in
   let g' := gameState (perform a e) in
   (isReset a = true /\ score g' = 0)
   \/ (isReset a = false /\ score g' = score g)
   \/ (isReset a = false /\ isMove a e
       /\ sublist (objectives g') (objectives g)
       /\ score g' = score g
                     + 100 * (Z.of_nat (length (objectives g))
                              - Z.of_nat (length (objectives g')))
                     + 500 * (currentLevel g' - currentLevel g)
       /\ (currentLevel g' = currentLevel g
           \/ (currentLevel g' = currentLevel g + 1
               /\ objectives g' = [] /\ objectives g <> []))))
  /\ (forall actions,
        noReset actions = true ->
        score (gameState e) <= score (gameState (run actions e))).
Proof.
  assert (Step : forall a e,
    let g := gameState e in
    let g' := gameState (perform a e) in
    (isReset a = true /\ score g' = 0)
    \/ (isReset a = false /\ score g' = score g)
    \/ (isReset a = false /\ isMove a e
        /\ sublist (objectives g') (objectives g)
        /\ score g' = score g
                      + 100 * (Z.of_nat (length (objectives g))
                               - Z.of_nat (length (objectives g')))
                      + 500 * (currentLevel g' - currentLevel g)
        /\ (currentLevel g' = currentLevel g
            \/ (currentLevel g' = currentLevel g + 1
                /\ objectives g' = [] /\ objectives g <> [])))).
  { clear a e. intros a e g g'. subst g g'.
    destruct (perform_cases a e) as [(Hr & Hg)|[(Hr & Hm & Hp)|(Hr & Hs & _)]].
    - left. rewrite Hg. split; [assumption|reflexivity].
    - right; right. destruct Hp. repeat split; try assumption. lia.
    - right; left. split; assumption. }
  split; [apply Step|].
  intros actions. revert e. induction actions as [|a' actions IH]; intros e0 Hno.
  - cbn. lia.
  - cbn [noReset forallb] in Hno. apply andb_prop in Hno as (Ha & Hrest).
    apply negb_true_iff in Ha.
    change (run (a' :: actions) e0) with (run actions (perform a' e0)).
    specialize (IH (perform a' e0) Hrest).
    destruct (Step a' e0) as [(Hr & _)|[(_ & Hs)|(_ & _ & Hsub & Hs & Hl)]].
    + congruence.
    + lia.
    + apply sublist_length in Hsub. lia.
Qed.

Lemma C4_score_changes_witness :
  let e := run (commands ["toggle mode"; "start game"; "go right"; "go right"; "go right";
                          "go forward"; "go forward"])
               (new_GameEngine false) in
  score (gameState e) = 0
  /\ score (gameState (perform (Command "go forward") e)) = 600
  /\ score (gameState e) <= score (gameState (run (commands ["go forward"; "go left"]) e)).
Proof.
  intros e.
  destruct (C4_score_changes (Command "go forward") e) as (Hstep & Hrun).
  split; [reflexivity|]. split.
  - cbv zeta in Hstep.
    destruct Hstep as [(Hr & _)|[(_ & Hs)|(_ & _ & _ & Hs & _)]];
      [discriminate Hr | | rewrite Hs; vm_compute; reflexivity].
    exfalso. revert Hs. vm_compute. discriminate.
  - apply Hrun. reflexivity.
Defined.

(** ** Levels *)

Lemma level_at_least_one e : Reachable e -> 1 <= currentLevel (gameState e).
Proof.
  intros (visual & actions & ->).
  assert (H : forall actions e0,
             1 <= currentLevel (gameState e0) ->
             1 <= currentLevel (gameState (run actions e0))).
  { clear. intros actions. induction actions as [|a actions IH]; intros e0 H0; [exact H0|].
    change (run (a :: actions) e0) with (run actions (perform a e0)). apply IH.
    destruct (perform_cases a e0) as [(_ & Hg)|[(_ & _ & Hp)|(_ & _ & _ & Hl)]].
    - rewrite Hg. cbn. lia.
    - destruct Hp. lia.
    - lia. }
  apply H. cbn. lia.
Qed.

(** C9.  [completeLevel] adds exactly one to [currentLevel]; when the new
    level exceeds the number of catalog entries it calls game-won (the
    victory narration congratulates on the completion of all levels and gives
    the final score, which is the score with the 500 of the level; the
    session stops and no callback is scheduled), and otherwise it only
    schedules the next level (no victory narration, the session goes on).  Across actions the level
    changes in one of three ways: a reset sets it to 1, a move of a playing
    session that empties a non-empty objective list raises it by exactly
    one, and every other action leaves it as it is.  In a reachable state
    the level is at least 1, so the only action that increases it is such a
    move. *)
Theorem C9_level_progression a e :
  (let level := currentLevel (gameState e) in
   let final := mkStatus (mode (gameState e)) false (score (gameState e) + 500)
                         (lives (gameState e)) (level + 1) in
   currentLevel (gameState (completeLevel e)) = level + 1
   /\ (Z.of_nat (length (environments e)) < level + 1 ->
       isPlaying (gameState (completeLevel e)) = false
       /\ timers (completeLevel e) = timers e
       /\ trace (completeLevel e)
          = StateChange final :: StateChange final :: StopBackgroundMusic
              :: Speak ("Congratulations! You've completed all levels! Your final score is "
                        +:+ pretty (score (gameState e) + 500)
                        +:+ ". You are a true EchoVerse champion!")
              :: Speak ("Level " +:+ pretty level +:+ " completed! Well done!")
              :: PlaySound "success" 1 :: trace e)
   /\ (level + 1 <= Z.of_nat (length (environments e)) ->
       isPlaying (gameState (completeLevel e)) = isPlaying (gameState e)
       /\ timers (completeLevel e) = S (timers e)
       /\ trace (completeLevel e)
          = StateChange (mkStatus (mode (gameState e)) (isPlaying (gameState e))
                                  (score (gameState e) + 500) (lives (gameState e))
                                  (level + 1))
              :: Speak ("Level " +:+ pretty level +:+ " completed! Well done!")
              :: PlaySound "success" 1 :: trace e))
  /\ (let g := gameState e in
      let g' := gameState (perform a e) in
      (isReset a = true /\ currentLevel g' = 1)
      \/ (isReset a = false /\ currentLevel g' = currentLevel g)
      \/ (isReset a = false /\ isMove a e
          /\ currentLevel g' = currentLevel g + 1
          /\ objectives g' = [] /\ objectives g <> []))
  /\ (Reachable e ->
      currentLevel (gameState e) < currentLevel (gameState (perform a e)) ->
      isMove a e
      /\ currentLevel (gameState (perform a e)) = currentLevel (gameState e) + 1
      /\ objectives (gameState (perform a e)) = []
      /\ objectives (gameState e) <> []).
Proof.
  assert (Step :
    let g := gameState e in
    let g' := gameState (perform a e) in
    (isReset a = true /\ currentLevel g' = 1)
    \/ (isReset a = false /\ currentLevel g' = currentLevel g)
    \/ (isReset a = false /\ isMove a e
        /\ currentLevel g' = currentLevel g + 1
        /\ objectives g' = [] /\ objectives g <> [])).
  { cbv zeta.
    destruct (perform_cases a e) as [(Hr & Hg)|[(Hr & Hm & Hp)|(Hr & _ & _ & Hl)]].
    + left. rewrite Hg. split; [assumption|reflexivity].
    + destruct Hp. destruct pg_level0 as [Hsame|(Hup & Hnil & Hne)].
      * right; left. split; assumption.
      * right; right. repeat split; assumption.
    + right; left. split; assumption. }
  split; [|split; [exact Step|]].
  - cbv zeta. unfold completeLevel. cbn [playSound speak emit with_gameState gameState
      set_score set_currentLevel currentLevel score environments].
    destruct (Z.leb_spec (currentLevel (gameState e) + 1) (Z.of_nat (length (environments e))))
      as [Hle|Hgt].
    + split; [reflexivity|]. split; [intros; lia|]. intros _. repeat split.
    + split; [reflexivity|]. split; [|intros; lia]. intros _. repeat split.
  - intros Hreach Hup. apply level_at_least_one in Hreach. cbv zeta in Step.
    destruct Step as [(_ & H1)|[(_ & Hsame)|(_ & Hm & Hl & Hnil & Hne)]]; [lia|lia|].
    repeat split; assumption.
Qed.

Lemma C9_level_progression_witness :
  let e := run (commands ["toggle mode"; "start game"; "go right"; "go right"; "go right";
                          "go forward"; "go forward"])
               (new_GameEngine false) in
  currentLevel (gameState e) = 1
  /\ currentLevel (gameState (perform (Command "go forward") e)) = 2
  /\ objectives (gameState (perform (Command "go forward") e)) = []
  /\ timers (completeLevel e) = S (timers e).
Proof.
  intros e.
  destruct (C9_level_progression (Command "go forward") e) as ((_ & _ & Hnext) & _ & Hup).
  assert (Hreach : Reachable e) by (exists false; eexists; reflexivity).
  assert (Hlt : currentLevel (gameState e)
                < currentLevel (gameState (perform (Command "go forward") e)))
    by (vm_compute; reflexivity).
  destruct (Hup Hreach Hlt) as (_ & Hl & Hnil & _).
  split; [reflexivity|]. split; [rewrite Hl; reflexivity|]. split; [exact Hnil|].
  apply Hnext. vm_compute. discriminate.
Defined.

(** ** Hazards *)

Lemma interactWithHazard_lives h e :
  lives (gameState (interactWithHazard h e)) = lives (gameState e) - 1.
Proof.
  unfold interactWithHazard. cbn [playSound speak emit with_gameState gameState set_lives lives].
  destruct (lives (gameState e) - 1 <=? 0); reflexivity.
Qed.

Lemma interactWithHazard_Penalised h e : Penalised (interactWithHazard h e).
Proof.
  unfold Penalised, interactWithHazard.
  cbn [playSound speak emit with_gameState gameState set_lives lives].
  destruct (Z.leb_spec (lives (gameState e) - 1) 0); cbn; split; intros; first [reflexivity | lia].
Qed.

Lemma checkHazard_cases h k e :
  (inRange (playerPosition (gameState e)) h = true
   /\ checkHazard h k e = interactWithHazard h e)
  \/ (inRange (playerPosition (gameState e)) h = false
      /\ OnlyTrace e (checkHazard h k e)).
Proof.
  unfold checkHazard, inRange.
  destruct (THREE.distanceTo_le _ _ interactionDistance); [left; split; reflexivity|].
  right. split; [reflexivity|].
  destruct (THREE.distanceTo_le _ _ 2); [apply OnlyTrace_emit|apply OnlyTrace_refl].
Qed.

Lemma checkHazard_Penalised h k e : Penalised e -> Penalised (checkHazard h k e).
Proof.
  intros Hp. destruct (checkHazard_cases h k e) as [(_ & ->)|(_ & Hg & _)].
  - apply interactWithHazard_Penalised.
  - unfold Penalised. rewrite Hg. exact Hp.
Qed.

Lemma checkHazard_lives h k e :
  lives (gameState e) - 1 <= lives (gameState (checkHazard h k e)) <= lives (gameState e).
Proof.
  destruct (checkHazard_cases h k e) as [(_ & ->)|(_ & Hg & _)].
  - rewrite interactWithHazard_lives. lia.
  - rewrite Hg. lia.
Qed.

(** A pass over the hazards takes at most one life per hazard. *)
Lemma hazards_pass_lives hs k e :
  lives (gameState e) - Z.of_nat (length hs)
  <= lives (gameState (forEach checkHazard hs k e)) <= lives (gameState e).
Proof.
  revert k e. induction hs as [|h hs IH]; intros k e; cbn [forEach length].
  - lia.
  - specialize (IH (S k) (checkHazard h k e)).
    pose proof (checkHazard_lives h k e). lia.
Qed.

Lemma hazards_pass_Penalised hs k e :
  Penalised e -> Penalised (forEach checkHazard hs k e).
Proof.
  apply (forEach_invariant Penalised). intros h i e0. apply checkHazard_Penalised.
Qed.

(** If some hazard of the list is in range of the player when the pass
    starts, the first such hazard applies its penalty. *)
Lemma hazards_pass_trigger hs k e h :
  In h hs -> inRange (playerPosition (gameState e)) h = true ->
  lives (gameState (forEach checkHazard hs k e)) <= lives (gameState e) - 1
  /\ Penalised (forEach checkHazard hs k e).
Proof.
  revert k e. induction hs as [|h0 hs IH]; intros k e Hin Hrange; [destruct Hin|].
  cbn [forEach].
  destruct (checkHazard_cases h0 k e) as [(_ & Heq)|(Hout & Hg & _)].
  - rewrite Heq. split.
    + pose proof (hazards_pass_lives hs (S k) (interactWithHazard h0 e)) as Hl.
      rewrite interactWithHazard_lives in Hl. lia.
    + apply hazards_pass_Penalised, interactWithHazard_Penalised.
  - destruct Hin as [->|Hin]; [congruence|].
    destruct (IH (S k) (checkHazard h0 k e) Hin) as (Hl & Hp).
    + rewrite Hg. exact Hrange.
    + rewrite Hg in Hl. split; assumption.
Qed.

(** C8, counterexample.  A session that was started again after game over
    plays with no life left.  Its next step into the pit takes the count
    from 0 to -1, which is not 0, and yet game over fires: the session
    stops, the player stays one unit from the pit and is not sent back to
    the origin, and the narration gives the final score and not the lives
    remaining. *)
Lemma C8_game_over_below_zero :
  Reachable restartedWithoutLives
  /\ isPlaying (gameState restartedWithoutLives) = true
  /\ lives (gameState restartedWithoutLives) = 0
  /\ playerPosition (gameState restartedWithoutLives) = THREE.mkVector3 (-2) 0 0
  /\ let e' := perform (Command "go forward") restartedWithoutLives in
     let status := StateChange (mkStatus adventure false 0 (-1) 1) in
     inRange (THREE.mkVector3 (-2) 0 1) pit = true
     /\ lives (gameState e') = -1
     /\ isPlaying (gameState e') = false
     /\ playerPosition (gameState e') = THREE.mkVector3 (-2) 0 1
     /\ trace e'
        = [status;
           Speak "You moved forward. Leaves rustle in the wind around you.";
           status;
           Log "Hazard encountered: A deep pit with echoing depths";
           status;
           StopBackgroundMusic;
           Speak "Game Over! Your final score was 0. Better luck next time!";
           Speak "Oh no! You encountered A deep pit with echoing depths. You lost a life!";
           PlaySound "danger" 1;
           SetListenerPosition (THREE.mkVector3 (-2) 0 1) forwardHeading upVector;
           PlaySound "step" 0.7;
           Log "Processing: go forward"]
          ++ trace restartedWithoutLives.
Proof.
  split.
  { exists false,
      (commands (["toggle mode"; "start game"]
                 ++ leftLeftForward ++ leftLeftForward ++ leftLeftForward
                 ++ ["start game"; "go left"; "go left"])).
    vm_compute. reflexivity. }
  do 3 (split; [vm_compute; reflexivity|]). cbv zeta.
  do 4 (split; [vm_compute; reflexivity|]).
  vm_compute. reflexivity.
Qed.

(** C8, amended.  A hazard interaction narrates the description of the
    hazard and takes exactly one life.  If no life is left after it (the
    source tests [lives <= 0], so also when the count goes below zero) game
    over fires: the narration gives the final score and the session stops,
    the player staying where the hazard was met.  If a life is left the
    player is sent back to the origin and the narration gives the number of
    lives remaining.  Nothing is removed: the environment,
    hence its hazard list, is the same afterwards, so a second collision
    with the same hazard takes a second life.  At the level of a move: when
    an accepted move of a playing session ends within 1.5 units of a hazard
    of the active environment, at least one life and at most one life per
    listed hazard is lost, the environment is unchanged, and the session is
    stopped if no life is left and the player at the origin otherwise. *)
Theorem C8_hazard_interaction h e direction env hazards :
  (let g := gameState e in
   let e' := interactWithHazard h e in
   let status playing :=
     StateChange (mkStatus (mode g) playing (score g) (lives g - 1) (currentLevel g)) in
   lives (gameState e') = lives g - 1
   /\ environment (gameState e') = environment g
   /\ objectives (gameState e') = objectives g
   /\ score (gameState e') = score g
   /\ (lives g - 1 <= 0 ->
       isPlaying (gameState e') = false
       /\ playerPosition (gameState e') = playerPosition g
       /\ trace e' = status false
                       :: Log ("Hazard encountered: " +:+ hazard_description h)
                       :: status false :: StopBackgroundMusic
                       :: Speak ("Game Over! Your final score was " +:+ pretty (score g)
                                 +:+ ". Better luck next time!")
                       :: Speak ("Oh no! You encountered " +:+ hazard_description h
                                 +:+ ". You lost a life!")
                       :: PlaySound "danger" 1 :: trace e)
   /\ (0 < lives g - 1 ->
       isPlaying (gameState e') = isPlaying g
       /\ playerPosition (gameState e') = origin
       /\ trace e' = status (isPlaying g)
                       :: Log ("Hazard encountered: " +:+ hazard_description h)
                       :: Speak ("You have " +:+ pretty (lives g - 1)
                                 +:+ " lives remaining. You've been returned to the starting position.")
                       :: Speak ("Oh no! You encountered " +:+ hazard_description h
                                 +:+ ". You lost a life!")
                       :: PlaySound "danger" 1 :: trace e)
   /\ lives (gameState (interactWithHazard h e')) = lives g - 2)
  /\ (isPlaying (gameState e) = true ->
      environment (gameState e) = Some env ->
      env_hazards env = Some hazards ->
      In h hazards ->
      hitsBoundary (stepped direction e) = false ->
      inRange (stepTo direction (playerPosition (gameState e))) h = true ->
      let e' := movePlayer direction e in
      lives (gameState e) - Z.of_nat (length hazards) <= lives (gameState e')
      /\ lives (gameState e') <= lives (gameState e) - 1
      /\ environment (gameState e') = Some env
      /\ Penalised e').
Proof.
  split.
  - cbv zeta. rewrite !interactWithHazard_lives.
    unfold interactWithHazard.
    cbn [playSound speak emit with_gameState gameState set_lives lives].
    destruct (Z.leb_spec (lives (gameState e) - 1) 0) as [Hle|Hgt].
    + split; [lia|]. repeat split; intros; try lia.
    + split; [lia|]. repeat split; intros; try lia.
  - intros Hplay Henv Hhaz Hin Hbound Hrange e'. subst e'.
    destruct (movePlayer_accepted direction e Hplay Hbound) as (e' & (Hg & _) & ->).
    unfold Penalised. rewrite !Hg. clear Hg. cbv zeta in *.
    set (e0 := setListenerPosition _ _ _ _).
    unfold checkForInteractions.
    destruct (objectives_pass e0 (length (objectives (gameState e0))) 0)
      as (Hprog & Hpos & Hlives).
    set (e1 := forEachObjective _ _ _ _) in *.
    assert (Henv1 : environment (gameState e1) = Some env)
      by (rewrite (pg_environment _ _ Hprog); exact Henv).
    rewrite Henv1, Hhaz.
    assert (Hrange1 : inRange (playerPosition (gameState e1)) h = true)
      by (rewrite Hpos; exact Hrange).
    destruct (hazards_pass_trigger hazards 0 e1 h Hin Hrange1) as (Hl & Hpen).
    pose proof (hazards_pass_lives hazards 0 e1) as Hbounds.
    pose proof (hazards_pass e1 hazards 0) as Hprog2.
    change (lives (gameState e0)) with (lives (gameState e)) in Hlives.
    rewrite (pg_environment _ _ Hprog2), Henv1.
    split; [lia|]. split; [lia|]. split; [reflexivity|exact Hpen].
Qed.

Lemma C8_hazard_interaction_witness :
  let e := run (commands ["toggle mode"; "start game"; "go left"; "go left"])
               (new_GameEngine false) in
  let e' := movePlayer "forward" e in
  playerPosition (gameState e) = THREE.mkVector3 (-2) 0 0
  /\ lives (gameState e) = 3
  /\ lives (gameState e') = 2
  /\ playerPosition (gameState e') = origin
  /\ environment (gameState e') = Some echoingForest.
Proof.
  intros e e'.
  destruct (C8_hazard_interaction pit e "forward" echoingForest [pit]) as (_ & Hmove).
  specialize (Hmove eq_refl eq_refl eq_refl (or_introl eq_refl) eq_refl eq_refl).
  cbv zeta in Hmove. fold e' in Hmove.
  destruct Hmove as (Hlo & Hhi & Henv & _ & Hpos).
  assert (Hl : lives (gameState e) = 3) by reflexivity.
  rewrite Hl in Hlo, Hhi. cbn [length Z.of_nat] in Hlo.
  assert (Hl' : lives (gameState e') = 2) by lia.
  split; [reflexivity|]. split; [exact Hl|]. split; [exact Hl'|].
  split; [apply Hpos; lia|exact Henv].
Defined.

(** ** Lives *)

(** Lives are lost in moves only, and only a reset gives them back. *)
Lemma lives_at_most_three actions e :
  lives (gameState e) <= 3 -> lives (gameState (run actions e)) <= 3.
Proof.
  revert e. induction actions as [|a actions IH]; intros e He; [exact He|].
  change (run (a :: actions) e) with (run actions (perform a e)). apply IH.
  destruct (perform_cases a e) as [(_ & Hg)|[(_ & _ & Hp)|(_ & _ & Hl & _)]].
  - rewrite Hg. cbn. lia.
  - destruct Hp. lia.
  - lia.
Qed.

(** A pass over the hazards either takes no life or leaves the engine as a
    penalty leaves it. *)
Lemma hazards_pass_cases hs k e :
  lives (gameState (forEach checkHazard hs k e)) = lives (gameState e)
  \/ Penalised (forEach checkHazard hs k e).
Proof.
  apply (forEach_invariant
           (fun e' => lives (gameState e') = lives (gameState e) \/ Penalised e'));
    [|left; reflexivity].
  intros h i e0 H0. destruct (checkHazard_cases h i e0) as [(_ & ->)|(_ & Hg & _)].
  - right. apply interactWithHazard_Penalised.
  - destruct H0 as [H0|H0]; [left; rewrite Hg; exact H0|].
    right. unfold Penalised. rewrite Hg. exact H0.
Qed.

(** The action that takes the last life stops the session before it ends. *)
Lemma last_life_stops_session a e :
  0 < lives (gameState e) ->
  lives (gameState (perform a e)) <= 0 ->
  isPlaying (gameState (perform a e)) = false.
Proof.
  intros Hpos Hzero.
  destruct (perform_cases a e) as [(_ & Hg)|[(_ & Hm & _)|(_ & _ & Hl & _)]].
  - rewrite Hg in Hzero. cbn in Hzero. lia.
  - destruct Hm as (command & direction & -> & Hdir & Hplay).
    pose proof (processCommand_dispatched command e) as Hd.
    cbn [perform] in *.
    assert (Hmove : snd (processCommand command e) = movePlayer direction (received command e)).
    { inversion Hd as [Hp Hi|Hc|d Hp Hd' Heq|Hp Hc|Hc|Hp Hc|Hc|Hc|Hp Hc|Hp Hi];
        try (subst command; discriminate Hdir).
      - change (isPlaying (gameState (received command e)))
          with (isPlaying (gameState e)) in Hp. congruence.
      - rewrite Hdir in Hd'. injection Hd' as <-. reflexivity.
      - exfalso. unfold includes, vocabulary in Hi. cbn [existsb] in Hi.
        unfold directionOf in Hdir.
        destruct (String.eqb command "go left"); [rewrite !orb_true_r in Hi; discriminate|].
        destruct (String.eqb command "go right"); [rewrite !orb_true_r in Hi; discriminate|].
        destruct (String.eqb command "go forward"); [rewrite !orb_true_r in Hi; discriminate|].
        destruct (String.eqb command "go back"); [rewrite !orb_true_r in Hi; discriminate|].
        discriminate. }
    rewrite Hmove in *. clear Hmove Hd.
    set (e0 := received command e) in *.
    assert (Hpos0 : 0 < lives (gameState e0)) by exact Hpos.
    assert (Hplay0 : isPlaying (gameState e0) = true) by exact Hplay.
    clearbody e0.
    destruct (hitsBoundary (stepped direction e0)) eqn:Hhit.
    + destruct (movePlayer_rejected direction e0 Hplay0 Hhit) as (Hg & _).
      rewrite Hg in Hzero. lia.
    + destruct (movePlayer_accepted direction e0 Hplay0 Hhit) as (e' & (Hg & _) & Heq).
      rewrite Heq, Hg in *. clear Heq Hg e'.
      revert Hzero. unfold checkForInteractions.
      match goal with
      | |- context [forEachObjective checkObjective ?n 0%nat ?x] =>
          destruct (objectives_pass x n 0) as (_ & _ & Hl);
          set (e1 := forEachObjective checkObjective n 0%nat x) in *
      end.
      assert (Hl1 : lives (gameState e1) = lives (gameState e0)) by exact Hl.
      destruct (environment (gameState e1)) as [env|]; [|intros; lia].
      destruct (env_hazards env) as [hs|]; [|intros; lia].
      destruct (hazards_pass_cases hs 0 e1) as [Hsame|(Hstop & _)]; [intros; lia|].
      exact Hstop.
  - lia.
Qed.

(** Outside a session only the start and reset commands change the world. *)
Lemma stopped_session_keeps_world command e :
  isPlaying (gameState e) = false ->
  command <> "start game" -> command <> "reset game" ->
  world (gameState (snd (processCommand command e))) = world (gameState e).
Proof.
  intros Hstop Hstart Hreset.
  assert (Hstop0 : isPlaying (gameState (received command e)) = false) by exact Hstop.
  destruct (processCommand_dispatched command e)
    as [Hp Hi|Hc|d Hp Hdir|Hp Hc|Hc|Hp Hc|Hc|Hc|Hp Hc|Hp Hi];
    try congruence; cbn [snd].
  - reflexivity.
  - reflexivity.
  - unfold toggleMode. rewrite Hstop0. reflexivity.
Qed.

(** C2.  Lives can fall below zero.  After game over the start command is
    allowed; [startGame] puts the session back to playing and does not
    restore the lives, which only [resetGame] does.  The restarted session
    plays with 0 lives, and its next walk into the pit leaves -1. *)
Theorem C2_lives_below_zero_after_restart :
  let restarted := snd (processCommand "start game" gameOverInForest) in
  let again := run (commands leftLeftForward) restarted in
  lives (gameState gameOverInForest) = 0
  /\ isPlaying (gameState gameOverInForest) = false
  /\ fst (processCommand "start game" gameOverInForest) = Returned
  /\ isPlaying (gameState restarted) = true
  /\ lives (gameState restarted) = 0
  /\ lives (gameState again) = -1
  /\ lives (gameState (resetGame gameOverInForest)) = 3
  /\ Reachable again.
Proof.
  intros restarted again.
  do 7 (split; [vm_compute; reflexivity|]).
  exists false,
    (commands (["toggle mode"; "start game"]
               ++ leftLeftForward ++ leftLeftForward ++ leftLeftForward
               ++ ["start game"] ++ leftLeftForward)).
  vm_compute. reflexivity.
Qed.

(** ** Bounds *)

Lemma checkForInteractions_position e :
  playerPosition (gameState (checkForInteractions e)) = playerPosition (gameState e)
  \/ playerPosition (gameState (checkForInteractions e)) = origin.
Proof.
  unfold checkForInteractions.
  destruct (objectives_pass e (length (objectives (gameState e))) 0) as (_ & Hpos & _).
  set (e1 := forEachObjective _ _ _ _) in *.
  destruct (environment (gameState e1)) as [env|]; [|left; exact Hpos].
  destruct (env_hazards env) as [hs|]; [|left; exact Hpos].
  apply (forEach_invariant
           (fun e' => playerPosition (gameState e') = playerPosition (gameState e)
                      \/ playerPosition (gameState e') = origin)); [|left; exact Hpos].
  intros h i e0 H0. destruct (checkHazard_cases h i e0) as [(_ & ->)|(_ & Hg & _)].
  - unfold interactWithHazard.
    cbn [playSound speak emit with_gameState gameState set_lives lives].
    destruct (lives (gameState e0) - 1 <=? 0); [exact H0|right; reflexivity].
  - rewrite Hg. exact H0.
Qed.

(** The bound that [movePlayer] does keep: a move never takes a player who
    is inside the half-extents of the active environment outside them. *)
Lemma movePlayer_stays_within direction e env :
  isPlaying (gameState e) = true ->
  environment (gameState e) = Some env ->
  within origin env ->
  within (playerPosition (gameState e)) env ->
  within (playerPosition (gameState (movePlayer direction e))) env.
Proof.
  intros Hplay Henv Horigin Hin.
  destruct (hitsBoundary (stepped direction e)) eqn:Hhit.
  - destruct (movePlayer_rejected direction e Hplay Hhit) as (Hg & _). rewrite Hg. exact Hin.
  - destruct (movePlayer_accepted direction e Hplay Hhit) as (e' & (Hg & _) & ->).
    rewrite Hg.
    match goal with
    | |- within (playerPosition (gameState (checkForInteractions ?x))) _ =>
        destruct (checkForInteractions_position x) as [Hp|Hp]
    end; rewrite Hp; [|exact Horigin].
    unfold hitsBoundary in Hhit. cbn [stepped with_gameState gameState set_playerPosition
                                     environment playerPosition] in Hhit.
    rewrite Henv in Hhit. exact Hhit.
Qed.

(** C3.  The position can exceed the half-extents after a move has
    completed.  The scheduled callback installs the caves (half-extent 4 on
    x) and, unlike [startGame], leaves the player where the forest had let
    them go.  The next step right is rejected (position
    restored, edge narration, danger sound at 0.5), and the restored
    position is outside the half-extents of the active environment. *)
Theorem C3_outside_after_level_transition :
  let inCaves := snd (fireTimer atForestEdge) in
  let after := snd (processCommand "go right" inCaves) in
  timers atForestEdge = 1%nat
  /\ isPlaying (gameState inCaves) = true
  /\ environment (gameState inCaves) = Some whisperingCaves
  /\ playerPosition (gameState inCaves) = THREE.mkVector3 5 0 3
  /\ playerPosition (gameState after) = THREE.mkVector3 5 0 3
  /\ trace after = PlaySound "danger" 0.5 :: Speak edgeMessage
                     :: Log "Processing: go right" :: trace inCaves
  /\ beyondHalfSize (playerPosition (gameState after)) (env_size whisperingCaves) = true
  /\ Reachable after.
Proof.
  intros inCaves after.
  do 7 (split; [vm_compute; reflexivity|]).
  exists false,
    (commands ["toggle mode"; "start game"; "go right"; "go right"; "go right"; "go right";
               "go forward"; "go forward"; "go forward"; "go right"]
     ++ [TimerFires; Command "go right"]).
  vm_compute. reflexivity.
Qed.

(** ** Objectives *)

(** What the iteration would do with a list of two objectives that are both
    in range: the first is collected at index 0, the [splice] moves the
    second to index 0, and index 1, the next one visited, is no longer in
    the array.  No state that the engine reaches holds such a list: see
    [reachable_single_objective] below. *)
Lemma two_objectives_in_range_one_collected a b e :
  objectives (gameState e) = [a; b] ->
  objectiveInRange (playerPosition (gameState e)) a = true ->
  forEachObjective checkObjective (length (objectives (gameState e))) 0 e
  = interactWithObjective a 0 e
  /\ objectives (gameState (interactWithObjective a 0 e)) = [b].
Proof.
  intros Hobjs Ha.
  destruct (interactWithObjective_removes_one a 0 e) as (Hdel & _);
    [rewrite Hobjs; reflexivity|].
  rewrite Hobjs in Hdel. cbn [delete list_delete] in Hdel.
  split; [|exact Hdel].
  assert (Hfirst : checkObjective a 0 e = interactWithObjective a 0 e).
  { unfold checkObjective. unfold objectiveInRange in Ha. rewrite Ha. reflexivity. }
  rewrite Hobjs at 1. cbn [length forEachObjective].
  rewrite Hobjs. cbn [lookup list_lookup]. rewrite Hfirst, Hdel. reflexivity.
Qed.

(** ** Practice after Adventure *)

(** Along Adventure play the list does stay inside the objectives of the
    active environment: [startAdventureMode] copies them, and a move only
    removes. *)
Lemma startAdventureMode_objectives e e' :
  startAdventureMode e = (Returned, e') -> ObjectivesFromEnvironment e'.
Proof.
  unfold startAdventureMode.
  destruct (at_index (environments e) (currentLevel (gameState e) - 1)) as [env|] eqn:Henv;
    [|discriminate].
  cbn [with_gameState gameState set_objectives objectives set_currentObjective
       currentObjective].
  destruct (env_objectives env !! 0%nat) as [objective|] eqn:Hobj; [|discriminate].
  intros [= <-]. exists env.
  match goal with
  | |- context [setupSpatialAudio ?x] =>
      destruct (OnlyTrace_setupSpatialAudio x) as (Hg & _)
  end.
  rewrite Hg. split; reflexivity.
Qed.

Lemma movePlayer_objectives direction e :
  ObjectivesFromEnvironment e -> ObjectivesFromEnvironment (movePlayer direction e).
Proof.
  intros (env & Henv & Hsub). exists env.
  destruct (Progress_movePlayer direction e). split; [congruence|].
  etransitivity; eassumption.
Qed.

(** C7.  A Practice session keeps the objectives of the Adventure level
    played before it.  A level of Adventure is started and stopped,
    the mode toggled, and a game started: [startPracticeMode] installs the
    practice room, which has no objective of its own, and leaves in the list
    the crystal that [startAdventureMode] had copied from the forest. *)
Theorem C7_practice_keeps_adventure_objectives :
  let e := run (commands ["toggle mode"; "start game"; "stop game"; "toggle mode";
                          "start game"])
               (new_GameEngine false) in
  mode (gameState e) = practice
  /\ isPlaying (gameState e) = true
  /\ environment (gameState e) = Some practiceRoom
  /\ env_objectives practiceRoom = []
  /\ objectives (gameState e) = [crystal]
  /\ ~ sublist (objectives (gameState e)) (env_objectives practiceRoom)
  /\ Reachable e.
Proof.
  intros e.
  do 5 (split; [vm_compute; reflexivity|]).
  split.
  - vm_compute. intros H. apply sublist_nil_r in H. discriminate H.
  - exists false,
      (commands ["toggle mode"; "start game"; "stop game"; "toggle mode"; "start game"]).
    reflexivity.
Qed.

(** * Properties of whole runs, of the voice controller and of the page *)

(** ** Invariants carried through the methods

    An invariant that every primitive step of a method keeps is kept by the
    method.  Each lemma of the section depends on the steps its method
    makes, and on no other. *)

Section Carried.

Variable I : Engine -> Prop.

Hypothesis I_emit : forall ev e, narration ev = true -> I e -> I (emit ev e).
Hypothesis I_cue : forall name volume e, I e -> I (playPositionalSound name volume e).
Hypothesis I_listener :
  forall e,
    I e ->
    I (setListenerPosition (playerPosition (gameState e)) (playerDirection (gameState e))
                           upVector e).
Hypothesis I_update : forall e, I e -> I (updateState e).
Hypothesis I_visual : forall e, I e -> I (updateVisualState e).
Hypothesis I_stop : forall e, I e -> I (stopGame e).
Hypothesis I_position : forall v e, I e -> I (with_gameState (set_playerPosition v) e).
Hypothesis I_score :
  forall (f : GameState -> Z) e, I e -> I (with_gameState (fun g => set_score (f g) g) e).
Hypothesis I_lives :
  forall (f : GameState -> Z) e, I e -> I (with_gameState (fun g => set_lives (f g) g) e).
Hypothesis I_level :
  forall (f : GameState -> Z) e,
    I e -> I (with_gameState (fun g => set_currentLevel (f g) g) e).
Hypothesis I_mode :
  forall (f : GameState -> Mode) e, I e -> I (with_gameState (fun g => set_mode (f g) g) e).
Hypothesis I_objectives :
  forall (f : GameState -> list Objective) e,
    I e -> I (with_gameState (fun g => set_objectives (f g) g) e).
Hypothesis I_environment :
  forall v e, I e -> I (with_gameState (set_environment v) e).
Hypothesis I_timers : forall e, I e -> I (set_timers (S (timers e)) e).
Hypothesis I_currentObjective : forall o e, I e -> I (set_currentObjective o e).

Ltac carry :=
  cbv zeta;
  repeat
    match goal with
    | |- I _ => assumption
    | |- I (stopGame _) => apply I_stop
    | |- I (updateState _) => apply I_update
    | |- I (updateVisualState _) => apply I_visual
    | |- I (set_timers (S (timers _)) _) => apply I_timers
    | |- I (set_currentObjective _ _) => apply I_currentObjective
    | |- I (with_gameState (set_playerPosition _) _) => apply I_position
    | |- I (with_gameState (set_environment _) _) => apply I_environment
    | |- I (with_gameState (fun g => set_score _ g) _) => apply I_score
    | |- I (with_gameState (fun g => set_lives _ g) _) => apply I_lives
    | |- I (with_gameState (fun g => set_currentLevel _ g) _) => apply I_level
    | |- I (with_gameState (fun g => set_mode _ g) _) => apply I_mode
    | |- I (with_gameState (fun g => set_objectives _ g) _) => apply I_objectives
    | |- I (playPositionalSound _ _ _) => apply I_cue
    | |- I (emit _ _) => apply I_emit; [reflexivity|]
    end.

Lemma carried_gameOver e : I e -> I (gameOver e).
Proof. intros H. unfold gameOver, speak. carry. Qed.

Lemma carried_gameWon e : I e -> I (gameWon e).
Proof. intros H. unfold gameWon, speak. carry. Qed.

Lemma carried_completeLevel e : I e -> I (completeLevel e).
Proof.
  intros H. unfold completeLevel, speak, playSound. cbv zeta.
  match goal with |- context [if ?c then _ else _] => destruct c end; carry.
  apply carried_gameWon. carry.
Qed.

Lemma carried_interactWithObjective o k e : I e -> I (interactWithObjective o k e).
Proof.
  intros H. rewrite interactWithObjective_eq. unfold afterRemoval, onLog, speak, playSound.
  destruct (Nat.eqb _ 0); carry.
  apply carried_completeLevel. carry.
Qed.

Lemma carried_interactWithHazard h e : I e -> I (interactWithHazard h e).
Proof.
  intros H. unfold interactWithHazard, onLog, speak, playSound. cbv zeta.
  match goal with |- context [if ?c then _ else _] => destruct c end; carry.
  apply carried_gameOver. carry.
Qed.

Lemma carried_checkObjective o k e : I e -> I (checkObjective o k e).
Proof.
  intros H. unfold checkObjective. cbv zeta.
  destruct (THREE.distanceTo_le _ _ interactionDistance);
    [apply carried_interactWithObjective; exact H|].
  destruct (THREE.distanceTo_le _ _ 3); carry.
Qed.

Lemma carried_checkHazard h k e : I e -> I (checkHazard h k e).
Proof.
  intros H. unfold checkHazard. cbv zeta.
  destruct (THREE.distanceTo_le _ _ interactionDistance);
    [apply carried_interactWithHazard; exact H|].
  destruct (THREE.distanceTo_le _ _ 2); carry.
Qed.

Lemma carried_checkForInteractions e : I e -> I (checkForInteractions e).
Proof.
  intros H. unfold checkForInteractions.
  assert (H1 : I (forEachObjective checkObjective (length (objectives (gameState e))) 0 e)).
  { apply (forEachObjective_invariant I); [|exact H].
    intros o k e0 H0 _. apply carried_checkObjective. exact H0. }
  set (e1 := forEachObjective _ _ _ _) in *.
  destruct (environment (gameState e1)) as [env|]; [|exact H1].
  destruct (env_hazards env) as [hs|]; [|exact H1].
  apply (forEach_invariant I); [|exact H1].
  intros h k e0 H0. apply carried_checkHazard. exact H0.
Qed.

Lemma carried_movePlayer direction e : I e -> I (movePlayer direction e).
Proof.
  intros H. unfold movePlayer.
  destruct (negb (isPlaying (gameState e))); [exact H|]. cbv zeta.
  destruct (hitsBoundary _).
  - unfold speak, playSound. carry.
  - match goal with
    | |- context [checkForInteractions ?x] =>
        assert (H1 : I (checkForInteractions x))
    end.
    { apply carried_checkForInteractions, I_listener. unfold playSound. carry. }
    set (e1 := checkForInteractions _) in *.
    destruct (getMovementFeedback direction e1); unfold speak; carry.
Qed.

Lemma carried_setupSpatialAudio e : I e -> I (setupSpatialAudio e).
Proof.
  intros H. unfold setupSpatialAudio.
  destruct (environment (gameState e)) as [env|]; [|exact H].
  assert (H1 : I (forEach (fun objective index =>
                             createPositionalSound ("objective_" +:+ pretty index)
                                                   (objective_position objective))
                          (objectives (gameState e)) 0 e)).
  { apply (forEach_invariant I); [|exact H].
    intros o k e0 H0. unfold createPositionalSound. carry. }
  destruct (env_hazards env) as [hs|]; [|exact H1].
  apply (forEach_invariant I); [|exact H1].
  intros h k e0 H0. unfold createPositionalSound. carry.
Qed.

Lemma carried_startPracticeMode e : I e -> I (startPracticeMode e).
Proof. intros H. unfold startPracticeMode, onLog, speak. carry. Qed.

(** Also when it throws: what it did before the throw are steps like the
    others. *)
Lemma carried_startAdventureMode e : I e -> I (snd (startAdventureMode e)).
Proof.
  intros H. unfold startAdventureMode. cbv zeta.
  destruct (at_index _ _) as [env|]; cbn [snd]; [|carry].
  match goal with
  | |- context [currentObjective ?x] =>
      change (currentObjective x) with (env_objectives env !! 0%nat)
  end.
  destruct (env_objectives env !! 0%nat) as [objective|]; cbn [snd].
  - apply carried_setupSpatialAudio. unfold onLog, speak. carry.
    apply (I_objectives (fun _ => env_objectives env)). carry.
  - carry. apply (I_objectives (fun _ => env_objectives env)). carry.
Qed.

Hypothesis I_fired : forall n e, I e -> I (set_timers n e).

Lemma carried_fireTimer e : I e -> I (snd (fireTimer e)).
Proof.
  intros H. unfold fireTimer. destruct (timers e) as [|n]; [exact H|].
  apply carried_startAdventureMode, I_fired, H.
Qed.

Lemma carried_lookAround e : I e -> I (lookAround e).
Proof.
  intros H. unfold lookAround.
  destruct (negb (isPlaying (gameState e))); [exact H|]. cbv zeta.
  destruct (environment (gameState e)) as [env|]; [|unfold onLog, speak; carry].
  destruct (0 <? length _)%nat; unfold onLog, speak, playSound; carry.
Qed.

Lemma carried_provideHelp e : I e -> I (provideHelp e).
Proof. intros H. unfold provideHelp, onLog, speak. carry. Qed.

Lemma carried_handleUnknownCommand command e : I e -> I (handleUnknownCommand command e).
Proof. intros H. unfold handleUnknownCommand, onLog, speak. carry. Qed.

Lemma carried_toggleMode e : I e -> I (toggleMode e).
Proof.
  intros H. unfold toggleMode.
  destruct (isPlaying (gameState e)); unfold speak; cbv zeta; carry.
Qed.

(** The three methods that begin and end a session, for an invariant that
    each of their steps keeps. *)
Hypothesis I_isPlaying : forall b e, I e -> I (with_gameState (set_isPlaying b) e).
Hypothesis I_direction : forall v e, I e -> I (with_gameState (set_playerDirection v) e).
Hypothesis I_startMusic : forall e, I e -> I (startBackgroundMusic e).
Hypothesis I_stopMusic : forall e, I e -> I (stopBackgroundMusic e).
Hypothesis I_fresh : forall g e, I e -> I (set_gameState g e).

Lemma carried_stopGame e : I e -> I (stopGame e).
Proof. intros H. unfold stopGame. cbv zeta. apply I_update, I_stopMusic, I_isPlaying, H. Qed.

Lemma carried_startGame m e : I e -> I (snd (startGame m e)).
Proof.
  intros H. unfold startGame. cbv zeta.
  match goal with
  | |- context [startPracticeMode ?x] => assert (HX : I x)
  end.
  { apply I_direction, I_position, I_isPlaying, (I_mode (fun _ => m)), H. }
  destruct m.
  - cbn [snd]. apply I_startMusic, I_visual, I_update, carried_startPracticeMode, HX.
  - pose proof (carried_startAdventureMode _ HX) as H1.
    destruct (startAdventureMode _) as [c e1]. cbn [snd] in H1.
    destruct c; cbn [snd]; [|exact H1].
    apply I_startMusic, I_visual, I_update, H1.
Qed.

Lemma carried_resetGame e : I e -> I (resetGame e).
Proof.
  intros H. unfold resetGame, onLog, speak. cbv zeta.
  apply I_visual, I_update. carry. apply I_stopMusic, I_fresh, H.
Qed.

(** A move, for an invariant that holds whenever both snapshots have just
    been handed over. *)
Hypothesis I_publish : forall e, I (updateVisualState (updateState e)).
Hypothesis I_back :
  forall p e,
    I e ->
    I (with_gameState (set_playerPosition (playerPosition (gameState e)))
         (with_gameState (set_playerPosition p) e)).

Lemma published_movePlayer direction e : I e -> I (movePlayer direction e).
Proof.
  intros H. unfold movePlayer.
  destruct (negb (isPlaying (gameState e))); [exact H|]. cbv zeta.
  destruct (hitsBoundary _); [|apply I_publish].
  unfold speak, playSound.
  apply I_emit; [reflexivity|]. apply I_emit; [reflexivity|]. apply I_back, H.
Qed.

(** The dispatch and the runs.  [ok] says which completions the invariant
    is claimed for. *)
Variable ok : Completion -> Prop.

Hypothesis I_lastCommand : forall c e, I e -> I (set_lastCommand c e).
Hypothesis I_start : forall m e, I e -> ok (fst (startGame m e)) -> I (snd (startGame m e)).
Hypothesis I_reset : forall e, I e -> I (resetGame e).
Hypothesis I_move : forall direction e, I e -> I (movePlayer direction e).
Hypothesis I_toggle : forall e, I e -> I (toggleMode e).
Hypothesis I_timer : forall e, I e -> ok (fst (fireTimer e)) -> I (snd (fireTimer e)).

Lemma carried_processCommand command e :
  I e -> ok (fst (processCommand command e)) -> I (snd (processCommand command e)).
Proof.
  intros H Hok.
  assert (H0 : I (received command e)).
  { unfold received, onLog. apply I_emit; [reflexivity|]. apply I_lastCommand, H. }
  destruct (processCommand_dispatched command e)
    as [Hp Hi|Hc|d Hp Hdir|Hp Hc|Hc|Hp Hc|Hc|Hc|Hp Hc|Hp Hi]; cbn [fst snd] in *.
  - unfold speak. carry.
  - apply I_start; assumption.
  - apply I_move, H0.
  - apply carried_lookAround, H0.
  - apply carried_provideHelp, H0.
  - unfold repeatLastSpeech. carry.
  - apply I_toggle, H0.
  - apply I_reset, H0.
  - apply I_stop, H0.
  - apply carried_handleUnknownCommand, H0.
Qed.

Lemma carried_perform a e : I e -> ok (completion a e) -> I (perform a e).
Proof.
  intros H Hok. destruct a as [command|m| |]; cbn [perform completion] in *.
  - apply carried_processCommand; assumption.
  - apply I_start; assumption.
  - apply I_reset, H.
  - apply I_timer; assumption.
Qed.

Lemma carried_run actions e : I e -> Completes ok actions e -> I (run actions e).
Proof.
  revert e. induction actions as [|a rest IH]; intros e H Hc; [exact H|].
  destruct Hc as [Ha Hrest]. apply (IH (perform a e)); [|exact Hrest].
  apply carried_perform; assumption.
Qed.

End Carried.

(** ** What the collaborators are told *)

Lemma startGame_returned m e :
  fst (startGame m e) = Returned ->
  exists x, snd (startGame m e) = startBackgroundMusic (updateVisualState (updateState x)).
Proof.
  unfold startGame. cbv zeta. destruct m.
  - intros _. cbn [snd]. eexists. reflexivity.
  - destruct (startAdventureMode _) as [c e1]. destruct c; cbn [fst snd]; [|discriminate].
    intros _. eexists. reflexivity.
Qed.

Lemma resetGame_published e : exists x, resetGame e = updateVisualState (updateState x).
Proof. unfold resetGame. cbv zeta. eexists. reflexivity. Qed.

Lemma Completes_any actions e : Completes (fun _ => True) actions e.
Proof.
  revert e. induction actions as [|a rest IH]; intros e; cbn [Completes]; [exact I|].
  split; [exact I|apply IH].
Qed.

(** *** Sounds *)

Lemma SoundsExist_emit before ev e :
  match ev with PlaySound name _ => AudioManager.hasSound name | _ => true end = true ->
  SoundsExist before e -> SoundsExist before (emit ev e).
Proof.
  intros Hev H name volume [Heq|Hin]; [|exact (H name volume Hin)].
  subst ev. right. exact Hev.
Qed.

Ltac sound_step :=
  intros;
  lazymatch goal with
  | Hn : narration ?ev = true |- SoundsExist _ (emit ?ev _) =>
      apply SoundsExist_emit; [destruct ev; first [exact Hn | reflexivity]|assumption]
  | |- SoundsExist _ (playPositionalSound _ _ _) =>
      apply SoundsExist_emit; [reflexivity|assumption]
  | |- SoundsExist _ (setListenerPosition _ _ _ _) =>
      apply SoundsExist_emit; [reflexivity|assumption]
  | |- SoundsExist _ (updateState _) => apply SoundsExist_emit; [reflexivity|assumption]
  | |- SoundsExist _ (startBackgroundMusic _) => apply SoundsExist_emit; [reflexivity|assumption]
  | |- SoundsExist _ (stopBackgroundMusic _) => apply SoundsExist_emit; [reflexivity|assumption]
  | |- SoundsExist _ (updateVisualState ?e) =>
      unfold updateVisualState; destruct (onVisualUpdate e);
      [apply SoundsExist_emit; [reflexivity|assumption]|assumption]
  | |- SoundsExist _ _ => match goal with H : SoundsExist _ _ |- _ => exact H end
  end.

Lemma SoundsExist_stopGame before e : SoundsExist before e -> SoundsExist before (stopGame e).
Proof. apply (carried_stopGame (SoundsExist before)); sound_step. Qed.

Lemma SoundsExist_perform before a e :
  SoundsExist before e -> SoundsExist before (perform a e).
Proof.
  intros H.
  apply (carried_perform (SoundsExist before)) with (ok := fun _ => True);
    try exact I; try exact H; try sound_step.
  - apply SoundsExist_stopGame.
  - intros m e0 H0 _. apply (carried_startGame (SoundsExist before)); sound_step.
  - intros e0 H0. apply (carried_resetGame (SoundsExist before)); sound_step.
  - intros d e0 H0. apply (carried_movePlayer (SoundsExist before)); try sound_step.
    apply SoundsExist_stopGame.
  - intros e0 H0. apply (carried_toggleMode (SoundsExist before)); sound_step.
  - intros e0 H0 _. apply (carried_fireTimer (SoundsExist before)); sound_step.
Qed.

(** X1.  Every sound that the engine asks the audio manager to play, on any
    run from any state, is one of the six sounds that the audio manager
    creates, so that [playSound] never finds its map without the name and
    stays silent. *)
Theorem played_sounds_exist e actions name volume :
  In (PlaySound name volume) (trace (run actions e)) ->
  In (PlaySound name volume) (trace e) \/ AudioManager.hasSound name = true.
Proof.
  assert (H : SoundsExist (trace e) (run actions e)).
  { assert (H0 : SoundsExist (trace e) e) by (intros n v Hin; left; exact Hin).
    revert H0. generalize (trace e) as before. revert e.
    induction actions as [|a rest IH]; intros e before H0; [exact H0|].
    apply (IH (perform a e)). apply SoundsExist_perform. exact H0. }
  apply H.
Qed.

Lemma played_sounds_exist_witness :
  In (PlaySound "step" 0.7)
     (trace (run (commands ["start game"; "go left"]) (new_GameEngine false)))
  /\ (In (PlaySound "step" 0.7) (trace (new_GameEngine false))
      \/ AudioManager.hasSound "step" = true).
Proof.
  assert (H : In (PlaySound "step" 0.7)
                 (trace (run (commands ["start game"; "go left"]) (new_GameEngine false)))).
  { vm_compute. tauto. }
  split; [exact H|].
  apply (played_sounds_exist (new_GameEngine false) (commands ["start game"; "go left"])).
  exact H.
Defined.

(** *** The ambient loop *)

Ltac music_step :=
  intros;
  lazymatch goal with
  | Hn : narration ?ev = true |- MusicFollowsSession (emit ?ev _) =>
      destruct ev; try discriminate Hn; assumption
  | |- MusicFollowsSession (updateVisualState ?e) =>
      unfold updateVisualState; destruct (onVisualUpdate e); assumption
  | |- MusicFollowsSession (stopGame _) => reflexivity
  | |- MusicFollowsSession _ => match goal with H : MusicFollowsSession _ |- _ => exact H end
  end.

Lemma MusicFollowsSession_perform a e :
  MusicFollowsSession e -> completion a e = Returned -> MusicFollowsSession (perform a e).
Proof.
  intros H Hret.
  apply (carried_perform MusicFollowsSession) with (ok := fun c => c = Returned);
    try exact Hret; try exact H; try music_step.
  - intros m e0 _ Hr. destruct (startGame_returned m e0 Hr) as [x Hx].
    unfold MusicFollowsSession.
    destruct (startGame_restarts m e0) as (_ & Hp & _). cbv zeta in Hp.
    rewrite Hp, Hx. reflexivity.
  - intros e0 _.
    unfold MusicFollowsSession, resetGame, updateVisualState. cbv zeta.
    destruct (onVisualUpdate _); reflexivity.
  - intros d e0 H0. apply (carried_movePlayer MusicFollowsSession); music_step.
  - intros e0 H0. apply (carried_toggleMode MusicFollowsSession); music_step.
  - intros e0 H0 _. apply (carried_fireTimer MusicFollowsSession); music_step.
Qed.

(** X2.  The ambient loop follows the session: after a run in which no
    action ends in an exception, the last request to the audio manager
    about the loop is a start exactly when a session is playing. *)
Theorem music_follows_session e actions :
  MusicFollowsSession e -> Returns actions e -> MusicFollowsSession (run actions e).
Proof.
  revert e. induction actions as [|a rest IH]; intros e H Hret; [exact H|].
  destruct Hret as [Ha Hrest]. apply (IH (perform a e)); [|exact Hrest].
  apply MusicFollowsSession_perform; assumption.
Qed.

Lemma music_follows_session_witness :
  let actions := commands ["toggle mode"; "start game"; "go left"; "stop game"; "start game"] in
  MusicFollowsSession (new_GameEngine true)
  /\ Returns actions (new_GameEngine true)
  /\ musicRequested (trace (run actions (new_GameEngine true)))
     = isPlaying (gameState (run actions (new_GameEngine true))).
Proof.
  assert (H1 : MusicFollowsSession (new_GameEngine true)) by reflexivity.
  assert (H2 : Returns (commands ["toggle mode"; "start game"; "go left"; "stop game";
                                  "start game"]) (new_GameEngine true))
    by (vm_compute; tauto).
  split; [exact H1|]. split; [exact H2|].
  exact (music_follows_session (new_GameEngine true) _ H1 H2).
Defined.

(** *** The status of the page *)

Lemma StatusReported_updateState e : StatusReported (updateState e).
Proof. unfold StatusReported, updateState. cbn [trace emit lastStatus]. reflexivity. Qed.

Lemma StatusReported_updateVisualState e :
  StatusReported e -> StatusReported (updateVisualState e).
Proof. intros H. unfold updateVisualState. destruct (onVisualUpdate e); exact H. Qed.

Ltac status_step :=
  intros;
  lazymatch goal with
  | Hn : narration ?ev = true |- StatusReported (emit ?ev _) =>
      destruct ev; try discriminate Hn; assumption
  | |- StatusReported (stopGame _) => apply StatusReported_updateState
  | |- StatusReported (updateVisualState (updateState _)) =>
      apply StatusReported_updateVisualState, StatusReported_updateState
  | |- StatusReported _ => match goal with H : StatusReported _ |- _ => exact H end
  end.

Lemma StatusReported_perform a e :
  StatusReported e -> completion a e = Returned -> StatusReported (perform a e).
Proof.
  intros H Hret.
  apply (carried_perform StatusReported) with (ok := fun c => c = Returned);
    try exact Hret; try exact H; try status_step.
  - intros m e0 _ Hr. destruct (startGame_returned m e0 Hr) as [x Hx]. rewrite Hx.
    apply (StatusReported_updateVisualState (updateState x)), StatusReported_updateState.
  - intros e0 _. destruct (resetGame_published e0) as [x ->]. status_step.
  - intros d e0 H0. apply (published_movePlayer StatusReported); status_step.
  - intros e0 H0. unfold toggleMode. destruct (isPlaying (gameState e0)).
    + exact H0.
    + cbv zeta. apply StatusReported_updateState.
  - intros e0 H0 _. apply (carried_fireTimer StatusReported); status_step.
Qed.

(** X3.  The page is told the status of the engine: after a run in which
    no action ends in an exception, the last snapshot that [onStateChange]
    received holds the mode, phase, score, lives and level that the engine
    has. *)
Theorem status_reported_after_run e actions :
  StatusReported e -> Returns actions e -> StatusReported (run actions e).
Proof.
  revert e. induction actions as [|a rest IH]; intros e H Hret; [exact H|].
  destruct Hret as [Ha Hrest]. apply (IH (perform a e)); [|exact Hrest].
  apply StatusReported_perform; assumption.
Qed.

Lemma status_reported_after_run_witness :
  let actions := commands ["toggle mode"; "start game"; "go left"; "go left"; "go forward"] in
  StatusReported (new_GameEngine true)
  /\ Returns actions (new_GameEngine true)
  /\ StatusReported (run actions (new_GameEngine true)).
Proof.
  assert (H1 : StatusReported (new_GameEngine true)) by reflexivity.
  assert (H2 : Returns (commands ["toggle mode"; "start game"; "go left"; "go left";
                                  "go forward"]) (new_GameEngine true))
    by (vm_compute; tauto).
  split; [exact H1|]. split; [exact H2|].
  exact (status_reported_after_run (new_GameEngine true) _ H1 H2).
Defined.

(** *** The map of the page *)

Lemma VisualReported_published e : VisualReported (updateVisualState (updateState e)).
Proof.
  unfold VisualReported, updateVisualState, updateState.
  cbn [onVisualUpdate emit]. destruct (onVisualUpdate e) eqn:Hv.
  - intros _. reflexivity.
  - cbn [onVisualUpdate emit]. rewrite Hv. discriminate.
Qed.

Ltac visual_step :=
  intros;
  lazymatch goal with
  | Hn : narration ?ev = true |- VisualReported (emit ?ev _) =>
      destruct ev; try discriminate Hn; assumption
  | |- VisualReported (updateVisualState (updateState _)) => apply VisualReported_published
  | |- VisualReported _ => match goal with H : VisualReported _ |- _ => exact H end
  end.

Lemma VisualReported_perform a e :
  VisualReported e -> a <> TimerFires -> completion a e = Returned ->
  VisualReported (perform a e).
Proof.
  intros H Hno Hret.
  assert (Hstart : forall m e0,
             VisualReported e0 -> fst (startGame m e0) = Returned ->
             VisualReported (snd (startGame m e0))).
  { intros m e0 _ Hr. destruct (startGame_returned m e0 Hr) as [x ->].
    pose proof (VisualReported_published x) as Hx. exact Hx. }
  assert (Hreset : forall e0, VisualReported e0 -> VisualReported (resetGame e0)).
  { intros e0 _. destruct (resetGame_published e0) as [x ->]. apply VisualReported_published. }
  destruct a as [command|m| |]; cbn [perform completion] in *.
  - apply (carried_processCommand VisualReported) with (ok := fun c => c = Returned);
      try exact Hret; try exact H; try exact Hstart; try exact Hreset; try visual_step.
    + intros d e0 H0. apply (published_movePlayer VisualReported); visual_step.
    + intros e0 H0. apply (carried_toggleMode VisualReported); visual_step.
  - apply Hstart; assumption.
  - apply Hreset, H.
  - contradiction.
Qed.

(** X4.  The page is shown the world of the engine: after a run of
    commands and button presses in which no action ends in an exception,
    the last snapshot that [onVisualUpdate] received holds the position,
    environment, objectives and hazards that the engine has.  The scheduled
    level transition is not part of such a run: it changes environment and
    objectives and hands over no snapshot. *)
Theorem visual_reported_after_run e actions :
  VisualReported e -> noTimer actions = true -> Returns actions e ->
  VisualReported (run actions e).
Proof.
  revert e. induction actions as [|a rest IH]; intros e H Hno Hret; [exact H|].
  destruct Hret as [Ha Hrest]. cbn [noTimer forallb] in Hno.
  apply andb_true_iff in Hno. destruct Hno as [Hno Hrest'].
  apply (IH (perform a e)); [|exact Hrest'|exact Hrest].
  apply VisualReported_perform; [assumption| |assumption].
  intros ->. discriminate.
Qed.

Lemma visual_reported_after_run_witness :
  let actions := commands ["toggle mode"; "start game"; "go right"; "go right"; "go right";
                           "go forward"; "go forward"; "go forward"; "go right"] in
  VisualReported (new_GameEngine true)
  /\ noTimer actions = true
  /\ Returns actions (new_GameEngine true)
  /\ VisualReported (run actions (new_GameEngine true)).
Proof.
  assert (H1 : VisualReported (new_GameEngine true)) by (intros _; reflexivity).
  assert (H2 : Returns (commands ["toggle mode"; "start game"; "go right"; "go right";
                                  "go right"; "go forward"; "go forward"; "go forward";
                                  "go right"]) (new_GameEngine true))
    by (vm_compute; tauto).
  split; [exact H1|]. split; [reflexivity|]. split; [exact H2|].
  apply (visual_reported_after_run (new_GameEngine true)); [exact H1|reflexivity|exact H2].
Defined.

(** ** The scheduled transition is never cancelled *)

Ltac pending_step :=
  intros;
  lazymatch goal with
  | H : StillPending ?n ?e |- StillPending ?n (set_timers (S (timers ?e)) ?e) =>
      unfold StillPending in *; cbn [timers set_timers]; lia
  | |- StillPending _ (updateVisualState ?e) =>
      unfold updateVisualState; destruct (onVisualUpdate e); assumption
  | |- StillPending _ _ => match goal with H : StillPending _ _ |- _ => exact H end
  end.

(** Only the firing of a callback takes it off the pending ones. *)
Lemma StillPending_perform n a e :
  a <> TimerFires -> StillPending n e -> StillPending n (perform a e).
Proof.
  intros Ha H.
  assert (Hstart : forall m x, StillPending n x -> StillPending n (snd (startGame m x))).
  { intros m x Hx. apply (carried_startGame (StillPending n)); pending_step. }
  assert (Hreset : forall x, StillPending n x -> StillPending n (resetGame x)).
  { intros x Hx. apply (carried_resetGame (StillPending n)); pending_step. }
  destruct a as [command|m| |]; cbn [perform].
  - apply (carried_processCommand (StillPending n)) with (ok := fun _ => True);
      try exact I; try exact H; try exact Hreset; try pending_step.
    + intros m x Hx _. apply Hstart, Hx.
    + intros d x Hx. apply (carried_movePlayer (StillPending n)); pending_step.
    + intros x Hx. apply (carried_toggleMode (StillPending n)); pending_step.
  - apply Hstart, H.
  - apply Hreset, H.
  - contradiction.
Qed.

(** C1, amended.  The callback has no guard and is never cancelled, and a
    reset leaves it pending.  Whenever it fires it runs the Adventure start
    sequence for the level that is current at that moment, whether or not a
    session is playing: it keeps mode, [isPlaying], score, lives, level and
    position as they are then, installs the catalog entry of that level as
    environment, copies its objectives and speaks its welcome.  What it does
    after a reset therefore depends on what happens between the two.  When it
    fires as the next event after the reset, with nothing in between, the
    level is 1: it keeps [isPlaying = false], score 0, 3 lives and level 1 as
    the reset set them, so level 2 is not started, but it is not a no-op,
    since it installs the catalog entry of level 1 as environment, copies its
    objectives and speaks its welcome.  When a game is started in between it
    acts on that game.  No command and no button cancels it: only its
    firing takes it off the pending callbacks. *)
Theorem C1_stale_callback_after_reset e env objective :
  (0 < timers e)%nat ->
  at_index (environments e) 0 = Some env ->
  env_objectives env !! 0%nat = Some objective ->
  let welcome (lvlEnv : Environment) (first : Objective) :=
    Speak (nl +:+ "      Welcome to Adventure Mode! "
           +:+ nl +:+ "      " +:+ env_description lvlEnv
           +:+ nl +:+ "      Your objective: " +:+ objective_description first
           +:+ nl +:+ "      Listen carefully to the sounds around you. Good luck!"
           +:+ nl +:+ "    ") in
  let e1 := resetGame e in
  let e2 := snd (fireTimer e1) in
  (forall s level lvlEnv first,
      (0 < timers s)%nat ->
      currentLevel (gameState s) = level ->
      at_index (environments s) (level - 1) = Some lvlEnv ->
      env_objectives lvlEnv !! 0%nat = Some first ->
      fst (fireTimer s) = Returned
      /\ gameState (snd (fireTimer s))
         = set_objectives (env_objectives lvlEnv)
             (set_environment (Some lvlEnv) (gameState s))
      /\ timers (snd (fireTimer s)) = Nat.pred (timers s)
      /\ In (welcome lvlEnv first) (trace (snd (fireTimer s))))
  /\ (forall s,
        mode (gameState (snd (fireTimer s))) = mode (gameState s)
        /\ isPlaying (gameState (snd (fireTimer s))) = isPlaying (gameState s)
        /\ score (gameState (snd (fireTimer s))) = score (gameState s)
        /\ lives (gameState (snd (fireTimer s))) = lives (gameState s)
        /\ currentLevel (gameState (snd (fireTimer s))) = currentLevel (gameState s)
        /\ playerPosition (gameState (snd (fireTimer s))) = playerPosition (gameState s))
  /\ (forall s a, a <> TimerFires -> (timers s <= timers (perform a s))%nat)
  /\ gameState e1 = initialGameState (mode (gameState e))
  /\ timers e1 = timers e
  /\ fst (fireTimer e1) = Returned
  /\ timers e2 = Nat.pred (timers e)
  /\ isPlaying (gameState e2) = false
  /\ score (gameState e2) = 0
  /\ lives (gameState e2) = 3
  /\ currentLevel (gameState e2) = 1
  /\ environment (gameState e2) = Some env
  /\ objectives (gameState e2) = env_objectives env
  /\ In (welcome env objective) (trace e2).
Proof.
  intros Hpending Henv Hobj welcome e1 e2.
  assert (General : forall s level lvlEnv first,
      (0 < timers s)%nat ->
      currentLevel (gameState s) = level ->
      at_index (environments s) (level - 1) = Some lvlEnv ->
      env_objectives lvlEnv !! 0%nat = Some first ->
      fst (fireTimer s) = Returned
      /\ gameState (snd (fireTimer s))
         = set_objectives (env_objectives lvlEnv)
             (set_environment (Some lvlEnv) (gameState s))
      /\ timers (snd (fireTimer s)) = Nat.pred (timers s)
      /\ In (welcome lvlEnv first) (trace (snd (fireTimer s)))).
  { intros s level lvlEnv first Hs <- Hl Hf.
    rewrite (fireTimer_pending s Hs).
    destruct (startAdventureMode_returns (set_timers (Nat.pred (timers s)) s) lvlEnv first Hl Hf)
      as (s' & sounds & -> & Hg & _ & _ & _ & _ & Ht & Htr & _).
    cbn [fst snd]. rewrite Hg, Ht, Htr. repeat split.
    apply in_or_app. right. right. left. reflexivity. }
  split; [exact General|]. split.
  { intros s. unfold fireTimer. destruct (timers s) as [|n]; [repeat split|].
    destruct (startAdventureMode_keeps (set_timers n s)) as (H1 & H2 & H3 & H4 & H5 & H6 & _).
    cbv zeta in *. repeat split; assumption. }
  split.
  { intros s a Ha. apply (StillPending_perform (timers s) a s Ha). apply Nat.le_refl. }
  destruct (resetGame_state e) as (Hg1 & He1 & Ht1).
  assert (Hlevel : currentLevel (gameState e1) = 1) by (subst e1; rewrite Hg1; reflexivity).
  destruct (General e1 1 env objective) as (G1 & G2 & G3 & G4);
    [subst e1; rewrite Ht1; exact Hpending | exact Hlevel
    | subst e1; rewrite He1; exact Henv | exact Hobj |].
  subst e2. rewrite G2, G3. subst e1. rewrite Hg1, Ht1.
  repeat split; assumption.
Qed.

Lemma C1_stale_callback_after_reset_witness :
  let e2 := snd (fireTimer (resetGame levelOneCleared)) in
  let started := run (commands ["reset game"; "start game"]) levelOneCleared in
  isPlaying (gameState e2) = false
  /\ currentLevel (gameState e2) = 1
  /\ environment (gameState e2) = Some echoingForest
  /\ objectives (gameState e2) = [crystal]
  /\ timers started = 1%nat
  /\ isPlaying (gameState (snd (fireTimer started))) = true.
Proof.
  intros e2 started.
  pose proof (C1_stale_callback_after_reset levelOneCleared echoingForest crystal) as H.
  cbv zeta in H.
  destruct H as (_ & Hkeeps & _ & _ & _ & _ & _ & H1 & _ & _ & H2 & H3 & H4 & _);
    [vm_compute; lia | reflexivity | reflexivity |].
  destruct (Hkeeps started) as (_ & Hp & _).
  split; [exact H1|]. split; [exact H2|]. split; [exact H3|]. split; [exact H4|].
  split; [vm_compute; reflexivity|]. rewrite Hp. vm_compute. reflexivity.
Defined.

(** ** Commands that leave the game alone *)

Lemma SameGame_refl e : SameGame e e.
Proof. repeat split. Qed.

Lemma SameGame_trans e1 e2 e3 : SameGame e1 e2 -> SameGame e2 e3 -> SameGame e1 e3.
Proof. unfold SameGame. intuition congruence. Qed.

Lemma SameGame_OnlyTrace e e' : OnlyTrace e e' -> SameGame e e'.
Proof. unfold OnlyTrace, SameGame. intuition. Qed.

Lemma directionOf_changing command direction :
  directionOf command = Some direction -> includes changingCommands command = true.
Proof.
  unfold directionOf.
  repeat match goal with
         | |- context [String.eqb command ?s] =>
             destruct (String.eqb_spec command s) as [->|_]; [reflexivity|]
         end.
  discriminate.
Qed.

Lemma processCommand_informational command e :
  includes changingCommands command = false ->
  fst (processCommand command e) = Returned
  /\ SameGame e (snd (processCommand command e)).
Proof.
  intros Hno.
  assert (Hrec : SameGame e (received command e)) by (repeat split).
  destruct (processCommand_dispatched command e)
    as [Hp Hi|Hc|d Hp Hdir|Hp Hc|Hc|Hp Hc|Hc|Hc|Hp Hc|Hp Hi]; cbn [fst snd];
    try (subst command; discriminate Hno).
  - split; [reflexivity|]. repeat split.
  - apply directionOf_changing in Hdir. congruence.
  - split; [reflexivity|]. eapply SameGame_trans; [exact Hrec|].
    apply SameGame_OnlyTrace, OnlyTrace_lookAround.
  - split; [reflexivity|]. repeat split.
  - split; [reflexivity|]. repeat split.
  - split; [reflexivity|]. repeat split.
Qed.

(** X5.  Only eight commands can change the game: the four moves, start,
    stop, reset and the mode toggle.  Any run of other strings, in any
    phase, returns and leaves the game state, the catalog, the current
    objective and the pending transitions as they were: looking around,
    help and repeat only talk, and so does the answer to what is not
    understood. *)
Theorem other_commands_leave_the_game e cs :
  forallb (fun command => negb (includes changingCommands command)) cs = true ->
  Returns (commands cs) e /\ SameGame e (run (commands cs) e).
Proof.
  revert e. induction cs as [|c cs IH]; intros e Hcs.
  - split; [exact I|apply SameGame_refl].
  - cbn [forallb] in Hcs. apply andb_true_iff in Hcs. destruct Hcs as [Hc Hcs].
    apply negb_true_iff in Hc.
    destruct (processCommand_informational c e Hc) as [Hret Hsame].
    destruct (IH (perform (Command c) e) Hcs) as [Hrets Hsames].
    split.
    + split; [exact Hret|exact Hrets].
    + eapply SameGame_trans; [exact Hsame|exact Hsames].
Qed.

Lemma other_commands_leave_the_game_witness :
  SameGame levelOneCleared
    (run (commands ["look around"; "help"; "repeat"; "go north"; "toggle voice"])
         levelOneCleared).
Proof.
  apply (other_commands_leave_the_game levelOneCleared
           ["look around"; "help"; "repeat"; "go north"; "toggle voice"]).
  vm_compute. reflexivity.
Defined.

(** X6.  A key of the keyboard gives a command of the engine's
    vocabulary, except the V key: its command "toggle voice" is not one,
    and the engine answers it without changing anything. *)
Theorem keyboard_commands code command :
  VoiceController.keyCommand code = Some command ->
  if String.eqb code "KeyV"
  then includes vocabulary command = false
       /\ forall e, SameGame e (snd (processCommand command e))
  else includes vocabulary command = true.
Proof.
  unfold VoiceController.keyCommand.
  destruct (String.eqb_spec code "KeyS") as [->|_]; [intros [= <-]; reflexivity|].
  destruct (String.eqb_spec code "KeyM") as [->|_]; [intros [= <-]; reflexivity|].
  destruct (String.eqb_spec code "KeyV") as [->|_].
  { intros [= <-]. split; [reflexivity|]. intros e.
    apply processCommand_informational. reflexivity. }
  repeat match goal with
         | |- context [String.eqb code ?s] =>
             destruct (String.eqb_spec code s) as [->|_]; [intros [= <-]; reflexivity|]
         end.
  discriminate.
Qed.

Lemma keyboard_commands_witness :
  includes vocabulary "toggle voice" = false
  /\ forall e, SameGame e (snd (processCommand "toggle voice" e)).
Proof. apply (keyboard_commands "KeyV" "toggle voice"). reflexivity. Defined.

(** ** The mode toggle *)

Lemma processCommand_toggle e :
  processCommand "toggle mode" e = (Returned, toggleMode (received "toggle mode" e)).
Proof.
  unfold processCommand. fold (received "toggle mode" e).
  destruct (isPlaying (gameState (received "toggle mode" e))); reflexivity.
Qed.

Lemma toggleMode_gameState e :
  gameState (toggleMode e)
  = if isPlaying (gameState e) then gameState e
    else set_mode (match mode (gameState e) with
                   | practice => adventure
                   | adventure => practice
                   end) (gameState e).
Proof. unfold toggleMode. destruct (isPlaying (gameState e)); reflexivity. Qed.

(** X7.  Toggling the mode twice gives back the game state.  Outside a
    session the first command flips the mode and changes nothing else, says
    which mode it switched to and tells the page, and the second flips it
    back.  During a session both commands are refused with the request to
    stop the game first, and neither changes the game state. *)
Theorem toggle_mode_twice e :
  let g := gameState e in
  let e1 := perform (Command "toggle mode") e in
  let e2 := perform (Command "toggle mode") e1 in
  let refusal := Speak "Please stop the current game before changing modes." in
  gameState e2 = g
  /\ (isPlaying g = false ->
      gameState e1 = set_mode (otherMode (mode g)) g
      /\ mode (gameState e1) <> mode g
      /\ trace e1
         = StateChange (mkStatus (otherMode (mode g)) false (score g) (lives g)
                                 (currentLevel g))
             :: Speak (match mode g with
                       | practice => "Switched to adventure mode."
                       | adventure => "Switched to practice mode."
                       end)
             :: Log "Processing: toggle mode" :: trace e
      /\ mode (gameState e2) = mode g)
  /\ (isPlaying g = true ->
      gameState e1 = g
      /\ trace e1 = refusal :: Log "Processing: toggle mode" :: trace e
      /\ trace e2 = refusal :: Log "Processing: toggle mode" :: trace e1).
Proof.
  destruct e as [[m p sc li le pos dir env objs inv] envs co lc vis t tr].
  cbv zeta. destruct p, m;
    (split; [reflexivity|]);
    (split; intros Hp; [try discriminate Hp|try discriminate Hp]);
    repeat match goal with
           | |- _ /\ _ => split
           | |- _ <> _ => discriminate
           | |- _ = _ => reflexivity
           end.
Qed.

Lemma toggle_mode_twice_witness :
  let idle := new_GameEngine false in
  let playing := run (commands ["start game"]) (new_GameEngine false) in
  mode (gameState (perform (Command "toggle mode") idle)) = adventure
  /\ gameState (run (commands ["toggle mode"; "toggle mode"]) idle) = gameState idle
  /\ gameState (perform (Command "toggle mode") playing) = gameState playing
  /\ trace (perform (Command "toggle mode") playing)
     = Speak "Please stop the current game before changing modes."
         :: Log "Processing: toggle mode" :: trace playing.
Proof.
  intros idle playing.
  destruct (toggle_mode_twice idle) as (Hback & Hidle & _).
  destruct (toggle_mode_twice playing) as (_ & _ & Hplaying).
  destruct (Hidle eq_refl) as (H1 & _).
  destruct (Hplaying eq_refl) as (H2 & H3 & _).
  split; [rewrite H1; reflexivity|]. split; [exact Hback|]. split; [exact H2|exact H3].
Defined.

(** ** Moves that meet nothing *)

Lemma checkObjective_quiet o k e :
  objectiveInRange (playerPosition (gameState e)) o = false ->
  OnlyTrace e (checkObjective o k e).
Proof.
  unfold checkObjective, objectiveInRange. cbv zeta. intros ->.
  destruct (THREE.distanceTo_le _ _ 3); [apply OnlyTrace_emit|apply OnlyTrace_refl].
Qed.

Lemma objectives_quiet e n k :
  forallb (fun o => negb (objectiveInRange (playerPosition (gameState e)) o))
          (objectives (gameState e)) = true ->
  OnlyTrace e (forEachObjective checkObjective n k e).
Proof.
  intros Hq. apply (forEachObjective_invariant (OnlyTrace e)); [|apply OnlyTrace_refl].
  intros o i x Hx Hi. eapply OnlyTrace_trans; [exact Hx|].
  destruct Hx as (Hg & _). apply checkObjective_quiet. rewrite Hg in *.
  apply list_elem_of_lookup_2, list_elem_of_In in Hi.
  rewrite forallb_forall in Hq. apply negb_true_iff, Hq, Hi.
Qed.

Lemma hazards_quiet hs k e :
  forallb (fun h => negb (inRange (playerPosition (gameState e)) h)) hs = true ->
  OnlyTrace e (forEach checkHazard hs k e).
Proof.
  revert k e. induction hs as [|h hs IH]; intros k e Hq; [apply OnlyTrace_refl|].
  cbn [forallb] in Hq. apply andb_true_iff in Hq. destruct Hq as [Hh Hq].
  apply negb_true_iff in Hh. cbn [forEach].
  destruct (checkHazard_cases h k e) as [(Hin & _)|(_ & Hstep)]; [congruence|].
  eapply OnlyTrace_trans; [exact Hstep|]. apply IH.
  destruct Hstep as (Hg & _). rewrite Hg. exact Hq.
Qed.

Lemma checkForInteractions_quiet e :
  quietAt (playerPosition (gameState e)) (gameState e) = true ->
  OnlyTrace e (checkForInteractions e).
Proof.
  unfold quietAt. intros Hq. apply andb_true_iff in Hq. destruct Hq as [Ho Hh].
  unfold checkForInteractions. cbv zeta.
  pose proof (objectives_quiet e (length (objectives (gameState e))) 0 Ho) as H1.
  set (e1 := forEachObjective _ _ _ _) in *.
  pose proof H1 as (Hg & _). rewrite Hg.
  destruct (environment (gameState e)) as [env|]; [|exact H1].
  destruct (env_hazards env) as [hs|]; [|exact H1].
  eapply OnlyTrace_trans; [exact H1|]. apply hazards_quiet. rewrite Hg. exact Hh.
Qed.

(** An accepted move that ends away from every objective and hazard changes
    the position and nothing else. *)
Lemma movePlayer_quiet direction e :
  isPlaying (gameState e) = true ->
  hitsBoundary (stepped direction e) = false ->
  quietAt (stepTo direction (playerPosition (gameState e))) (gameState e) = true ->
  gameState (movePlayer direction e)
  = set_playerPosition (stepTo direction (playerPosition (gameState e))) (gameState e)
  /\ environments (movePlayer direction e) = environments e
  /\ currentObjective (movePlayer direction e) = currentObjective e
  /\ timers (movePlayer direction e) = timers e.
Proof.
  intros Hp Hb Hq.
  destruct (movePlayer_accepted direction e Hp Hb) as (e' & Hfin & ->).
  match type of Hfin with
  | OnlyTrace (checkForInteractions ?x) _ =>
      assert (Hx : OnlyTrace x (checkForInteractions x))
        by (apply checkForInteractions_quiet; exact Hq)
  end.
  destruct Hfin as (Hg & He & Hc & _ & _ & Ht).
  destruct Hx as (Hg' & He' & Hc' & _ & _ & Ht').
  rewrite Hg, Hg', He, He', Hc, Hc', Ht, Ht'. repeat split.
Qed.

Lemma processCommand_move command direction e :
  isPlaying (gameState e) = true ->
  directionOf command = Some direction ->
  processCommand command e = (Returned, movePlayer direction (received command e)).
Proof.
  intros Hp. unfold directionOf.
  repeat match goal with
         | |- context [String.eqb command ?s] =>
             destruct (String.eqb_spec command s) as [->|_];
             [intros [= <-]; unfold processCommand;
              match goal with
              | |- context [onLog ?m (set_lastCommand ?c e)] => fold (received c e)
              end;
              match goal with
              | |- context [isPlaying (gameState (received ?c e))] =>
                  change (isPlaying (gameState (received c e))) with (isPlaying (gameState e))
              end;
              rewrite Hp; reflexivity|]
         end.
  discriminate.
Qed.

Lemma directionOf_opposite command direction p :
  directionOf command = Some direction ->
  exists back,
    directionOf (opposite command) = Some back
    /\ stepTo back (stepTo direction p) = p.
Proof.
  unfold directionOf. destruct p as [px py pz].
  repeat match goal with
         | |- context [String.eqb command ?s] =>
             destruct (String.eqb_spec command s) as [->|_];
             [intros [= <-]; eexists; split; [reflexivity|];
              unfold stepTo, THREE.set_x, THREE.set_z; cbn; f_equal; lia|]
         end.
  discriminate.
Qed.

Lemma hitsBoundary_within e env :
  environment (gameState e) = Some env ->
  hitsBoundary e = negb (negb (beyondHalfSize (playerPosition (gameState e)) (env_size env))).
Proof. intros H. unfold hitsBoundary. rewrite H, negb_involutive. reflexivity. Qed.

(** X8.  A step and the step back cancel: when both positions are inside
    the bounds and away from every objective and hazard, a move command
    followed by the opposite one gives back the game state, position
    included. *)
Theorem opposite_moves_cancel command direction e env :
  isPlaying (gameState e) = true ->
  environment (gameState e) = Some env ->
  directionOf command = Some direction ->
  within (playerPosition (gameState e)) env ->
  within (stepTo direction (playerPosition (gameState e))) env ->
  quietAt (playerPosition (gameState e)) (gameState e) = true ->
  quietAt (stepTo direction (playerPosition (gameState e))) (gameState e) = true ->
  gameState (run (commands [command; opposite command]) e) = gameState e.
Proof.
  intros Hp Henv Hdir Hw Hw' Hq Hq'.
  destruct (directionOf_opposite command direction (playerPosition (gameState e)) Hdir)
    as (back & Hback & Hstep).
  cbn [run commands map fold_left perform].
  rewrite (processCommand_move command direction e Hp Hdir). cbn [snd].
  set (e0 := received command e).
  assert (H1 : gameState (movePlayer direction e0)
               = set_playerPosition (stepTo direction (playerPosition (gameState e)))
                                    (gameState e)).
  { apply (movePlayer_quiet direction e0); [exact Hp| |exact Hq'].
    rewrite (hitsBoundary_within _ env) by exact Henv.
    change (playerPosition (gameState (stepped direction e0)))
      with (stepTo direction (playerPosition (gameState e))).
    unfold within in Hw'. rewrite Hw'. reflexivity. }
  set (e1 := movePlayer direction e0) in *.
  assert (Hp1 : isPlaying (gameState e1) = true) by (rewrite H1; exact Hp).
  rewrite (processCommand_move (opposite command) back e1 Hp1 Hback). cbn [snd].
  set (e2 := received (opposite command) e1).
  assert (Hg2 : gameState e2 = gameState e1) by reflexivity.
  assert (H2 : gameState (movePlayer back e2)
               = set_playerPosition (stepTo back (playerPosition (gameState e2)))
                                    (gameState e2)).
  { apply (movePlayer_quiet back e2).
    - rewrite Hg2. exact Hp1.
    - rewrite (hitsBoundary_within _ env).
      + change (playerPosition (gameState (stepped back e2)))
          with (stepTo back (playerPosition (gameState e2))).
        rewrite Hg2, H1. cbn [playerPosition set_playerPosition]. rewrite Hstep.
        unfold within in Hw. rewrite Hw. reflexivity.
      + change (environment (gameState (stepped back e2)))
          with (environment (gameState e2)).
        rewrite Hg2, H1. exact Henv.
    - rewrite Hg2, H1. cbn [playerPosition set_playerPosition]. rewrite Hstep.
      exact Hq. }
  rewrite H2, Hg2, H1. cbn [playerPosition set_playerPosition].
  rewrite Hstep. destruct (gameState e). reflexivity.
Qed.

Lemma opposite_moves_cancel_witness :
  gameState (run (commands ["go forward"; "go back"]) levelOneCleared)
  = gameState levelOneCleared.
Proof.
  apply (opposite_moves_cancel "go forward" "forward" levelOneCleared echoingForest);
    vm_compute; reflexivity.
Defined.

(** ** Practice *)

(** Score, lives and level are the ones of [e0], the player is in the
    practice room and inside its walls, and there is no objective. *)
Lemma practice_step command e :
  environment (gameState e) = Some practiceRoom ->
  objectives (gameState e) = [] ->
  within (playerPosition (gameState e)) practiceRoom ->
  command <> "start game" -> command <> "reset game" ->
  let e' := snd (processCommand command e) in
  SameCounters e e'
  /\ environment (gameState e') = Some practiceRoom
  /\ objectives (gameState e') = []
  /\ within (playerPosition (gameState e')) practiceRoom
  /\ timers e' = timers e.
Proof.
  intros Henv Hobj Hw Hs Hr e'. subst e'.
  assert (Hsame : forall x, SameGame e x ->
            SameCounters e x /\ environment (gameState x) = Some practiceRoom
            /\ objectives (gameState x) = []
            /\ within (playerPosition (gameState x)) practiceRoom
            /\ timers x = timers e).
  { intros x (Hg & _ & _ & Ht). unfold SameCounters. rewrite Hg. repeat split; assumption. }
  assert (Hrec : SameGame e (received command e)) by (repeat split).
  destruct (processCommand_dispatched command e)
    as [Hp Hi|Hc|d Hp Hdir|Hp Hc|Hc|Hp Hc|Hc|Hc|Hp Hc|Hp Hi]; cbn [snd];
    try contradiction.
  - apply Hsame. repeat split.
  - set (e0 := received command e) in *.
    destruct (hitsBoundary (stepped d e0)) eqn:Hb.
    + destruct (movePlayer_rejected d e0 Hp Hb) as (_ & _ & Honly).
      apply Hsame. eapply SameGame_trans; [exact Hrec|].
      apply SameGame_OnlyTrace, Honly.
    + destruct (movePlayer_quiet d e0 Hp Hb) as (Hg & _ & _ & Ht).
      { unfold quietAt.
        change (objectives (gameState e0)) with (objectives (gameState e)).
        change (environment (gameState e0)) with (environment (gameState e)).
        rewrite Hobj, Henv. reflexivity. }
      unfold SameCounters. rewrite Hg, Ht.
      cbn [score lives currentLevel environment objectives playerPosition set_playerPosition].
      repeat split; try assumption.
      rewrite (hitsBoundary_within _ practiceRoom) in Hb by exact Henv.
      rewrite negb_involutive in Hb. exact Hb.
  - apply Hsame. eapply SameGame_trans; [exact Hrec|].
    apply SameGame_OnlyTrace, OnlyTrace_lookAround.
  - apply Hsame. repeat split.
  - apply Hsame. repeat split.
  - rewrite toggleMode_gameState.
    change (gameState (received command e)) with (gameState e).
    unfold SameCounters. rewrite toggleMode_gameState.
    change (gameState (received command e)) with (gameState e).
    assert (Ht : timers (toggleMode (received command e)) = timers e).
    { unfold toggleMode. destruct (isPlaying (gameState (received command e))); reflexivity. }
    rewrite Ht. destruct (isPlaying (gameState e)); repeat split; assumption.
  - unfold SameCounters. repeat split; assumption.
  - apply Hsame. repeat split.
Qed.

(** X9.  Practice is safe.  In the practice room with no objective left
    over, no run of commands other than start and reset changes score,
    lives or level, schedules a transition, or takes the player out of the
    room or through its walls. *)
Theorem practice_is_safe e cs :
  environment (gameState e) = Some practiceRoom ->
  objectives (gameState e) = [] ->
  within (playerPosition (gameState e)) practiceRoom ->
  forallb (fun command => negb (String.eqb command "start game")
                          && negb (String.eqb command "reset game")) cs = true ->
  let e' := run (commands cs) e in
  SameCounters e e'
  /\ environment (gameState e') = Some practiceRoom
  /\ objectives (gameState e') = []
  /\ within (playerPosition (gameState e')) practiceRoom
  /\ timers e' = timers e.
Proof.
  revert e. induction cs as [|c cs IH]; intros e Henv Hobj Hw Hcs; cbv zeta.
  - repeat split; assumption.
  - cbn [forallb] in Hcs. apply andb_true_iff in Hcs. destruct Hcs as [Hc Hcs].
    apply andb_true_iff in Hc. destruct Hc as [Hc1 Hc2].
    apply negb_true_iff, String.eqb_neq in Hc1.
    apply negb_true_iff, String.eqb_neq in Hc2.
    destruct (practice_step c e Henv Hobj Hw Hc1 Hc2) as (Hsc & Henv' & Hobj' & Hw' & Ht').
    destruct (IH (perform (Command c) e) Henv' Hobj' Hw' Hcs)
      as (Hsc2 & Henv2 & Hobj2 & Hw2 & Ht2).
    change (run (commands (c :: cs)) e) with (run (commands cs) (perform (Command c) e)).
    split; [|repeat split; try assumption].
    + destruct Hsc as (H1 & H2 & H3). destruct Hsc2 as (H4 & H5 & H6).
      unfold SameCounters. cbn [perform] in *. repeat split; congruence.
    + cbn [perform] in *. congruence.
Qed.

Lemma practice_is_safe_witness :
  let e := run (commands ["start game"]) (new_GameEngine false) in
  let e' := run (commands ["go left"; "go left"; "go left"; "go forward"; "look around";
                           "stop game"; "toggle mode"]) e in
  SameCounters e e'
  /\ environment (gameState e') = Some practiceRoom
  /\ objectives (gameState e') = []
  /\ within (playerPosition (gameState e')) practiceRoom
  /\ timers e' = timers e.
Proof.
  apply (practice_is_safe (run (commands ["start game"]) (new_GameEngine false)));
    vm_compute; reflexivity.
Defined.

(** ** After the last level *)

Ltac catalog_step :=
  intros;
  lazymatch goal with
  | |- CatalogIs _ (updateVisualState ?e) =>
      unfold updateVisualState; destruct (onVisualUpdate e); assumption
  | |- CatalogIs _ _ => match goal with H : CatalogIs _ _ |- _ => exact H end
  end.

Lemma CatalogIs_stopGame catalog e : CatalogIs catalog e -> CatalogIs catalog (stopGame e).
Proof. intros H. exact H. Qed.

Lemma environments_perform a e : environments (perform a e) = environments e.
Proof.
  change (CatalogIs (environments e) (perform a e)).
  assert (H : CatalogIs (environments e) e) by reflexivity.
  revert H. generalize (environments e) as catalog. intros catalog H.
  apply (carried_perform (CatalogIs catalog)) with (ok := fun _ => True);
    try exact I; try exact H; try apply CatalogIs_stopGame; try catalog_step.
  - intros m x Hx _. apply (carried_startGame (CatalogIs catalog)); catalog_step.
  - intros x Hx. apply (carried_resetGame (CatalogIs catalog)); catalog_step.
  - intros d x Hx. unfold CatalogIs in *. destruct (Progress_movePlayer d x). congruence.
  - intros x Hx. apply (carried_toggleMode (CatalogIs catalog)); catalog_step.
  - intros x Hx _. apply (carried_fireTimer (CatalogIs catalog)); catalog_step.
Qed.

Lemma level_perform a e :
  isReset a = false -> currentLevel (gameState e) <= currentLevel (gameState (perform a e)).
Proof.
  intros Hno. destruct (perform_cases a e) as [(Hr & _)|[(_ & _ & Hpg)|(_ & _ & _ & Hl)]].
  - congruence.
  - destruct (pg_level _ _ Hpg) as [H|(H & _)]; lia.
  - lia.
Qed.

Lemma run_keeps_catalog_and_level actions e :
  noReset actions = true ->
  environments (run actions e) = environments e
  /\ currentLevel (gameState e) <= currentLevel (gameState (run actions e)).
Proof.
  revert e. induction actions as [|a rest IH]; intros e Hno; [split; [reflexivity|apply Z.le_refl]|].
  cbn [noReset forallb] in Hno. apply andb_true_iff in Hno. destruct Hno as [Ha Hrest].
  apply negb_true_iff in Ha.
  destruct (IH (perform a e) Hrest) as [He Hl].
  change (run (a :: rest) e) with (run rest (perform a e)).
  rewrite He, environments_perform. split; [reflexivity|].
  pose proof (level_perform a e Ha). lia.
Qed.

Lemma processCommand_start e :
  processCommand "start game" e
  = startGame (mode (gameState e)) (received "start game" e).
Proof.
  unfold processCommand. fold (received "start game" e).
  destruct (isPlaying (gameState (received "start game" e))); reflexivity.
Qed.

(** X10.  After the last level the game cannot be started again: once the
    level number exceeds the number of environments, the start command of
    an Adventure game ends in a [TypeError], however the run goes on, until
    a reset.  The engine is then left playing with no environment, and
    the page is told nothing. *)
Theorem won_game_needs_reset e actions :
  Z.of_nat (length (environments e)) < currentLevel (gameState e) ->
  noReset actions = true ->
  mode (gameState (run actions e)) = adventure ->
  let e' := snd (processCommand "start game" (run actions e)) in
  fst (processCommand "start game" (run actions e)) = Threw
  /\ isPlaying (gameState e') = true
  /\ environment (gameState e') = None
  /\ trace e' = Log "Processing: start game" :: trace (run actions e).
Proof.
  intros Hwon Hno Hmode. cbv zeta.
  destruct (run_keeps_catalog_and_level actions e Hno) as [He Hl].
  set (e1 := run actions e) in *.
  rewrite processCommand_start.
  set (e2 := received "start game" e1).
  assert (Hnone : at_index (environments e2) (currentLevel (gameState e2) - 1) = None).
  { change (environments e2) with (environments e1).
    change (gameState e2) with (gameState e1).
    unfold at_index. destruct (Z.ltb_spec (currentLevel (gameState e1) - 1) 0); [reflexivity|].
    apply lookup_ge_None. rewrite He. lia. }
  destruct (startGame_adventure_throws e2 Hnone) as (Hthrew & Henv & _ & Htrace).
  destruct (startGame_restarts adventure e2) as (_ & Hp & _). cbv zeta in Hp.
  change (mode (gameState e2)) with (mode (gameState e1)). rewrite Hmode.
  repeat split; assumption.
Qed.

Lemma won_game_needs_reset_witness :
  let e' := snd (processCommand "start game"
                   (run (commands ["look around"; "help"]) bothLevelsCleared)) in
  fst (processCommand "start game"
         (run (commands ["look around"; "help"]) bothLevelsCleared)) = Threw
  /\ isPlaying (gameState e') = true
  /\ environment (gameState e') = None
  /\ trace e' = Log "Processing: start game"
                :: trace (run (commands ["look around"; "help"]) bothLevelsCleared).
Proof.
  apply (won_game_needs_reset bothLevelsCleared (commands ["look around"; "help"]));
    vm_compute; reflexivity.
Defined.

(** ** Lives and heading *)

Lemma lives_perform a e :
  isReset a = false -> lives (gameState (perform a e)) <= lives (gameState e).
Proof.
  intros Hno. destruct (perform_cases a e) as [(Hr & _)|[(_ & _ & Hpg)|(_ & _ & Hl & _)]].
  - congruence.
  - apply (pg_lives _ _ Hpg).
  - lia.
Qed.

(** X11.  A life lost is not regained: along a run without reset the lives
    never go up and the level never goes down, whatever the commands,
    restarts and transitions in it. *)
Theorem lives_are_not_regained e actions :
  noReset actions = true ->
  lives (gameState (run actions e)) <= lives (gameState e)
  /\ currentLevel (gameState e) <= currentLevel (gameState (run actions e)).
Proof.
  intros Hno. split; [|apply run_keeps_catalog_and_level, Hno].
  revert e Hno. induction actions as [|a rest IH]; intros e Hno; [apply Z.le_refl|].
  cbn [noReset forallb] in Hno. apply andb_true_iff in Hno. destruct Hno as [Ha Hrest].
  apply negb_true_iff in Ha.
  change (run (a :: rest) e) with (run rest (perform a e)).
  pose proof (IH (perform a e) Hrest). pose proof (lives_perform a e Ha). lia.
Qed.

Lemma lives_are_not_regained_witness :
  lives (gameState (run (commands ["stop game"; "start game"; "toggle mode"]) gameOverInForest))
  <= lives (gameState gameOverInForest)
  /\ currentLevel (gameState gameOverInForest)
     <= currentLevel (gameState (run (commands ["stop game"; "start game"; "toggle mode"])
                                     gameOverInForest)).
Proof.
  apply (lives_are_not_regained gameOverInForest
           (commands ["stop game"; "start game"; "toggle mode"])).
  reflexivity.
Defined.

Ltac listener_step :=
  intros;
  lazymatch goal with
  | Hn : narration ?ev = true |- ListenerForward (emit ?ev _) =>
      apply Forall_cons; split; [destruct ev; first [exact I | discriminate Hn]|assumption]
  | |- ListenerForward (updateState _) => apply Forall_cons; split; [exact I|assumption]
  | |- ListenerForward (startBackgroundMusic _) =>
      apply Forall_cons; split; [exact I|assumption]
  | |- ListenerForward (stopBackgroundMusic _) =>
      apply Forall_cons; split; [exact I|assumption]
  | |- ListenerForward (updateVisualState ?e) =>
      unfold updateVisualState; destruct (onVisualUpdate e);
      [apply Forall_cons; split; [exact I|assumption]|assumption]
  | |- ListenerForward _ => match goal with H : ListenerForward _ |- _ => exact H end
  end.

Lemma HeadingKept_emit ev e :
  listenerForward ev -> HeadingKept e -> HeadingKept (emit ev e).
Proof. intros Hev (Hf & Hl). split; [exact Hf|]. apply Forall_cons. split; assumption. Qed.

Ltac heading_step :=
  intros;
  lazymatch goal with
  | Hn : narration ?ev = true |- HeadingKept (emit ?ev _) =>
      apply HeadingKept_emit; [destruct ev; first [exact I | discriminate Hn]|assumption]
  | |- HeadingKept (playPositionalSound _ _ _) =>
      apply HeadingKept_emit; [exact I|assumption]
  | H : HeadingKept ?e |- HeadingKept (setListenerPosition _ (playerDirection (gameState ?e)) _ ?e) =>
      apply HeadingKept_emit; [split; [apply H|reflexivity]|exact H]
  | |- HeadingKept (updateState _) => apply HeadingKept_emit; [exact I|assumption]
  | |- HeadingKept (stopGame _) =>
      apply HeadingKept_emit; [exact I|]; apply HeadingKept_emit; [exact I|]; assumption
  | |- HeadingKept (updateVisualState ?e) =>
      unfold updateVisualState; destruct (onVisualUpdate e);
      [apply HeadingKept_emit; [exact I|assumption]|assumption]
  | |- HeadingKept _ => match goal with H : HeadingKept _ |- _ => exact H end
  end.

Lemma HeadingKept_perform a e : HeadingKept e -> HeadingKept (perform a e).
Proof.
  intros H.
  apply (carried_perform HeadingKept) with (ok := fun _ => True);
    try exact I; try exact H; try heading_step.
  - intros m x (_ & Hl) _. split.
    + destruct (startGame_restarts m x) as (_ & _ & _ & Hd & _). exact Hd.
    + apply (carried_startGame ListenerForward); listener_step.
  - intros x (_ & Hl). split.
    + unfold FacesForward. destruct (resetGame_state x) as (-> & _). reflexivity.
    + apply (carried_resetGame ListenerForward); listener_step.
  - intros d x Hx. apply (carried_movePlayer HeadingKept); heading_step.
  - intros x Hx. apply (carried_toggleMode HeadingKept); heading_step.
  - intros x Hx _. apply (carried_fireTimer HeadingKept); heading_step.
Qed.

(** X12.  The engine never turns the player.  On every run from a new
    engine the heading is the default one, (0, 0, 1): "left" and "right"
    are steps sideways.  And every call of [setListenerPosition] in such a
    run passes that same heading as the forward vector and (0, 1, 0) as the
    up vector, so the listener of the spatial audio is always oriented the
    same way. *)
Theorem player_never_turns visual actions :
  let e := run actions (new_GameEngine visual) in
  playerDirection (gameState e) = forwardHeading
  /\ (forall position forward up,
        In (SetListenerPosition position forward up) (trace e) ->
        forward = forwardHeading /\ up = upVector).
Proof.
  cbv zeta.
  assert (H : HeadingKept (run actions (new_GameEngine visual))).
  { assert (H0 : HeadingKept (new_GameEngine visual)) by (split; [reflexivity|constructor]).
    revert H0. generalize (new_GameEngine visual) as e.
    induction actions as [|a rest IH]; intros e H0; [exact H0|].
    apply (IH (perform a e)), HeadingKept_perform, H0. }
  destruct H as (Hf & Hl). split; [exact Hf|].
  intros position forward up Hin.
  unfold ListenerForward in Hl. rewrite Forall_forall in Hl.
  apply list_elem_of_In in Hin. exact (Hl _ Hin).
Qed.

Lemma player_never_turns_witness :
  let e := run (commands ["start game"; "go left"]) (new_GameEngine false) in
  In (SetListenerPosition (THREE.mkVector3 (-1) 0 0) forwardHeading upVector) (trace e)
  /\ playerDirection (gameState e) = forwardHeading.
Proof.
  intros e.
  assert (Hin : In (SetListenerPosition (THREE.mkVector3 (-1) 0 0) forwardHeading upVector)
                   (trace e)) by (vm_compute; tauto).
  split; [exact Hin|].
  destruct (player_never_turns false (commands ["start game"; "go left"])) as (Hd & Hl).
  exact Hd.
Defined.

(** ** Spoken answers *)

Lemma Extends_emit before ev e : Extends before e -> Extends before (emit ev e).
Proof. intros (events & H). exists (ev :: events). cbn [trace emit]. rewrite H. reflexivity. Qed.

Lemma Answered_emit before ev e : Answered before e -> Answered before (emit ev e).
Proof.
  intros (events & text & H & Hin). exists (ev :: events), text.
  cbn [trace emit]. rewrite H. split; [reflexivity|right; exact Hin].
Qed.

Lemma Answered_speak before text e : Extends before e -> Answered before (speak text e).
Proof.
  intros (events & H). exists (Speak text :: events), text.
  unfold speak. cbn [trace emit]. rewrite H. split; [reflexivity|left; reflexivity].
Qed.

Lemma Answered_updateState before e : Answered before e -> Answered before (updateState e).
Proof. apply Answered_emit. Qed.

Lemma Answered_updateVisualState before e :
  Answered before e -> Answered before (updateVisualState e).
Proof.
  intros H. unfold updateVisualState. destruct (onVisualUpdate e); [apply Answered_emit|]; exact H.
Qed.

Ltac extends_step :=
  intros;
  lazymatch goal with
  | |- Extends _ (emit _ _) => apply Extends_emit; assumption
  | |- Extends _ (playPositionalSound _ _ _) => apply Extends_emit; assumption
  | |- Extends _ (updateState _) => apply Extends_emit; assumption
  | |- Extends _ (stopGame _) => do 2 apply Extends_emit; assumption
  | |- Extends _ (updateVisualState ?e) =>
      unfold updateVisualState; destruct (onVisualUpdate e);
      [apply Extends_emit; assumption|assumption]
  | |- Extends _ _ => match goal with H : Extends _ _ |- _ => exact H end
  end.

Ltac answered_step :=
  intros;
  lazymatch goal with
  | |- Answered _ (emit _ _) => apply Answered_emit; assumption
  | |- Answered _ (updateState _) => apply Answered_emit; assumption
  | |- Answered _ (startBackgroundMusic _) => apply Answered_emit; assumption
  | |- Answered _ (updateVisualState ?e) =>
      unfold updateVisualState; destruct (onVisualUpdate e);
      [apply Answered_emit; assumption|assumption]
  | |- Answered _ _ => match goal with H : Answered _ _ |- _ => exact H end
  end.

(** The feedback of a move always has a text, so that [if (feedback)] lets
    it through. *)
Lemma getMovementFeedback_spoken direction e :
  exists a s, getMovementFeedback direction e = String a s.
Proof.
  unfold getMovementFeedback. cbv zeta.
  destruct (environment (gameState e)) as [env|]; [|eexists; eexists; reflexivity].
  repeat match goal with
         | |- context [if ?c then _ else _] => destruct c
         end; eexists; eexists; reflexivity.
Qed.

Lemma Answered_movePlayer before direction e :
  isPlaying (gameState e) = true -> Extends before e ->
  Answered before (movePlayer direction e).
Proof.
  intros Hp H. unfold movePlayer. rewrite Hp. cbn [negb]. cbv zeta.
  destruct (hitsBoundary _).
  - unfold playSound. apply Answered_emit, Answered_speak. exact H.
  - match goal with
    | |- context [checkForInteractions ?x] =>
        assert (H1 : Extends before (checkForInteractions x))
    end.
    { apply (carried_checkForInteractions (Extends before)); try extends_step.
      unfold setListenerPosition, playSound. do 2 apply Extends_emit. exact H. }
    set (e1 := checkForInteractions _) in *.
    destruct (getMovementFeedback_spoken direction e1) as (a & s & ->).
    apply Answered_updateVisualState, Answered_updateState, Answered_speak, H1.
Qed.

Lemma Answered_lookAround before e :
  isPlaying (gameState e) = true -> Extends before e -> Answered before (lookAround e).
Proof.
  intros Hp H. unfold lookAround. rewrite Hp. cbn [negb]. cbv zeta.
  destruct (environment (gameState e)) as [env|].
  - destruct (0 <? length _)%nat; unfold onLog, playSound;
      apply Answered_emit, Answered_speak; [apply Extends_emit|]; exact H.
  - unfold onLog. apply Answered_emit, Answered_speak, H.
Qed.

Lemma Answered_startGame before m e :
  Extends before e -> fst (startGame m e) = Returned ->
  Answered before (snd (startGame m e)).
Proof.
  intros H. unfold startGame. cbv zeta.
  match goal with
  | |- context [startPracticeMode ?x] => assert (HX : Extends before x) by exact H; revert HX;
                                         generalize x
  end.
  intros x HX. destruct m.
  - intros _. cbn [snd].
    assert (H1 : Answered before (startPracticeMode x)).
    { unfold startPracticeMode, onLog. cbv zeta.
      assert (H2 : Answered before (speak practiceWelcomeMessage x))
        by (apply Answered_speak, HX).
      pose proof (Answered_emit before (Log "Started Practice Mode") _ H2) as H3.
      exact H3. }
    unfold startBackgroundMusic.
    apply Answered_emit, Answered_updateVisualState, Answered_updateState, H1.
  - unfold startAdventureMode. cbv zeta.
    destruct (at_index _ _) as [env|]; [|discriminate].
    match goal with
    | |- context [currentObjective ?y] =>
        change (currentObjective y) with (env_objectives env !! 0%nat)
    end.
    destruct (env_objectives env !! 0%nat) as [objective|]; [|discriminate].
    intros _. cbn [snd].
    match goal with
    | |- context [setupSpatialAudio ?y] => assert (H1 : Answered before y)
    end.
    { unfold onLog. apply Answered_emit, Answered_speak. exact HX. }
    match goal with
    | |- context [setupSpatialAudio ?y] =>
        assert (H2 : Answered before (setupSpatialAudio y))
          by (apply (carried_setupSpatialAudio (Answered before)); answered_step)
    end.
    unfold startBackgroundMusic.
    apply Answered_emit, Answered_updateVisualState, Answered_updateState, H2.
Qed.

(** X13.  Every command that returns is answered by speech, whatever the
    phase, except two: "stop game" ends the session without a word, and
    "repeat" makes no narration of its own, it only asks the voice
    controller to repeat. *)
Theorem commands_are_answered command e :
  command <> "repeat" -> command <> "stop game" ->
  fst (processCommand command e) = Returned ->
  Answered (trace e) (snd (processCommand command e)).
Proof.
  intros Hrep Hstop Hret.
  assert (H0 : Extends (trace e) (received command e)).
  { exists [Log ("Processing: " +:+ command)]. reflexivity. }
  destruct (processCommand_dispatched command e)
    as [Hp Hi|Hc|d Hp Hdir|Hp Hc|Hc|Hp Hc|Hc|Hc|Hp Hc|Hp Hi]; cbn [fst snd] in *;
    try contradiction.
  - apply Answered_speak, H0.
  - apply Answered_startGame; assumption.
  - apply Answered_movePlayer; assumption.
  - apply Answered_lookAround; assumption.
  - unfold provideHelp, onLog. cbv zeta. apply Answered_emit, Answered_speak, H0.
  - unfold toggleMode. destruct (isPlaying _); cbv zeta.
    + apply Answered_speak, H0.
    + apply Answered_updateState, Answered_speak. exact H0.
  - unfold resetGame, onLog. cbv zeta.
    assert (H1 : Answered (trace e)
                   (speak resetMessage
                      (stopBackgroundMusic
                         (set_gameState
                            (initialGameState (mode (gameState (received command e))))
                            (received command e))))).
    { apply Answered_speak. unfold stopBackgroundMusic. apply Extends_emit. exact H0. }
    pose proof (Answered_emit _ (Log "Game reset") _ H1) as H2.
    apply Answered_updateVisualState, Answered_updateState, H2.
  - unfold handleUnknownCommand, onLog. cbv zeta. apply Answered_emit, Answered_speak, H0.
Qed.

Lemma commands_are_answered_witness :
  Answered (trace levelOneCleared) (snd (processCommand "go north" levelOneCleared)).
Proof.
  apply (commands_are_answered "go north" levelOneCleared);
    [discriminate | discriminate | reflexivity].
Defined.

(** ** Proximity cues *)

Lemma CuesReady_emit ev e : isCue ev = false -> CuesReady e -> CuesReady (emit ev e).
Proof.
  intros Hev (Hc & Ho & Hh). unfold CuesReady. cbn [trace emit gameState].
  assert (Hm : forall n, created n (trace e) = true -> created n (ev :: trace e) = true).
  { intros n Hn. destruct ev; cbn [created]; rewrite ?Hn, ?orb_true_r; reflexivity. }
  repeat split.
  - destruct ev; try discriminate Hev; exact Hc.
  - intros k Hk. apply Hm, Ho, Hk.
  - intros env hs k Henv Hhs Hk. apply Hm. eapply Hh; eassumption.
Qed.

Lemma CuesReady_cue name volume e :
  created name (trace e) = true -> CuesReady e ->
  CuesReady (playPositionalSound name volume e).
Proof.
  intros Hn (Hc & Ho & Hh). unfold CuesReady, playPositionalSound.
  cbn [trace emit gameState cuesExist created]. rewrite Hn, Hc. repeat split; assumption.
Qed.

(** A new game state with no more objectives, and with the same
    environment or one that lists no hazards. *)
Lemma CuesReady_state g e :
  CuesReady e ->
  (length (objectives g) <= length (objectives (gameState e)))%nat ->
  (forall env hs, environment g = Some env -> env_hazards env = Some hs ->
                  environment (gameState e) = Some env) ->
  CuesReady (set_gameState g e).
Proof.
  intros (Hc & Ho & Hh) Hlen Henv. unfold CuesReady.
  cbn [trace gameState set_gameState with_gameState]. repeat split.
  - exact Hc.
  - intros k Hk. apply Ho. lia.
  - intros env hs k He Hhs Hk. eapply Hh; [apply (Henv env hs)| |]; eassumption.
Qed.

Ltac cues_step :=
  intros;
  lazymatch goal with
  | Hn : narration ?ev = true |- CuesReady (emit ?ev _) =>
      apply CuesReady_emit; [destruct ev; first [reflexivity | discriminate Hn]|assumption]
  | |- CuesReady (updateState _) => apply CuesReady_emit; [reflexivity|assumption]
  | |- CuesReady (stopGame _) =>
      apply CuesReady_emit; [reflexivity|]; apply CuesReady_emit; [reflexivity|]; assumption
  | |- CuesReady (updateVisualState ?e) =>
      unfold updateVisualState; destruct (onVisualUpdate e);
      [apply CuesReady_emit; [reflexivity|assumption]|assumption]
  | |- CuesReady _ => match goal with H : CuesReady _ |- _ => exact H end
  end.

Lemma CuesReady_updateVisualState e : CuesReady e -> CuesReady (updateVisualState e).
Proof. cues_step. Qed.

Lemma CuesReady_interactWithObjective o k e :
  CuesReady e -> CuesReady (interactWithObjective o k e).
Proof.
  intros H. rewrite interactWithObjective_eq.
  assert (H1 : CuesReady (afterRemoval o k e)).
  { unfold afterRemoval.
    match goal with
    | |- CuesReady (with_gameState ?f ?x) =>
        assert (Hx : CuesReady x);
        [|apply (CuesReady_state (f (gameState x)) x Hx)]
    end.
    - unfold speak, playSound.
      do 2 (apply CuesReady_emit; [reflexivity|]). exact H.
    - cbn [objectives set_objectives].
      apply sublist_length, sublist_delete.
    - intros env hs He _. exact He. }
  unfold onLog. apply CuesReady_emit; [reflexivity|]. apply CuesReady_emit; [reflexivity|].
  destruct (Nat.eqb _ 0).
  - apply (carried_completeLevel CuesReady); cues_step.
  - exact H1.
Qed.

Lemma CuesReady_interactWithHazard h e : CuesReady e -> CuesReady (interactWithHazard h e).
Proof. intros H. apply (carried_interactWithHazard CuesReady); cues_step. Qed.

Lemma CuesReady_checkObjective o k e :
  CuesReady e -> objectives (gameState e) !! k = Some o -> CuesReady (checkObjective o k e).
Proof.
  intros H Hk. unfold checkObjective. cbv zeta.
  destruct (THREE.distanceTo_le _ _ interactionDistance);
    [apply CuesReady_interactWithObjective, H|].
  destruct (THREE.distanceTo_le _ _ 3); [|exact H].
  apply CuesReady_cue; [|exact H].
  destruct H as (_ & Ho & _). apply Ho. eapply lookup_lt_Some, Hk.
Qed.

Lemma created_emit name ev e :
  created name (trace e) = true -> created name (trace (emit ev e)) = true.
Proof.
  intros Hn. cbn [trace emit]. destruct ev; cbn [created]; rewrite ?Hn, ?orb_true_r; reflexivity.
Qed.

(** What has been created stays created through an interaction. *)
Lemma created_checkHazard name h k e :
  created name (trace e) = true -> created name (trace (checkHazard h k e)) = true.
Proof.
  intros Hn.
  apply (carried_checkHazard (fun x => created name (trace x) = true)); try exact Hn;
    intros;
    lazymatch goal with
    | |- created _ (trace (updateState _)) = true => apply created_emit; assumption
    | |- created _ (trace (stopGame _)) = true => do 2 apply created_emit; assumption
    | |- created _ (trace (emit _ _)) = true => apply created_emit; assumption
    | |- created _ (trace (playPositionalSound _ _ _)) = true => apply created_emit; assumption
    | |- _ => assumption
    end.
Qed.

Lemma CuesReady_hazards hs k e :
  CuesReady e ->
  (forall i, (i < length hs)%nat -> created ("hazard_" +:+ pretty (k + i)%nat) (trace e) = true) ->
  CuesReady (forEach checkHazard hs k e).
Proof.
  revert k e. induction hs as [|h hs IH]; intros k e H Hn; [exact H|].
  cbn [forEach]. apply IH.
  - unfold checkHazard. cbv zeta.
    destruct (THREE.distanceTo_le _ _ interactionDistance);
      [apply CuesReady_interactWithHazard, H|].
    destruct (THREE.distanceTo_le _ _ 2); [|exact H].
    apply CuesReady_cue; [|exact H].
    specialize (Hn 0%nat). rewrite Nat.add_0_r in Hn. apply Hn. cbn [length]. lia.
  - intros i Hi. apply created_checkHazard.
    replace (S k + i)%nat with (k + S i)%nat by lia. apply Hn. cbn [length]. lia.
Qed.

Lemma CuesReady_checkForInteractions e : CuesReady e -> CuesReady (checkForInteractions e).
Proof.
  intros H. unfold checkForInteractions. cbv zeta.
  assert (H1 : CuesReady (forEachObjective checkObjective
                            (length (objectives (gameState e))) 0 e)).
  { apply (forEachObjective_invariant CuesReady); [|exact H].
    intros o k x Hx Hk. apply CuesReady_checkObjective; assumption. }
  set (e1 := forEachObjective _ _ _ _) in *.
  destruct (environment (gameState e1)) as [env|] eqn:Henv; [|exact H1].
  destruct (env_hazards env) as [hs|] eqn:Hhs; [|exact H1].
  apply CuesReady_hazards; [exact H1|].
  intros i Hi. destruct H1 as (_ & _ & Hh). eapply Hh; eassumption.
Qed.

Lemma CuesReady_movePlayer direction e : CuesReady e -> CuesReady (movePlayer direction e).
Proof.
  intros H. unfold movePlayer.
  destruct (negb (isPlaying (gameState e))); [exact H|]. cbv zeta.
  destruct (hitsBoundary _).
  - unfold speak, playSound. do 2 (apply CuesReady_emit; [reflexivity|]). exact H.
  - match goal with
    | |- context [checkForInteractions ?x] =>
        assert (H1 : CuesReady (checkForInteractions x))
    end.
    { apply CuesReady_checkForInteractions. unfold setListenerPosition, playSound.
      do 2 (apply CuesReady_emit; [reflexivity|]). exact H. }
    set (e1 := checkForInteractions _) in *.
    apply CuesReady_updateVisualState. apply CuesReady_emit; [reflexivity|].
    destruct (getMovementFeedback direction e1); [exact H1|].
    unfold speak. apply CuesReady_emit; [reflexivity|exact H1].
Qed.

(** The loops of [setupSpatialAudio] create a sound for every index. *)
Lemma forEach_create_names {A : Type} (prefix : string) (position : A -> THREE.Vector3) l k e :
  let e' := forEach (fun a index => createPositionalSound (prefix +:+ pretty index) (position a))
                    l k e in
  gameState e' = gameState e
  /\ cuesExist (trace e') = cuesExist (trace e)
  /\ (forall n, created n (trace e) = true -> created n (trace e') = true)
  /\ (forall i, (i < length l)%nat -> created (prefix +:+ pretty (k + i)%nat) (trace e') = true).
Proof.
  revert k e. induction l as [|a l IH]; intros k e; cbv zeta; cbn [forEach].
  - repeat split; [auto|]. intros i Hi. cbn [length] in Hi. lia.
  - destruct (IH (S k) (createPositionalSound (prefix +:+ pretty k) (position a) e))
      as (Hg & Hc & Hm & Hn).
    cbv zeta in Hg, Hc, Hm, Hn. repeat split.
    + rewrite Hg. reflexivity.
    + rewrite Hc. reflexivity.
    + intros n Hcr. apply Hm. unfold createPositionalSound. apply created_emit, Hcr.
    + intros [|i] Hi.
      * rewrite Nat.add_0_r. apply Hm. unfold createPositionalSound.
        cbn [trace emit created]. rewrite String.eqb_refl. reflexivity.
      * replace (k + S i)%nat with (S k + i)%nat by lia. apply Hn. cbn [length] in Hi. lia.
Qed.

Lemma CuesReady_startAdventureMode e :
  CuesReady e -> fst (startAdventureMode e) = Returned ->
  CuesReady (snd (startAdventureMode e)).
Proof.
  intros (Hc & Ho & Hh). unfold startAdventureMode. cbv zeta.
  destruct (at_index _ _) as [env|]; [|discriminate].
  match goal with
  | |- context [currentObjective ?y] =>
      change (currentObjective y) with (env_objectives env !! 0%nat)
  end.
  destruct (env_objectives env !! 0%nat) as [objective|]; [|discriminate].
  intros _. cbn [snd].
  match goal with
  | |- CuesReady (setupSpatialAudio ?y) =>
      assert (Hy : cuesExist (trace y) = true) by exact Hc;
      assert (Hobj : objectives (gameState y) = env_objectives env) by reflexivity;
      assert (Henv : environment (gameState y) = Some env) by reflexivity;
      revert Hy Hobj Henv; generalize y
  end.
  intros y Hy Hobj Henv. unfold setupSpatialAudio. rewrite Henv.
  destruct (forEach_create_names "objective_" objective_position
              (objectives (gameState y)) 0 y) as (Hg1 & Hc1 & Hm1 & Hn1).
  cbv zeta in Hg1, Hc1, Hm1, Hn1.
  set (y1 := forEach _ (objectives (gameState y)) 0%nat y) in *.
  destruct (env_hazards env) as [hs|] eqn:Hhs.
  - destruct (forEach_create_names "hazard_" hazard_position hs 0 y1)
      as (Hg2 & Hc2 & Hm2 & Hn2).
    cbv zeta in Hg2, Hc2, Hm2, Hn2.
    set (y2 := forEach _ hs 0%nat y1) in *.
    unfold CuesReady. rewrite Hg2, Hg1, Hc2, Hc1. repeat split.
    + exact Hy.
    + intros k Hk. apply Hm2, (Hn1 k), Hk.
    + intros env' hs' k He' Hhs' Hk. rewrite Henv in He'. injection He' as <-.
      rewrite Hhs in Hhs'. injection Hhs' as <-. apply (Hn2 k), Hk.
  - unfold CuesReady. rewrite Hg1, Hc1. repeat split.
    + exact Hy.
    + intros k Hk. apply (Hn1 k), Hk.
    + intros env' hs' k He' Hhs' Hk. rewrite Henv in He'. injection He' as <-.
      congruence.
Qed.

Lemma CuesReady_startGame m e :
  CuesReady e -> fst (startGame m e) = Returned -> CuesReady (snd (startGame m e)).
Proof.
  intros H. unfold startGame. cbv zeta.
  match goal with
  | |- context [startPracticeMode ?x] => assert (HX : CuesReady x) by exact H; revert HX;
                                         generalize x
  end.
  intros x HX. destruct m.
  - intros _. cbn [snd]. unfold startBackgroundMusic.
    apply CuesReady_emit; [reflexivity|]. apply CuesReady_updateVisualState.
    apply CuesReady_emit; [reflexivity|].
    unfold startPracticeMode, onLog, speak. cbv zeta.
    match goal with
    | |- CuesReady (with_gameState ?f ?y) =>
        assert (Hy : CuesReady y);
        [|apply (CuesReady_state (f (gameState y)) y Hy)]
    end.
    + do 2 (apply CuesReady_emit; [reflexivity|]). exact HX.
    + apply Nat.le_refl.
    + intros env hs [= <-] Hhs. discriminate Hhs.
  - pose proof (CuesReady_startAdventureMode x HX) as H1.
    destruct (startAdventureMode x) as [c x1]. cbn [fst snd] in H1.
    destruct c; cbn [fst snd]; [|discriminate].
    intros _. unfold startBackgroundMusic.
    apply CuesReady_emit; [reflexivity|]. apply CuesReady_updateVisualState.
    apply CuesReady_emit; [reflexivity|]. apply H1. reflexivity.
Qed.

Lemma CuesReady_resetGame e : CuesReady e -> CuesReady (resetGame e).
Proof.
  intros H. unfold resetGame, onLog, speak, stopBackgroundMusic. cbv zeta.
  apply CuesReady_updateVisualState.
  do 4 (apply CuesReady_emit; [reflexivity|]).
  apply CuesReady_state; [exact H|cbn; lia|discriminate].
Qed.

Lemma CuesReady_perform a e :
  CuesReady e -> completion a e = Returned -> CuesReady (perform a e).
Proof.
  intros H Hret.
  apply (carried_perform CuesReady) with (ok := fun c => c = Returned);
    try exact Hret; try exact H; try cues_step.
  - intros m x Hx Hr. apply CuesReady_startGame; assumption.
  - apply CuesReady_resetGame.
  - apply CuesReady_movePlayer.
  - intros x Hx. apply (carried_toggleMode CuesReady); cues_step.
  - intros x Hx. unfold fireTimer. destruct (timers x); [intros _; exact Hx|].
    apply CuesReady_startAdventureMode. exact Hx.
Qed.

(** X14.  No proximity cue is dropped: along a run in which no action ends
    in an exception, every [playPositionalSound] of the engine names a
    sound that [setupSpatialAudio] had asked the audio manager to create,
    and a sound exists for every index of the objective list and of the
    hazards of the active environment. *)
Theorem proximity_cues_exist e actions :
  CuesReady e -> Returns actions e -> CuesReady (run actions e).
Proof.
  revert e. induction actions as [|a rest IH]; intros e H Hret; [exact H|].
  destruct Hret as [Ha Hrest]. apply (IH (perform a e)); [|exact Hrest].
  apply CuesReady_perform; assumption.
Qed.

Lemma proximity_cues_exist_witness :
  CuesReady (run (commands ["toggle mode"; "start game"; "go right"; "go right";
                            "go forward"; "go forward"])
                 (new_GameEngine false)).
Proof.
  apply (proximity_cues_exist (new_GameEngine false)).
  - unfold CuesReady. cbn. repeat split; [intros k Hk; lia|discriminate].
  - vm_compute. tauto.
Defined.

(** ** Objectives in range *)

















(** ** The voice controller *)

Lemma ownEntry_In name entries value :
  VoiceController.ownEntry name entries = Some value -> In (name, value) entries.
Proof.
  induction entries as [|[key v] rest IH]; cbn [VoiceController.ownEntry]; [discriminate|].
  destruct (String.eqb_spec name key) as [->|_].
  - intros [= ->]. left. reflexivity.
  - intros H. right. exact (IH H).
Qed.

Lemma firstPartial_In command entries value :
  VoiceController.firstPartial command entries = Some value ->
  exists key, In (key, value) entries /\ VoiceController.includes key command = true.
Proof.
  induction entries as [|[key v] rest IH]; cbn [VoiceController.firstPartial]; [discriminate|].
  destruct (VoiceController.includes key command) eqn:Hk.
  - intros [= ->]. exists key. split; [left; reflexivity|exact Hk].
  - intros H. destruct (IH H) as (k & Hin & Hinc). exists k. split; [right|]; assumption.
Qed.

Lemma existsb_eqb_In name names :
  existsb (String.eqb name) names = true -> In name names.
Proof.
  intros H. apply existsb_exists in H. destruct H as (s & Hin & Heq).
  apply String.eqb_eq in Heq. subst s. exact Hin.
Qed.

(** A word that occurs in a phrase has its tail occurring there too. *)
Lemma includes_tail a needle hay :
  VoiceController.includes (String a needle) hay = true ->
  VoiceController.includes needle hay = true.
Proof.
  induction hay as [|b hay IH]; cbn [VoiceController.includes String.prefix].
  - rewrite orb_false_r. discriminate.
  - intros H. apply orb_true_iff in H. apply orb_true_iff. right.
    destruct H as [H|H]; [|exact (IH H)].
    destruct (Ascii.ascii_dec a b) as [_|_]; [|discriminate].
    destruct hay; cbn [VoiceController.includes]; rewrite H; reflexivity.
Qed.

(** The values of the table are commands that the mapping hands on as they
    are. *)
Lemma commandMap_values_fixed key value :
  In (key, value) VoiceController.commandMap ->
  VoiceController.processVoiceCommand value = VoiceController.PassCommand value.
Proof.
  intros H. unfold VoiceController.commandMap in H. cbn [In] in H.
  repeat (destruct H as [[= <- <-]|H]; [vm_compute; reflexivity|]).
  destruct H.
Qed.

Lemma compound_values command value :
  VoiceController.compound command = VoiceController.PassCommand value ->
  VoiceController.processVoiceCommand value = VoiceController.PassCommand value.
Proof.
  unfold VoiceController.compound.
  repeat match goal with
         | |- context [if ?c then _ else _] => destruct c
         end; intros [= <-]; vm_compute; reflexivity.
Qed.

(** When no key of the table occurs in the phrase, none of the words that the
    compound branch looks for does. *)
Lemma firstPartial_None_compound command :
  VoiceController.firstPartial command VoiceController.commandMap = None ->
  VoiceController.compound command = VoiceController.PassNothing.
Proof.
  unfold VoiceController.commandMap. cbn [VoiceController.firstPartial].
  unfold VoiceController.compound.
  repeat match goal with
         | |- context [if VoiceController.includes ?k command then _ else _] =>
             destruct (VoiceController.includes k command)
         end; first [discriminate | reflexivity].
Qed.

(** X15.  What the voice mapping hands to the engine is a command that the
    mapping leaves alone: mapping a phrase twice gives what mapping it once
    gives. *)
Theorem voice_mapping_idempotent command value :
  VoiceController.processVoiceCommand command = VoiceController.PassCommand value ->
  VoiceController.processVoiceCommand value = VoiceController.PassCommand value.
Proof.
  intros H. pose proof H as H0. unfold VoiceController.processVoiceCommand in H.
  destruct (VoiceController.ownEntry command VoiceController.commandMap) as [v|] eqn:Hown.
  { injection H as ->. eapply commandMap_values_fixed, ownEntry_In, Hown. }
  destruct (existsb _ VoiceController.objectPrototype); [discriminate|].
  destruct (VoiceController.firstPartial command VoiceController.commandMap) as [v|] eqn:Hpart.
  { injection H as ->. destruct (firstPartial_In _ _ _ Hpart) as (key & Hin & _).
    eapply commandMap_values_fixed, Hin. }
  destruct (_ || _).
  - apply compound_values with command. exact H.
  - injection H as <-. exact H0.
Qed.

Lemma voice_mapping_idempotent_witness :
  VoiceController.processVoiceCommand "please walk backward now"
  = VoiceController.PassCommand "go back"
  /\ VoiceController.processVoiceCommand "go back" = VoiceController.PassCommand "go back".
Proof.
  split; [vm_compute; reflexivity|].
  apply (voice_mapping_idempotent "please walk backward now"). vm_compute. reflexivity.
Defined.

(** X16.  Every command of the engine's vocabulary, spoken word for word,
    reaches the engine unchanged, also "toggle mode", which the table does
    not list. *)
Theorem voice_keeps_engine_vocabulary command :
  In command vocabulary ->
  VoiceController.processVoiceCommand command = VoiceController.PassCommand command.
Proof.
  unfold vocabulary. cbn [In]. intros H.
  repeat (destruct H as [<-|H]; [vm_compute; reflexivity|]).
  destruct H.
Qed.

Lemma voice_keeps_engine_vocabulary_witness :
  VoiceController.processVoiceCommand "toggle mode" = VoiceController.PassCommand "toggle mode".
Proof.
  apply (voice_keeps_engine_vocabulary "toggle mode"). unfold vocabulary. cbn [In]. tauto.
Defined.

Lemma moveWord_not_key command value :
  VoiceController.includes "go" command || VoiceController.includes "move" command
  || VoiceController.includes "walk" command = true ->
  In (command, value) VoiceController.commandMap -> False.
Proof.
  intros Hw H. unfold VoiceController.commandMap in H. cbn [In] in H.
  repeat (destruct H as [[= <- <-]|H]; [vm_compute in Hw; discriminate|]).
  destruct H.
Qed.

Lemma moveWord_not_inherited command :
  VoiceController.includes "go" command || VoiceController.includes "move" command
  || VoiceController.includes "walk" command = true ->
  In command VoiceController.objectPrototype -> False.
Proof.
  intros Hw H. unfold VoiceController.objectPrototype in H. cbn [In] in H.
  repeat (destruct H as [<-|H]; [vm_compute in Hw; discriminate|]).
  destruct H.
Qed.

(** X17.  A phrase with "go", "move" or "walk" is mapped through the table or
    dropped: when no key of the table occurs in it [onCommand] is not called
    at all, so the direction words of the compound branch never decide
    anything and the engine is never told about the phrase. *)
Theorem voice_move_phrase_mapped_or_dropped command :
  VoiceController.includes "go" command || VoiceController.includes "move" command
  || VoiceController.includes "walk" command = true ->
  VoiceController.processVoiceCommand command
  = match VoiceController.firstPartial command VoiceController.commandMap with
    | Some value => VoiceController.PassCommand value
    | None => VoiceController.PassNothing
    end.
Proof.
  intros Hw. unfold VoiceController.processVoiceCommand.
  destruct (VoiceController.ownEntry command VoiceController.commandMap) as [v|] eqn:Hown.
  { destruct (moveWord_not_key command v Hw (ownEntry_In _ _ _ Hown)). }
  destruct (existsb _ VoiceController.objectPrototype) eqn:Hin.
  { destruct (moveWord_not_inherited command Hw (existsb_eqb_In _ _ Hin)). }
  destruct (VoiceController.firstPartial command VoiceController.commandMap) eqn:Hpart;
    [reflexivity|].
  rewrite Hw. apply firstPartial_None_compound. exact Hpart.
Qed.

Lemma voice_move_phrase_mapped_or_dropped_witness :
  VoiceController.processVoiceCommand "go north" = VoiceController.PassNothing.
Proof.
  apply (voice_move_phrase_mapped_or_dropped "go north"). vm_compute. reflexivity.
Defined.

(** X18.  The table is searched in the order it is written and "start" is its
    first key: every phrase in which "start" occurs, other than the keys
    "start" and "restart" themselves, starts a game; so does "restart the
    game". *)
Theorem voice_start_has_priority command :
  VoiceController.includes "start" command = true ->
  command <> "start" -> command <> "restart" ->
  VoiceController.processVoiceCommand command = VoiceController.PassCommand "start game".
Proof.
  intros Hs H1 H2. unfold VoiceController.processVoiceCommand.
  destruct (VoiceController.ownEntry command VoiceController.commandMap) as [v|] eqn:Hown.
  { exfalso. apply ownEntry_In in Hown. unfold VoiceController.commandMap in Hown.
    cbn [In] in Hown.
    repeat (destruct Hown as [[= <- <-]|Hown];
            [first [contradiction | vm_compute in Hs; discriminate]|]).
    destruct Hown. }
  destruct (existsb _ VoiceController.objectPrototype) eqn:Hin.
  { exfalso. apply existsb_eqb_In in Hin. unfold VoiceController.objectPrototype in Hin.
    cbn [In] in Hin.
    repeat (destruct Hin as [<-|Hin]; [vm_compute in Hs; discriminate|]).
    destruct Hin. }
  unfold VoiceController.commandMap. cbn [VoiceController.firstPartial].
  rewrite Hs. reflexivity.
Qed.

Lemma voice_start_has_priority_witness :
  VoiceController.processVoiceCommand "restart the game"
  = VoiceController.PassCommand "start game".
Proof.
  apply (voice_start_has_priority "restart the game");
    [vm_compute; reflexivity | discriminate | discriminate].
Defined.

(** ** The log of the page *)

Lemma sliceLast_snoc {A : Type} (n : nat) (array : list A) (a : A) :
  sliceLast (S n) (array ++ [a]) = sliceLast n array ++ [a].
Proof.
  unfold sliceLast. rewrite length_app. cbn [length].
  replace (length array + 1 - S n)%nat with (length array - n)%nat by lia.
  apply drop_app_le. lia.
Qed.

Lemma sliceLast_sliceLast {A : Type} (n : nat) (array : list A) :
  sliceLast n (sliceLast (S n) array) = sliceLast n array.
Proof.
  unfold sliceLast. rewrite drop_drop, length_drop. f_equal. lia.
Qed.

Lemma sliceLast_length {A : Type} (n : nat) (array : list A) :
  (length (sliceLast n array) <= n)%nat.
Proof. unfold sliceLast. rewrite length_drop. lia. Qed.

(** X20.  The log of the page shows the last ten messages, each with its
    time stamp, in the order they were logged; it never holds more than
    ten lines. *)
Theorem log_shows_last_ten (entries : list (string * string)) :
  logAfter entries = sliceLast 10 (map (fun entry => entry.1 +:+ ": " +:+ entry.2) entries)
  /\ (length (logAfter entries) <= 10)%nat.
Proof.
  assert (H : logAfter entries
              = sliceLast 10 (map (fun entry => entry.1 +:+ ": " +:+ entry.2) entries)).
  { induction entries as [|entry entries IH] using rev_ind; [reflexivity|].
    unfold logAfter in *. rewrite fold_left_app. cbn [fold_left]. rewrite IH.
    unfold addLog. rewrite map_app. cbn [map].
    rewrite sliceLast_sliceLast, sliceLast_snoc. reflexivity. }
  split; [exact H|]. rewrite H. apply sliceLast_length.
Qed.
